(** * gapi: parameter schemas, binding pipeline and pagination driver

    A shallow embedding of the Go package [api] of andygello555/gapi
    (the BindingParam file, binding.go, the paginator file and api.go),
    followed by the properties proved about it.

    Conventions of the embedding:
    - a Go [any] is a [value]; [VNil] is the nil interface;
    - a [reflect.Type] is an [rtype] ([option rtype] where it may be nil),
      a [reflect.Value] is the [value] it wraps ([VNil] for the zero Value);
    - a run-time panic is the outcome [Panic];
    - indexes of slices are [nat], other Go [int]s are [Z]; the page
      counter is a 64-bit [int] and its increment wraps;
    - maps are stdpp [gmap]s, sets are [gset]s, slices are lists (the
      sharing of backing arrays between slices is not modelled);
    - a method with a value receiver works on a copy of the struct: it is a
      function of the receiver, and what it assigns to the receiver's
      fields is not seen by the caller.  [Binding] interface values are
      addresses of [bindingProto] cells in a [store], which also holds the
      attribute maps, shared by every copy of a struct;
    - the step functions of a binding, the client, the rate-limit oracle
      and the methods of page types are parameters; they are taken not to
      panic;
    - a paginator runs in a [world] made of a clock and of the trace of
      its calls to the outside; the clock moves on while it sleeps, and
      by whatever the environment says has gone by when it is read. *)

From Stdlib Require Import ZArith QArith Lia.
From stdpp Require Import gmap strings list fin_maps.

Local Open Scope string_scope.
Local Open Scope list_scope.
Local Open Scope Z_scope.

(** ** Outcomes: a normal return or a run-time panic *)

Inductive result (A : Type) : Type :=
| Ret (a : A)
| Panic (msg : string).
Arguments Ret {A} a.
Arguments Panic {A} msg.

#[global] Instance result_ret : MRet result := fun A a => Ret a.
#[global] Instance result_bind : MBind result := fun A B f m =>
  match m with
  | Ret a => f a
  | Panic msg => Panic msg
  end.

(** ** The fragment of package reflect the code relies on *)

Inductive Kind :=
| KInvalid | KBool | KInt | KUint | KFloat64 | KString
| KSlice | KArray | KPtr | KMap | KStruct | KInterface.

#[global] Instance Kind_eq_dec : EqDecision Kind.
Proof. solve_decision. Defined.

(** A named struct type carries the names of the methods declared on the
    value receiver and on the pointer receiver; an interface type carries
    the names of the methods it requires. *)
Inductive rtype :=
| TBool | TInt | TUint | TFloat64 | TString
| TSlice (elem : rtype)
| TArray (len : nat) (elem : rtype)
| TPtr (elem : rtype)
| TMap (key elem : rtype)
| TStruct (name : string) (methods ptrMethods : list string)
| TInterface (name : string) (methods : list string).

#[global] Instance rtype_eq_dec : EqDecision rtype.
Proof. solve_decision. Defined.

Definition kindOf (t : rtype) : Kind :=
  match t with
  | TBool => KBool | TInt => KInt | TUint => KUint | TFloat64 => KFloat64
  | TString => KString
  | TSlice _ => KSlice | TArray _ _ => KArray | TPtr _ => KPtr
  | TMap _ _ => KMap | TStruct _ _ _ => KStruct | TInterface _ _ => KInterface
  end.

(** [Type.Elem]: panics unless the kind is Array, Map, Ptr or Slice. *)
Definition Type_Elem (t : option rtype) : result rtype :=
  match t with
  | None => Panic "nil pointer dereference"
  | Some (TSlice e) | Some (TArray _ e) | Some (TPtr e) | Some (TMap _ e) => Ret e
  | Some _ => Panic "reflect: Elem of invalid type"
  end.

(** [Type.Kind] on a possibly nil [reflect.Type]. *)
Definition Type_Kind (t : option rtype) : result Kind :=
  match t with
  | None => Panic "nil pointer dereference"
  | Some t => Ret (kindOf t)
  end.

Definition methodSet (t : rtype) : list string :=
  match t with
  | TStruct _ ms _ => ms
  | TPtr (TStruct _ ms pms) => ms ++ pms
  | TInterface _ ms => ms
  | _ => []
  end.

(** [t.Implements(u)]: [u] must be an interface type. *)
Definition Type_Implements (t u : option rtype) : result bool :=
  match t with
  | None => Panic "nil pointer dereference"
  | Some t =>
      match u with
      | None => Panic "reflect: nil type passed to Type.Implements"
      | Some (TInterface _ ms) =>
          Ret (forallb (fun m => bool_decide (m ∈ methodSet t)) ms)
      | Some _ => Panic "reflect: non-interface type passed to Type.Implements"
      end
  end.

(* No induction over values is needed; the nested scheme is not generated. *)
#[local] Unset Elimination Schemes.
Inductive value :=
| VNil
| VBool (b : bool)
| VInt (n : Z)
| VUint (n : Z)
| VFloat (q : Q)
| VString (s : string)
| VSlice (elem : rtype) (xs : list value)
| VArray (elem : rtype) (xs : list value)
| VMap (key elem : rtype) (entries : list (value * value))
| VPtr (elem : rtype) (target : option value)
| VStruct (name : string) (methods ptrMethods : list string) (fields : list value)
| VType (t : rtype)
| VValue (v : value).
#[local] Set Elimination Schemes.

Definition reflectTypeT : rtype := TPtr (TStruct "reflect.rtype" [] []).
Definition reflectValueT : rtype := TStruct "reflect.Value" [] [].

(** [reflect.TypeOf]: nil for the nil interface. *)
Definition TypeOf (v : value) : option rtype :=
  match v with
  | VNil => None
  | VBool _ => Some TBool
  | VInt _ => Some TInt
  | VUint _ => Some TUint
  | VFloat _ => Some TFloat64
  | VString _ => Some TString
  | VSlice e _ => Some (TSlice e)
  | VArray e xs => Some (TArray (length xs) e)
  | VMap k e _ => Some (TMap k e)
  | VPtr e _ => Some (TPtr e)
  | VStruct n ms pms _ => Some (TStruct n ms pms)
  | VType _ => Some reflectTypeT
  | VValue _ => Some reflectValueT
  end.

(** [reflect.ValueOf(v).Kind()]: Invalid for the zero Value. *)
Definition Value_Kind (v : value) : Kind :=
  match TypeOf v with
  | None => KInvalid
  | Some t => kindOf t
  end.

(** [reflect.ValueOf(v).Len()]. *)
Definition Value_Len (v : value) : result Z :=
  match v with
  | VSlice _ xs | VArray _ xs => Ret (Z.of_nat (length xs))
  | VString s => Ret (Z.of_nat (String.length s))
  | VMap _ _ es => Ret (Z.of_nat (length es))
  | VPtr (TArray n _) _ => Ret (Z.of_nat n)
  | _ => Panic "reflect: call of reflect.Value.Len on a Value without length"
  end.

(** The zero [reflect.Value], for which [IsValid] is false. *)
Definition isZeroValue (v : value) : bool :=
  match v with
  | VNil => true
  | _ => false
  end.

(** [reflect.Zero(t).Interface()] and the zero value of a type parameter. *)
Fixpoint zeroValue (t : rtype) : value :=
  match t with
  | TBool => VBool false
  | TInt => VInt 0
  | TUint => VUint 0
  | TFloat64 => VFloat 0%Q
  | TString => VString ""
  | TSlice e => VSlice e []
  | TArray n e => VArray e (replicate n (zeroValue e))
  | TPtr e => VPtr e None
  | TMap k e => VMap k e []
  | TStruct n ms pms => VStruct n ms pms []
  | TInterface _ _ => VNil
  end.

(** ** BindingParam (the parameter schema) *)

Record BindingParam := mkParam {
  name : string;
  variadic : bool;
  required : bool;
  defaultValue : value;
  t : option rtype;
  interfaceFlag : bool;
}.

(** The zero [BindingParam{}]. *)
Definition emptyParam : BindingParam := mkParam "" false false VNil None false.

Definition set_name (s : string) (p : BindingParam) : BindingParam :=
  mkParam s (variadic p) (required p) (defaultValue p) (t p) (interfaceFlag p).
Definition set_required (b : bool) (p : BindingParam) : BindingParam :=
  mkParam (name p) (variadic p) b (defaultValue p) (t p) (interfaceFlag p).
Definition set_variadic (b : bool) (p : BindingParam) : BindingParam :=
  mkParam (name p) b (required p) (defaultValue p) (t p) (interfaceFlag p).

(** The common tail of [getReflectType] once the type [ty] and the
    reflect.Value [val] are known; [val] is [VNil] when it is invalid, and
    a pointer value is zero, and nil, when it has no target. *)
Definition describe (ty : rtype) (val : value) : option rtype * bool * value :=
  match ty with
  | TPtr (TInterface n ms) =>
      (* pointer to an interface: the interface's own type, flagged *)
      match val with
      | VPtr _ (Some target) => (Some (TInterface n ms), true, target)
      | _ => (Some (TInterface n ms), true, VNil)
      end
  | _ =>
      match val with
      | VNil => (Some ty, false, VNil)
      | _ => (Some ty, false, val)
      end
  end.

Definition getReflectType (a : value) : result (option rtype * bool * value) :=
  match a with
  | VValue val =>
      match TypeOf val with
      | None => Panic "reflect: call of reflect.Value.Type on zero Value"
      | Some ty => Ret (describe ty val)
      end
  | VType ty => Ret (describe ty VNil)
  | _ => Ret (TypeOf a, false, a)
  end.

(** [BindingParam.Type]. *)
Definition Type_ (bp : BindingParam) : option rtype := t bp.

Definition Param (name : string) (val : value) : result BindingParam :=
  '(ty, iflag, defV) ← getReflectType val;
  Ret (mkParam name false false defV ty iflag).

Definition ReqParam (name : string) (val : value) : result BindingParam :=
  '(ty, iflag, defV) ← getReflectType val;
  Ret (mkParam name false true defV ty iflag).

Definition VarParam (name : string) (val : value) : result BindingParam :=
  '(ty, iflag, defV) ← getReflectType val;
  Ret (mkParam name true false defV ty iflag).

(** *** The notation parser [Params] *)

(** The variables the loop of [Params] carries from one argument to the
    next. *)
Record parser := mkParser {
  bindingParams : list BindingParam;
  currentBinding : BindingParam;
  currentBindingArg : Z;
  skipUntilName : bool;
}.

Definition parser0 : parser := mkParser [] emptyParam 0 false.

(** The closure [resetCurrentBinding]. *)
Definition resetCurrentBinding (st : parser) : parser :=
  mkParser (bindingParams st) emptyParam 0 (skipUntilName st).

(** The closure [setDefaultValue], for the triple read from the current
    argument. *)
Definition setDefaultValue (ty : option rtype) (iflag : bool) (defVal : value)
    (st : parser) : parser :=
  let cb := mkParam (name (currentBinding st)) (variadic (currentBinding st))
                    (required (currentBinding st)) defVal ty iflag in
  mkParser (bindingParams st ++ [cb]) emptyParam 2 (skipUntilName st).

(** [bindingParams[len(bindingParams)-1] = f(...)]: index -1 panics. *)
Definition updLast (f : BindingParam -> BindingParam) (l : list BindingParam)
    : result (list BindingParam) :=
  match last l with
  | None => Panic "index out of range [-1]"
  | Some p => Ret (removelast l ++ [f p])
  end.

(** The type assertions [arg.(string)] and [arg.(bool)]. *)
Definition asString (a : value) : result string :=
  match a with
  | VString s => Ret s
  | _ => Panic "interface conversion: interface {} is not string"
  end.

Definition asBool (a : value) : result bool :=
  match a with
  | VBool b => Ret b
  | _ => Panic "interface conversion: interface {} is not bool"
  end.

(** The body of [case reflect.Bool:]. *)
Definition boolCase (arg : value) (ty : option rtype) (iflag : bool)
    (defVal : value) (st : parser) : result parser :=
  if skipUntilName st then Ret st else
  if currentBindingArg st =? 1 then Ret (setDefaultValue ty iflag defVal st)
  else if currentBindingArg st =? 2 then
    (b ← asBool arg;
     ps ← updLast (set_required b) (bindingParams st);
     Ret (mkParser ps (currentBinding st) (currentBindingArg st + 1)
                   (skipUntilName st)))
  else if currentBindingArg st =? 3 then
    (b ← asBool arg;
     ps ← updLast (fun p => let p' := set_variadic b p in
                             if variadic p' then set_required false p' else p')
                   (bindingParams st);
     Ret (resetCurrentBinding
            (mkParser ps (currentBinding st) (currentBindingArg st)
                      (skipUntilName st))))
  else
    Ret (resetCurrentBinding
           (mkParser (bindingParams st) (currentBinding st)
                     (currentBindingArg st) true)).

(** The body of [default:], also reached by [fallthrough] from the string
    case. *)
Definition defaultCase (ty : option rtype) (iflag : bool) (defVal : value)
    (st : parser) : result parser :=
  if skipUntilName st then Ret st else
  if currentBindingArg st =? 1 then Ret (setDefaultValue ty iflag defVal st)
  else Ret st.

(** The body of [case reflect.String:]. *)
Definition stringCase (arg : value) (ty : option rtype) (iflag : bool)
    (defVal : value) (st : parser) : result parser :=
  let st1 :=
    if (currentBindingArg st =? 2) || (currentBindingArg st =? 3)
    then resetCurrentBinding st else st in
  if currentBindingArg st1 =? 0 then
    (s ← asString arg;
     Ret (mkParser (bindingParams st1) (set_name s (currentBinding st1))
                   (currentBindingArg st1 + 1) false))
  else defaultCase ty iflag defVal st1.

(** One iteration of [for _, arg := range args]. *)
Definition paramsStep (st : parser) (arg : value) : result parser :=
  '(ty, iflag, defVal) ← getReflectType arg;
  k ← Type_Kind ty;
  match k with
  | KString => stringCase arg ty iflag defVal st
  | KBool => boolCase arg ty iflag defVal st
  | _ => defaultCase ty iflag defVal st
  end.

Fixpoint paramsLoop (st : parser) (args : list value) : result parser :=
  match args with
  | [] => Ret st
  | arg :: rest => st' ← paramsStep st arg; paramsLoop st' rest
  end.

Definition Params (args : list value) : result (list BindingParam) :=
  st ← paramsLoop parser0 args;
  Ret (bindingParams st).

(** ** Errors

    One constructor per [fmt.Errorf] of the package; [EWrap] is
    [errors.Wrapf] with the context it adds. *)

Inductive wrapCtx :=
| WTypeCheck          (* type check failed for Binding %T *)
| WResponseWrapper    (* could not execute ResponseWrapper for Binding %T *)
| WRun                (* could not Execute Binding %T *)
| WResponseUnwrapped  (* could not execute ResponseUnwrapped for Binding %T *)
| WParseArg (i : nat) (* could not parse arg %q, no. %d, to type %s *)
| WPaginatorValues (page : Z) (* cannot get paginator param values ... on page %d *)
| WInsertValues (page : Z)    (* cannot insert paginator values ... for page %d *)
| WPage (page : Z)            (* error occurred on page no. %d *)
| WPageIgnoredFirst (page : Z). (* ..., after ignoring the first request due to no rate limit *)

Inductive error :=
(* checkParams *)
| ESameName (name : string) (i sameNameIdx : nat)
| ERequiredAfterOptional (name : string) (i : nat)
| EVariadicNotLast (name : string) (i : nat)
| EVariadicRequired (name : string) (i : nat)
| EVariadicDefaultKind (name : string) (i : nat) (k : Kind)
| EVariadicDefaultNonEmpty (name : string) (i : nat) (len : Z)
(* TypeCheckArgs *)
| EVariadicElemType (name : string) (elem : rtype) (j : nat) (actual : option rtype)
| EParamType (name : string) (declared : option rtype) (i : nat) (actual : option rtype)
| ERequiredNotProvided (name : string) (i : nat)
(* the paginator *)
| ENoAfterParam
| ENotAfterable
| EInvalidParamSet
| EInsertRequired (name : string) (paramNo : nat)
| ENoRateLimit (page : Z)
(* errors of the collaborators: client.Run, step functions, json, Merge *)
| EExternal (msg : string)
| EWrap (ctx : wrapCtx) (cause : error).

(** The two classes of §7 of the specification. *)
Definition is_schema_error (e : error) : bool :=
  match e with
  | ESameName _ _ _ | ERequiredAfterOptional _ _ | EVariadicNotLast _ _
  | EVariadicRequired _ _ | EVariadicDefaultKind _ _ _
  | EVariadicDefaultNonEmpty _ _ _ => true
  | _ => false
  end.

Definition is_validation_error (e : error) : bool :=
  match e with
  | EVariadicElemType _ _ _ _ | EParamType _ _ _ _ | ERequiredNotProvided _ _ => true
  | _ => false
  end.

(** ** binding.go: the structural check *)

(** The loop of the free function [checkParams]; [i] is the index of the
    head of [params] and [len] is [len(params)] of the whole list. *)
Fixpoint checkParamsLoop (len : Z) (i : nat) (namesToIdx : gmap string nat)
    (lastRequiredParam : Z) (params : list BindingParam)
    : result (option error) :=
  match params with
  | [] => Ret None
  | param :: rest =>
      match namesToIdx !! name param with
      | Some sameNameIdx => Ret (Some (ESameName (name param) i sameNameIdx))
      | None =>
          let namesToIdx := <[name param := i]> namesToIdx in
          if required param then
            if lastRequiredParam <=? Z.of_nat i - 2
            then Ret (Some (ERequiredAfterOptional (name param) i))
            else checkParamsLoop len (S i) namesToIdx (Z.of_nat i) rest
          else if variadic param then
            if negb (Z.of_nat i =? len - 1)
            then Ret (Some (EVariadicNotLast (name param) i))
            else if required param
            then Ret (Some (EVariadicRequired (name param) i))
            else
              let val := defaultValue param in
              if negb (bool_decide (Value_Kind val = KSlice))
                 && negb (bool_decide (Value_Kind val = KArray))
              then Ret (Some (EVariadicDefaultKind (name param) i (Value_Kind val)))
              else
                n ← Value_Len val;
                if negb (n =? 0)
                then Ret (Some (EVariadicDefaultNonEmpty (name param) i n))
                else checkParamsLoop len (S i) namesToIdx lastRequiredParam rest
          else checkParamsLoop len (S i) namesToIdx lastRequiredParam rest
      end
  end.

Definition checkParams (params : list BindingParam) : result (option error) :=
  checkParamsLoop (Z.of_nat (length params)) 0 ∅ 0 params.

(** ** binding.go: bindingProto *)

(** The transport collaborator.  [Run] receives the binding's name, its
    attribute map, the request and the response container, and returns the
    container as it left it together with its error. *)
Record Client := mkClient {
  Run : string -> gmap string value -> value -> value -> value * option error;
}.

(** An [Attr] is called with a possibly nil client; [Panic] is a panic of
    the attribute function, which [evaluateAttrs] recovers from. *)
Definition Attr : Type := option Client -> result (string * value).

(** What a step function can read of the binding it is handed: its name,
    its paginated flag and the current contents of its attribute map. *)
Record bview := mkView {
  bv_name : string;
  bv_paginated : bool;
  bv_attrs : gmap string value;
}.

Definition BindingRequestMethod : Type := bview -> list value -> value.
Definition BindingResponseWrapperMethod : Type :=
  bview -> list value -> value * option error.
Definition BindingResponseUnwrappedMethod : Type :=
  bview -> value -> list value -> value * option error.
Definition BindingResponseMethod : Type := bview -> value -> list value -> value.
Definition BindingParamsMethod : Type := bview -> list BindingParam.

(** Addresses of heap cells. *)
Definition loc : Type := nat.

(** The struct; [ResT] and [RetT] are its two type parameters, [attrs] is
    the address of the Go map (a reference shared by every copy of the
    struct).  The two mutexes are omitted: the model is sequential. *)
Record bindingProto := mkProto {
  ResT : rtype;
  RetT : rtype;
  requestMethod : option BindingRequestMethod;
  responseWrapperMethod : option BindingResponseWrapperMethod;
  responseUnwrappedMethod : option BindingResponseUnwrappedMethod;
  responseMethod : option BindingResponseMethod;
  paramErr : option error;
  checkedParams : bool;
  paramsMethod : option BindingParamsMethod;
  paginated : bool;
  b_name : string;
  nameSet : bool;
  attrs : loc;
  attrFuncs : list Attr;
}.

(** The heap: the [bindingProto] cells that [Binding] interface values
    point to, and the attribute maps. *)
Record store := mkStore {
  protos : gmap loc bindingProto;
  attrMaps : gmap loc (gmap string value);
}.

Definition emptyStore : store := mkStore ∅ ∅.

(** Field assignments on a receiver copy. *)
Definition with_responseWrapperMethod (m : option BindingResponseWrapperMethod)
    (b : bindingProto) : bindingProto :=
  mkProto (ResT b) (RetT b) (requestMethod b) m (responseUnwrappedMethod b)
    (responseMethod b) (paramErr b) (checkedParams b) (paramsMethod b)
    (paginated b) (b_name b) (nameSet b) (attrs b) (attrFuncs b).
Definition with_responseUnwrappedMethod (m : option BindingResponseUnwrappedMethod)
    (b : bindingProto) : bindingProto :=
  mkProto (ResT b) (RetT b) (requestMethod b) (responseWrapperMethod b) m
    (responseMethod b) (paramErr b) (checkedParams b) (paramsMethod b)
    (paginated b) (b_name b) (nameSet b) (attrs b) (attrFuncs b).
Definition with_responseMethod (m : option BindingResponseMethod)
    (b : bindingProto) : bindingProto :=
  mkProto (ResT b) (RetT b) (requestMethod b) (responseWrapperMethod b)
    (responseUnwrappedMethod b) m (paramErr b) (checkedParams b)
    (paramsMethod b) (paginated b) (b_name b) (nameSet b) (attrs b)
    (attrFuncs b).
Definition with_paramErr (e : option error) (b : bindingProto) : bindingProto :=
  mkProto (ResT b) (RetT b) (requestMethod b) (responseWrapperMethod b)
    (responseUnwrappedMethod b) (responseMethod b) e (checkedParams b)
    (paramsMethod b) (paginated b) (b_name b) (nameSet b) (attrs b)
    (attrFuncs b).
Definition with_checkedParams (c : bool) (b : bindingProto) : bindingProto :=
  mkProto (ResT b) (RetT b) (requestMethod b) (responseWrapperMethod b)
    (responseUnwrappedMethod b) (responseMethod b) (paramErr b) c
    (paramsMethod b) (paginated b) (b_name b) (nameSet b) (attrs b)
    (attrFuncs b).
Definition with_paramsMethod (m : option BindingParamsMethod)
    (b : bindingProto) : bindingProto :=
  mkProto (ResT b) (RetT b) (requestMethod b) (responseWrapperMethod b)
    (responseUnwrappedMethod b) (responseMethod b) (paramErr b)
    (checkedParams b) m (paginated b) (b_name b) (nameSet b) (attrs b)
    (attrFuncs b).
Definition with_paginated (p : bool) (b : bindingProto) : bindingProto :=
  mkProto (ResT b) (RetT b) (requestMethod b) (responseWrapperMethod b)
    (responseUnwrappedMethod b) (responseMethod b) (paramErr b)
    (checkedParams b) (paramsMethod b) p (b_name b) (nameSet b) (attrs b)
    (attrFuncs b).
Definition with_name (n : string) (set : bool) (b : bindingProto) : bindingProto :=
  mkProto (ResT b) (RetT b) (requestMethod b) (responseWrapperMethod b)
    (responseUnwrappedMethod b) (responseMethod b) (paramErr b)
    (checkedParams b) (paramsMethod b) (paginated b) n set (attrs b)
    (attrFuncs b).
Definition with_attrFuncs (fs : list Attr) (b : bindingProto) : bindingProto :=
  mkProto (ResT b) (RetT b) (requestMethod b) (responseWrapperMethod b)
    (responseUnwrappedMethod b) (responseMethod b) (paramErr b)
    (checkedParams b) (paramsMethod b) (paginated b) (b_name b) (nameSet b)
    (attrs b) fs.

(** [return &b]: the receiver copy escapes to a fresh heap cell. *)
Definition allocProto (b : bindingProto) (σ : store) : loc * store :=
  let p := fresh (dom (protos σ)) in
  (p, mkStore (<[p := b]> (protos σ)) (attrMaps σ)).

(** The contents of the map behind [b.attrs]. *)
Definition attrsOf (b : bindingProto) (σ : store) : gmap string value :=
  default ∅ (attrMaps σ !! attrs b).

(** [b.attrs[key] = val]. *)
Definition writeAttr (b : bindingProto) (key : string) (val : value)
    (σ : store) : store :=
  mkStore (protos σ) (<[attrs b := <[key := val]> (attrsOf b σ)]> (attrMaps σ)).

(** [%v] of the types that occur in a binding's name. *)
Fixpoint typeString (t : rtype) : string :=
  match t with
  | TBool => "bool" | TInt => "int" | TUint => "uint"
  | TFloat64 => "float64" | TString => "string"
  | TSlice e => "[]" +:+ typeString e
  | TArray _ e => "[...]" +:+ typeString e
  | TPtr e => "*" +:+ typeString e
  | TMap k e => "map[" +:+ typeString k +:+ "]" +:+ typeString e
  | TStruct n _ _ => n
  | TInterface n _ => n
  end.

Definition Name (b : bindingProto) : string :=
  if negb (nameSet b)
  then "api.bindingProto[" +:+ typeString (ResT b) +:+ "," +:+ typeString (RetT b) +:+ "]"
  else b_name b.

Definition Paginated (b : bindingProto) : bool := paginated b.

Definition Attrs (b : bindingProto) (σ : store) : gmap string value := attrsOf b σ.

Definition viewOf (b : bindingProto) (σ : store) : bview :=
  mkView (Name b) (Paginated b) (attrsOf b σ).

Definition GetRequestMethod (b : bindingProto) := requestMethod b.
Definition GetResponseWrapperMethod (b : bindingProto) := responseWrapperMethod b.
Definition GetResponseUnwrappedMethod (b : bindingProto) := responseUnwrappedMethod b.
Definition GetResponseMethod (b : bindingProto) := responseMethod b.
Definition GetParamsMethod (b : bindingProto) := paramsMethod b.

(** [Request]: nil when no request method is set. *)
Definition Request (b : bindingProto) (σ : store) (args : list value) : value :=
  match requestMethod b with
  | None => VNil
  | Some m => m (viewOf b σ) args
  end.

(** [ResponseWrapper]: by default [reflect.ValueOf(new(ResT))]. *)
Definition ResponseWrapper (b : bindingProto) (σ : store) (args : list value)
    : value * option error :=
  match responseWrapperMethod b with
  | None => (VPtr (ResT b) (Some (zeroValue (ResT b))), None)
  | Some m => m (viewOf b σ) args
  end.

(** [ResponseUnwrapped]: by default the container is asserted to be a
    pointer to [ResT] and dereferenced. *)
Definition ResponseUnwrapped (b : bindingProto) (σ : store)
    (responseWrapper : value) (args : list value)
    : result (value * option error) :=
  match responseUnwrappedMethod b with
  | None =>
      match responseWrapper with
      | VPtr e target =>
          if bool_decide (e = ResT b) then
            match target with
            | Some v => Ret (v, None)
            | None => Panic "nil pointer dereference"
            end
          else Panic "interface conversion: not *ResT"
      | _ => Panic "interface conversion: not *ResT"
      end
  | Some m => Ret (m (viewOf b σ) responseWrapper args)
  end.

(** The type assertion [any(v).(T)]. *)
Definition assertType (v : value) (ty : rtype) : result value :=
  match TypeOf v with
  | None => Panic "interface conversion: interface is nil"
  | Some tv =>
      match ty return result value with
      | TInterface _ _ =>
          ok ← Type_Implements (Some tv) (Some ty);
          if ok : bool then Ret v
          else Panic "interface conversion: missing method"
      | _ => if bool_decide (tv = ty) then Ret v
             else Panic "interface conversion: wrong dynamic type"
      end
  end.

(** [Response]: by default [any(response).(RetT)]. *)
Definition Response (b : bindingProto) (σ : store) (response : value)
    (args : list value) : result value :=
  match responseMethod b with
  | None => assertType response (RetT b)
  | Some m => Ret (m (viewOf b σ) response args)
  end.

(** The method [checkParams] has a value receiver: the two assignments
    reach the callee's copy of the struct only.  The function returns that
    copy as it stands when the method returns. *)
Definition proto_checkParams (b : bindingProto) (params : list BindingParam)
    : result bindingProto :=
  if negb (checkedParams b) then
    e ← checkParams params;
    Ret (with_checkedParams true (with_paramErr e b))
  else Ret b.

(** [Params], value receiver as well.  The copy that [b.checkParams(params)]
    worked on is gone when the call returns; [b] is as it was. *)
Definition Params_ (b : bindingProto) (σ : store) : result (list BindingParam) :=
  match paramsMethod b with
  | None => Ret (@nil BindingParam)
  | Some m =>
      let params := m (viewOf b σ) in
      _ ← proto_checkParams b params;
      Ret params
  end.

(** *** TypeCheckArgs *)

(** The closure [typeCheck]. *)
Definition typeCheck (param : BindingParam) (arg : value)
    : result (option rtype * bool) :=
  let argType := TypeOf arg in
  if interfaceFlag param then
    ok ← Type_Implements argType (Type_ param);
    Ret (argType, ok)
  else if variadic param then
    e ← Type_Elem (Type_ param);
    Ret (argType, bool_decide (Some e = argType))
  else Ret (argType, bool_decide (argType = Type_ param)).

(** [for j, nextArg := range args[i:]] of the variadic case. *)
Fixpoint checkVariadic (param : BindingParam) (paramElemType : rtype) (j : nat)
    (rest : list value) (newArgs : list value)
    : result (list value * option error) :=
  match rest with
  | [] => Ret (newArgs, None)
  | nextArg :: rest' =>
      '(incorrectType, pass) ← typeCheck param nextArg;
      if negb pass
      then Ret (newArgs,
                Some (EVariadicElemType (name param) paramElemType j incorrectType))
      else checkVariadic param paramElemType (S j) rest' (newArgs ++ [nextArg])
  end.

(** [for i, param := range params]; [i] is the index of the head of
    [params]. *)
Fixpoint typeCheckLoop (args : list value) (i : nat) (params : list BindingParam)
    (newArgs : list value) : result (list value * option error) :=
  match params with
  | [] => Ret (newArgs, None)
  | param :: rest =>
      if bool_decide (i < length args)%nat then
        if variadic param then
          paramElemType ← Type_Elem (Type_ param);
          (* the inner loop, then [break] *)
          checkVariadic param paramElemType 0 (drop i args) newArgs
        else
          match args !! i with
          | None => Panic "index out of range"
          | Some arg =>
              '(incorrectType, pass) ← typeCheck param arg;
              if negb pass
              then Ret (newArgs,
                        Some (EParamType (name param) (Type_ param) i incorrectType))
              else typeCheckLoop args (S i) rest (newArgs ++ [arg])
          end
      else
        if required param
        then Ret (newArgs, Some (ERequiredNotProvided (name param) i))
        else if negb (required param) && negb (variadic param)
        then typeCheckLoop args (S i) rest (newArgs ++ [defaultValue param])
        else typeCheckLoop args (S i) rest newArgs
  end.

(** [TypeCheckArgs] reads [b.paramErr] of its own receiver copy. *)
Definition TypeCheckArgs (b : bindingProto) (σ : store) (args : list value)
    : result (list value * option error) :=
  params ← Params_ b σ;
  match paramErr b with
  | Some e => Ret ([], Some e)
  | None =>
      if bool_decide (0 < length params)%nat
      then typeCheckLoop args 0 params []
      else Ret ([], None)
  end.

(** *** ArgsFromStrings *)

(** The loop of [ArgsFromStrings].  Two library functions are parameters:
    [sprintfQ] stands for [fmt.Sprintf] with the verb q, which puts the
    string between double quotes and escapes what a Go string literal
    escapes; [unmarshal] stands for [json.Unmarshal] into a fresh value of
    the given type. *)
Fixpoint argsFromStringsLoop (sprintfQ : string -> string)
    (unmarshal : string -> rtype -> value + error)
    (params : list BindingParam) (i : nat) (args : list string)
    (parsedArgs : list value) : result (list value * option error) :=
  match args with
  | [] => Ret (parsedArgs, None)
  | arg :: rest =>
      match params !! i with
      | None => Panic "index out of range"
      | Some param =>
          k ← Type_Kind (Type_ param);
          let arg := if bool_decide (k = KString) then sprintfQ arg else arg in
          match Type_ param with
          | None => Panic "reflect: New(nil)"
          | Some ty =>
              match unmarshal arg ty with
              | inr e => Ret (parsedArgs, Some (EWrap (WParseArg i) e))
              | inl v => argsFromStringsLoop sprintfQ unmarshal params (S i) rest
                           (parsedArgs ++ [v])
              end
          end
      end
  end.

Definition ArgsFromStrings (sprintfQ : string -> string)
    (unmarshal : string -> rtype -> value + error) (b : bindingProto) (σ : store) (args : list string)
    : result (list value * option error) :=
  params ← Params_ b σ;
  match paramErr b with
  | Some e => Ret ([], Some e)
  | None => argsFromStringsLoop sprintfQ unmarshal params 0 args []
  end.

(** *** Attributes *)

(** [slices.RemoveElems] of gotils: the elements at the given indexes are
    left out. *)
Definition RemoveElems {A} (l : list A) (indexes : list nat) : list A :=
  (imap (fun i x => (i, x)) l) ≫= (fun ix =>
    if bool_decide (ix.1 ∈ indexes) then [] else [ix.2]).

(** The loop of [evaluateAttrs]: every attribute function that does not
    panic writes its pair into the shared map. *)
Fixpoint evaluateLoop (b : bindingProto) (client : option Client) (i : nat)
    (fs : list Attr) (evaluatedAttrIndexes : list nat) (σ : store)
    : list nat * store :=
  match fs with
  | [] => (evaluatedAttrIndexes, σ)
  | attr :: rest =>
      match attr client with
      | Ret (key, val) =>
          evaluateLoop b client (S i) rest (evaluatedAttrIndexes ++ [i])
            (writeAttr b key val σ)
      | Panic _ => evaluateLoop b client (S i) rest evaluatedAttrIndexes σ
      end
  end.

(** [evaluateAttrs], value receiver: the pruned [attrFuncs] is assigned to
    the callee's copy, which is returned here next to the store. *)
Definition evaluateAttrs (b : bindingProto) (client : option Client) (σ : store)
    : bindingProto * store :=
  let '(evaluatedAttrIndexes, σ') := evaluateLoop b client 0 (attrFuncs b) [] σ in
  if bool_decide (0 < length evaluatedAttrIndexes)%nat
  then (with_attrFuncs (RemoveElems (attrFuncs b) evaluatedAttrIndexes) b, σ')
  else (b, σ').

(** *** Execute *)

(** Steps 3 to 8 of [Execute], on the arguments that passed the type
    check.  [responseWrapper.Interface()] panics on the zero Value, which
    a wrapper method may return with a nil error. *)
Definition runPipeline (b : bindingProto) (client : option Client)
    (args : list value) (σ : store) : result ((value * option error) * store) :=
  let σ1 := (evaluateAttrs b client σ).2 in
  let req := Request b σ1 args in
  let '(responseWrapper, err) := ResponseWrapper b σ1 args in
  match err with
  | Some e => Ret ((zeroValue (RetT b), Some (EWrap WResponseWrapper e)), σ1)
  | None =>
      if isZeroValue responseWrapper
      then Panic "reflect: call of reflect.Value.Interface on zero Value"
      else
        match client with
        | None => Panic "nil pointer dereference"
        | Some c =>
            let '(responseWrapper, err) :=
              Run c (Name b) (attrsOf b σ1) req responseWrapper in
            match err with
            | Some e => Ret ((zeroValue (RetT b), Some (EWrap WRun e)), σ1)
            | None =>
                '(responseUnwrapped, err) ←
                  ResponseUnwrapped b σ1 responseWrapper args;
                match err with
                | Some e =>
                    Ret ((zeroValue (RetT b), Some (EWrap WResponseUnwrapped e)),
                         σ1)
                | None =>
                    response ← Response b σ1 responseUnwrapped args;
                    Ret ((response, None), σ1)
                end
            end
        end
  end.

Definition Execute (b : bindingProto) (client : option Client)
    (args : list value) (σ : store) : result ((value * option error) * store) :=
  '(args, err) ← TypeCheckArgs b σ args;
  match err with
  | Some e => Ret ((zeroValue (RetT b), Some (EWrap WTypeCheck e)), σ)
  | None => runPipeline b client args σ
  end.

(** *** Setters and constructors

    Every setter has a value receiver, assigns to its copy and returns the
    address of that copy. *)

Definition SetResponseWrapperMethod (b : bindingProto)
    (method : option BindingResponseWrapperMethod) (σ : store) : loc * store :=
  allocProto (with_responseWrapperMethod method b) σ.

Definition SetResponseUnwrappedMethod (b : bindingProto)
    (method : option BindingResponseUnwrappedMethod) (σ : store) : loc * store :=
  allocProto (with_responseUnwrappedMethod method b) σ.

Definition SetResponseMethod (b : bindingProto)
    (method : option BindingResponseMethod) (σ : store) : loc * store :=
  allocProto (with_responseMethod method b) σ.

Definition SetParamsMethod (b : bindingProto)
    (method : option BindingParamsMethod) (σ : store) : result (loc * store) :=
  let b := with_paramsMethod method b in
  let b := with_paramErr None b in
  let b := with_checkedParams false b in
  _ ← Params_ b σ;
  Ret (allocProto b σ).

Definition SetPaginated (b : bindingProto) (paginated : bool) (σ : store)
    : loc * store :=
  allocProto (with_paginated paginated b) σ.

Definition SetName (b : bindingProto) (name : string) (σ : store) : loc * store :=
  allocProto (with_name name true b) σ.

(** [AddAttrs]: [append] is the concatenation of lists, so the functions
    of the new struct are those of the receiver followed by [attrs].  In Go
    the two slices may share a backing array, and a later [AddAttrs] on the
    same receiver may then overwrite the functions an earlier result holds;
    the lists do not show this, and the properties below say nothing of the
    functions of a binding after another [AddAttrs] on its origin. *)
Definition AddAttrs (b : bindingProto) (attrs : list Attr) (σ : store)
    : loc * store :=
  let b := with_attrFuncs (attrFuncs b ++ attrs) b in
  let σ1 := (evaluateAttrs b None σ).2 in
  allocProto b σ1.

(** [make(map[string]any)]. *)
Definition allocAttrs (σ : store) : loc * store :=
  let l := fresh (dom (attrMaps σ)) in
  (l, mkStore (protos σ) (<[l := ∅]> (attrMaps σ))).

Definition NewBinding (resT retT : rtype)
    (request : option BindingRequestMethod)
    (wrap : option BindingResponseWrapperMethod)
    (unwrap : option BindingResponseUnwrappedMethod)
    (response : option BindingResponseMethod)
    (params : option BindingParamsMethod)
    (paginated : bool) (attrs : list Attr) (σ : store) : loc * store :=
  let '(l, σ1) := allocAttrs σ in
  let b := mkProto resT retT request wrap unwrap response None false params
             paginated "" false l attrs in
  let '(p, σ2) := allocProto b σ1 in
  (p, (evaluateAttrs b None σ2).2).

Definition NewBindingChain (resT retT : rtype)
    (request : option BindingRequestMethod) (σ : store) : loc * store :=
  let '(l, σ1) := allocAttrs σ in
  allocProto (mkProto resT retT request None None None None false None
                false "" false l []) σ1.

(** A method called through a [Binding] interface value: the receiver is
    the struct read from the cell the interface value points to. *)
Definition deref (σ : store) (p : loc) : result bindingProto :=
  match protos σ !! p with
  | Some b => Ret b
  | None => Panic "nil pointer dereference"
  end.

(** ** The paginator *)

Definition AfterableT : rtype := TInterface "api.Afterable" ["After"].
Definition MergeableT : rtype := TInterface "api.Mergeable" ["Merge"; "HasMore"].

Inductive paginatorParamSet := unknownParamSet | pageParamSet | afterParamSet.

#[global] Instance paginatorParamSet_eq_dec : EqDecision paginatorParamSet.
Proof. solve_decision. Defined.

Inductive RateLimitType := RequestRateLimit | ResourceRateLimit.

(** What the interface [RateLimit] exposes; [Reset] is an instant on the
    same scale as the clock. *)
Record RateLimit := mkRateLimit {
  Reset : Z;
  Remaining : Z;
  Used : Z;
  Type_rl : RateLimitType;
}.

(** What a paginator does to the outside, oldest first. *)
Inductive event :=
| EvLatestRateLimit (bindingName : string)
| EvLog
| EvSleep (d : Z)
| EvExecute (args : list value).

(** The outside world: the wall clock as it was last set and the calls
    made so far.  A sleep and a reading of the clock set it. *)
Record world := mkWorld {
  clock : Z;
  trace : list event;
}.

(** The collaborators of a paginator: its client, its binding, the methods
    of the page type, [slices.AddElems] of gotils and the passing of time.
    Their answers may depend on the clock and on everything that happened
    before.  [elapsed site w] is the time that has gone by since the clock
    was last set when the call of [time.Now] at the place [site] of
    [paginatorCheckRateLimit] reads it in the world [w]; the four calls
    are numbered in the order of the source text. *)
Record collaborators := mkCollaborators {
  isRateLimited : bool;  (* client.(RateLimitedClient) succeeds *)
  LatestRateLimit : string -> world -> option RateLimit;
  binding_Name : string;
  binding_Paginated : bool;
  binding_Params : list BindingParam;
  binding_Execute : list value -> world -> value * option error;
  HasMore : value -> bool;
  Merge : value -> value -> value * option error;
  After : value -> value;
  AddElems : list value -> list value -> nat -> list value;
  elapsed : nat -> world -> Z;
}.

(** Computations in the world that may panic. *)
Definition W (A : Type) : Type := world -> result A * world.

#[global] Instance W_ret : MRet W := fun A a w => (Ret a, w).
#[global] Instance W_bind : MBind W := fun A B f m w =>
  match m w with
  | (Ret a, w') => f a w'
  | (Panic msg, w') => (Panic msg, w')
  end.

Definition liftR {A} (r : result A) : W A := fun w => (r, w).

Definition emit (e : event) (w : world) : world :=
  mkWorld (clock w) (trace w ++ [e]).

(** [time.Now().UTC()] at the place [site]: the reading sets the clock. *)
Definition now (env : collaborators) (site : nat) : W Z := fun w =>
  let t := clock w + elapsed env site w in
  (Ret t, mkWorld t (trace w)).

(** [time.Sleep(d)]: returns at once when [d] is not positive.  What the
    pause lasts beyond [d] is part of what has gone by at the next
    reading. *)
Definition sleep (d : Z) : W unit := fun w =>
  (Ret tt, mkWorld (clock w + Z.max d 0) (trace w ++ [EvSleep d])).

(** [rateLimitedClient.Log(...)]. *)
Definition log : W unit := fun w => (Ret tt, emit EvLog w).

Definition latestRateLimit (env : collaborators) (bindingName : string)
    : W (option RateLimit) := fun w =>
  (Ret (LatestRateLimit env bindingName w), emit (EvLatestRateLimit bindingName) w).

(** [p.binding.Execute(p.client, args...)]. *)
Definition execute (env : collaborators) (args : list value)
    : W (value * option error) := fun w =>
  (Ret (binding_Execute env args w), emit (EvExecute args) w).

(** The struct of both [typedPaginator] and [paginator]; the client and
    the binding are in [collaborators].  [limitArg] is the pointer to a
    float64: [None] is nil. *)
Record paginator := mkPaginator {
  usingRateLimitedClient : bool;
  params : list BindingParam;
  paramSet : paginatorParamSet;
  limitArg : option Q;
  waitTime : Z;
  args : list value;
  returnType : rtype;
  page : Z;
  currentPage : value;
}.

(** Go's [int] is 64 bits wide here; [p.page++] wraps. *)
Definition wrap64 (z : Z) : Z := (z + 2 ^ 63) mod 2 ^ 64 - 2 ^ 63.

Definition Set_ (pps : paginatorParamSet) : gset string :=
  match pps with
  | pageParamSet => {["page"]}
  | afterParamSet => {["after"]}
  | unknownParamSet => ∅
  end.

Definition Sets : list paginatorParamSet := [pageParamSet; afterParamSet].

Fixpoint findAfterParam (params : list BindingParam)
    : result (gmap string value + error) :=
  match params with
  | [] => Ret (inr ENoAfterParam)
  | param :: rest =>
      if bool_decide (name param = "after") then
        match Type_ param with
        | None => Panic "reflect: Zero(nil)"
        | Some ty => Ret (inl {["after" := zeroValue ty]})
        end
      else findAfterParam rest
  end.

Definition GetPaginatorParamValue (env : collaborators) (pps : paginatorParamSet)
    (params : list BindingParam) (resource : value) (page : Z)
    : result (gmap string value + error) :=
  match pps with
  | pageParamSet => Ret (inl {["page" := VInt page]})
  | afterParamSet =>
      match TypeOf resource with
      | None => findAfterParam params
      | Some ty =>
          ok ← Type_Implements (Some ty) (Some AfterableT);
          if ok : bool
          then Ret (inl {["after" := After env resource]})
          else Ret (inr ENotAfterable)
      end
  | unknownParamSet => Ret (inr EInvalidParamSet)
  end.

(** The loop of [InsertPaginatorParamValues]. *)
Fixpoint insertLoop (env : collaborators) (ppsSet : gset string)
    (paginatorValues : gmap string value) (paramNo : nat)
    (params : list BindingParam) (args : list value) (ppsSetUsed : gset string)
    : list value * option error :=
  match params with
  | [] => (args, None)
  | param :: rest =>
      match paginatorValues !! name param with
      | Some pagVal =>
          let args := AddElems env args [pagVal] paramNo in
          let ppsSetUsed := {[name param]} ∪ ppsSetUsed in
          if bool_decide (ppsSet = ppsSetUsed) then (args, None)
          else insertLoop env ppsSet paginatorValues (S paramNo) rest args ppsSetUsed
      | None =>
          if bool_decide (length args <= paramNo)%nat then
            if required param
            then (args, Some (EInsertRequired (name param) paramNo))
            else
              let args := AddElems env args [defaultValue param] paramNo in
              if bool_decide (ppsSet = ppsSetUsed) then (args, None)
              else insertLoop env ppsSet paginatorValues (S paramNo) rest args
                     ppsSetUsed
          else
            if bool_decide (ppsSet = ppsSetUsed) then (args, None)
            else insertLoop env ppsSet paginatorValues (S paramNo) rest args
                   ppsSetUsed
      end
  end.

Definition InsertPaginatorParamValues (env : collaborators)
    (pps : paginatorParamSet) (params : list BindingParam) (args : list value)
    (paginatorValues : gmap string value) : list value * option error :=
  insertLoop env (Set_ pps) paginatorValues 0 params args ∅.

Definition checkPaginatorParams (params : list BindingParam) : paginatorParamSet :=
  let paramNameSet : gset string := list_to_set (name <$> params) in
  default unknownParamSet
    (head (filter (fun pps => Set_ pps ∖ paramNameSet = ∅) Sets)).

Definition limitParamNames : gset string := {["limit"; "count"]}.

(** [Continue], the same text in both paginators. *)
Definition Continue (env : collaborators) (p : paginator) : result bool :=
  isMergeable ← Type_Implements (Some (returnType p)) (Some MergeableT);
  hasMore ←
    (if isMergeable : bool then
       match TypeOf (currentPage p) with
       | None => Ret false
       | Some ty =>
           ok ← Type_Implements (Some ty) (Some MergeableT);
           Ret (if ok : bool then HasMore env (currentPage p) else false)
       end
     else
       n ← Value_Len (currentPage p);
       Ret (0 <? n));
  Ret ((page p =? 1) || hasMore).

Definition Page (p : paginator) : value := currentPage p.

(** *** paginatorCheckRateLimit *)

(** [CanInt], [CanUint] and [CanFloat] with the conversion to float64;
    float64 values are idealised as rationals. *)
Definition numericOf (argVal : value) : option Q :=
  match argVal with
  | VInt n => Some (inject_Z n)
  | VUint n => Some (inject_Z n)
  | VFloat q => Some q
  | _ => None
  end.

(** The search [for i, param := range params] for a limit or count
    parameter: the value that the loop would store. *)
Fixpoint findLimitArg (i : nat) (params : list BindingParam) (args : list value)
    : option Q :=
  match params with
  | [] => None
  | param :: rest =>
      if negb (bool_decide (name param ∈ limitParamNames))
      then findLimitArg (S i) rest args
      else
        let argVal :=
          if bool_decide (i < length args)%nat then default VNil (args !! i)
          else if negb (required param) && negb (variadic param)
          then defaultValue param
          else VNil in
        match numericOf argVal with
        | Some val => Some val
        | None => findLimitArg (S i) rest args
        end
  end.

(** [for rl == nil && tries > 0]. *)
Fixpoint retryLatest (env : collaborators) (waitTime : Z) (bindingName : string)
    (tries : nat) (rl : option RateLimit) : W (option RateLimit) :=
  match rl, tries with
  | None, S tries' =>
      _ ← log;
      _ ← sleep waitTime;
      rl' ← latestRateLimit env bindingName;
      retryLatest env waitTime bindingName tries' rl'
  | _, _ => mret rl
  end.

(** The fetch of the latest limit with its three retries. *)
Definition consultOracle (env : collaborators) (waitTime : Z)
    (bindingName : string) : W (option RateLimit) :=
  rl ← latestRateLimit env bindingName;
  retryLatest env waitTime bindingName 3 rl.

(** The case [ResourceRateLimit].  [limitArg] is the double pointer: the
    outer [None] is a nil pointer to the field, the inner [None] is a field
    that holds nil. *)
Definition resourceCase (limitArg : option (option Q)) (page : Z)
    (currentPage : value) (params : list BindingParam) (args : list value)
    (rl : RateLimit) (sleepTime : Z) : W unit :=
  n ← liftR (Value_Len currentPage);
  if Remaining rl <? n then
    _ ← log; sleep sleepTime
  else if (page =? 1) || (0 <? n) then
    match limitArg with
    | None =>
        (* [limitArg == nil]: the search runs, and both the store through
           the nil pointer and the later read of it panic *)
        match findLimitArg 0 params args with
        | Some _ => liftR (Panic "nil pointer dereference")
        | None => liftR (Panic "nil pointer dereference")
        end
    | Some None => liftR (Panic "nil pointer dereference")
    | Some (Some limit) =>
        if negb (Qle_bool limit (inject_Z (Remaining rl))) then
          _ ← log; sleep sleepTime
        else mret tt
    end
  else mret tt.

(** Returns [(ignoreFirstRequest, ok, err)].  The clock is read only when
    the oracle returned a limit ([rl != nil && ...]), a second time for
    [sleepTime], and twice for the message logged about a limit that has
    expired past page 1. *)
Definition paginatorCheckRateLimit (env : collaborators) (waitTime : Z)
    (bindingName : string) (limitArg : option (option Q)) (page : Z)
    (currentPage : value) (params : list BindingParam) (args : list value)
    : W (bool * bool * option error) :=
  if isRateLimited env then
    rl ← consultOracle env waitTime bindingName;
    match rl with
    | Some r =>
        t0 ← now env 0;
        if t0 <? Reset r then
          t1 ← now env 1;
          let sleepTime := Reset r - t1 in
          _ ← match Type_rl r with
              | RequestRateLimit =>
                  if Remaining r =? 0 then (_ ← log; sleep sleepTime) else mret tt
              | ResourceRateLimit =>
                  resourceCase limitArg page currentPage params args r sleepTime
              end;
          mret (false, true, None)
        else if page =? 1 then mret (true, true, None)
        else (_ ← now env 2; _ ← now env 3; _ ← log; mret (false, true, None))
    | None =>
        if page =? 1 then mret (true, true, None)
        else (_ ← log; mret (false, true, Some (ENoRateLimit page)))
    end
  else mret (false, false, None).

(** *** Next, merge and All of the typed paginator *)

Definition with_page (n : Z) (p : paginator) : paginator :=
  mkPaginator (usingRateLimitedClient p) (params p) (paramSet p) (limitArg p)
    (waitTime p) (args p) (returnType p) n (currentPage p).

Definition with_fetched (ok : bool) (ret : value) (p : paginator) : paginator :=
  mkPaginator ok (params p) (paramSet p) (limitArg p) (waitTime p) (args p)
    (returnType p) (page p) ret.

(** The closure [execute] of [Next], called with the arguments [args]
    built for this page.  Returns the page fetched, the flag
    [ignoreFirstRequest], the new [p.usingRateLimitedClient] and the
    error. *)
Definition executeOnce (env : collaborators) (p : paginator) (args' : list value)
    : W (value * bool * bool * option error) :=
  '(ignoreFirstRequest, ok, err) ←
    paginatorCheckRateLimit env (waitTime p) (binding_Name env)
      (Some (limitArg p)) (page p) (currentPage p) (params p) (args p);
  match err with
  | Some e => mret (zeroValue (returnType p), ignoreFirstRequest, ok, Some e)
  | None =>
      '(ret, err) ← execute env args';
      mret (ret, ignoreFirstRequest, ok, err)
  end.

(** The end of a successful [Next]: [p.page++], then the fixed delay
    between pages when one is configured. *)
Definition advance (p : paginator) : W (paginator * option error) :=
  let p' := with_page (wrap64 (page p + 1)) p in
  _ ← (if negb (waitTime p' =? 0) then sleep (waitTime p') else mret tt);
  mret (p', None).

(** [Next] has a pointer receiver: the paginator it returns is the
    receiver after the call. *)
Definition Next (env : collaborators) (p : paginator)
    : W (paginator * option error) :=
  pv ← liftR (GetPaginatorParamValue env (paramSet p) (params p)
                (currentPage p) (page p));
  match pv with
  | inr e => mret (p, Some (EWrap (WPaginatorValues (page p)) e))
  | inl paginatorValues =>
      (* the error of the insertion is wrapped and then overwritten *)
      let '(args', _) :=
        InsertPaginatorParamValues env (paramSet p) (params p) (args p)
          paginatorValues in
      '(ret, ignoreFirstRequest, ok, err) ← executeOnce env p args';
      let p1 := with_fetched ok ret p in
      match err with
      | Some e =>
          if negb ignoreFirstRequest
          then mret (p1, Some (EWrap (WPage (page p1)) e))
          else
            '(ret, _, ok, err) ← executeOnce env p1 args';
            let p2 := with_fetched ok ret p1 in
            match err with
            | Some e => mret (p2, Some (EWrap (WPageIgnoredFirst (page p2)) e))
            | None => advance p2
            end
      | None => advance p1
      end
  end.

(** [reflect.AppendSlice]. *)
Definition AppendSlice (s u : value) : result value :=
  match s, u with
  | VSlice e xs, VSlice e' ys =>
      if bool_decide (e = e') then Ret (VSlice e (xs ++ ys))
      else Panic "reflect.AppendSlice: type mismatch"
  | _, _ => Panic "reflect.AppendSlice: not a slice"
  end.

Definition mergeable (p : paginator) : result bool :=
  Type_Implements (Some (returnType p)) (Some MergeableT).

Definition merge (env : collaborators) (p : paginator) (pages : value)
    : result (value * option error) :=
  isMergeable ← mergeable p;
  if isMergeable : bool then
    if page p =? 2 then Ret (currentPage p, None)
    else
      _ ← assertType pages MergeableT;
      let '(pages', err) := Merge env pages (Page p) in
      match err with
      | Some e => Ret (pages', Some e)
      | None => Ret (pages', None)
      end
  else
    pages' ← AppendSlice pages (Page p);
    Ret (pages', None).

(** The loop of [All]; [None] when [fuel] iterations were not enough. *)
Fixpoint AllLoop (env : collaborators) (fuel : nat) (p : paginator) (pages : value)
    : W (option (paginator * value * option error)) :=
  match fuel with
  | O => mret None
  | S fuel' =>
      continue ← liftR (Continue env p);
      if continue : bool then
        '(p', err) ← Next env p;
        match err with
        | Some e => mret (Some (p', pages, Some e))
        | None =>
            '(pages', err) ← liftR (merge env p' pages);
            match err with
            | Some e => mret (Some (p', pages', Some e))
            | None => AllLoop env fuel' p' pages'
            end
        end
      else mret (Some (p, pages, None))
  end.

Definition All (env : collaborators) (fuel : nat) (p : paginator)
    : W (option (paginator * value * option error)) :=
  AllLoop env fuel p (zeroValue (returnType p)).

(** *** The two constructors *)

Definition NewTypedPaginator (env : collaborators) (RetT : rtype) (waitTime : Z)
    (args : list value) : option paginator :=
  if negb (binding_Paginated env) then None
  else
    let params := binding_Params env in
    let paramSet := checkPaginatorParams params in
    if bool_decide (paramSet = unknownParamSet) then None
    else
      let p := mkPaginator (isRateLimited env) params paramSet None waitTime
                 args RetT 1 (zeroValue RetT) in
      match Type_Implements (Some RetT) (Some MergeableT) with
      | Ret true => Some p
      | _ =>
          match kindOf RetT with
          | KSlice | KArray => Some p
          | _ => None
          end
      end.

(** [NewPaginator]: the field [currentPage] has type [any] and starts as
    the nil interface; [returnType] is that of the wrapped binding. *)
Definition NewPaginator (env : collaborators) (returnType : rtype) (waitTime : Z)
    (args : list value) : option paginator :=
  if negb (binding_Paginated env) then None
  else
    let params := binding_Params env in
    let paramSet := checkPaginatorParams params in
    if bool_decide (paramSet = unknownParamSet) then None
    else
      let p := mkPaginator (isRateLimited env) params paramSet None waitTime
                 args returnType 1 VNil in
      match Type_Implements (Some returnType) (Some MergeableT) with
      | Ret true => Some p
      | _ =>
          match kindOf returnType with
          | KSlice | KArray => Some p
          | _ => None
          end
      end.

(** ** api.go: BindingWrapper and API *)

(** The struct [BindingWrapper]; its fields are [name], [responseType],
    [returnType] and [binding].  [binding] is the [reflect.Value] of the
    interface value, kept as the address it points to; the two types are
    those of the zero values of [ResT] and [RetT], nil for an interface
    type. *)
Record BindingWrapper := mkWrapper {
  bw_name : string;
  bw_responseType : option rtype;
  bw_returnType : option rtype;
  bw_binding : loc;
}.

(** [reflect.Value.Call]: an argument that is the zero [reflect.Value],
    which is what [reflect.ValueOf(nil)] returns, makes the call panic. *)
Definition Call {A} (arguments : list value) (method : result A) : result A :=
  if existsb isZeroValue arguments
  then Panic "reflect: Call using zero Value argument"
  else method.

(** [reflect.ValueOf(client)] for the first argument of [Execute]. *)
Definition clientValue (client : option Client) : value :=
  match client with
  | None => VNil
  | Some _ => VStruct "api.Client" ["Run"] [] []
  end.

Definition bw_Name (bw : BindingWrapper) : string := bw_name bw.

Definition bw_bindingName (bw : BindingWrapper) (σ : store) : result string :=
  Call [] (b ← deref σ (bw_binding bw); Ret (Name b)).

Definition bw_Paginated (bw : BindingWrapper) (σ : store) : result bool :=
  Call [] (b ← deref σ (bw_binding bw); Ret (Paginated b)).

Definition bw_Params (bw : BindingWrapper) (σ : store)
    : result (list BindingParam) :=
  Call [] (b ← deref σ (bw_binding bw); Params_ b σ).

Definition bw_ArgsFromStrings (sprintfQ : string -> string)
    (unmarshal : string -> rtype -> value + error) (bw : BindingWrapper) (σ : store) (args : list string)
    : result (list value * option error) :=
  Call (VString <$> args)
    (b ← deref σ (bw_binding bw); ArgsFromStrings sprintfQ unmarshal b σ args).

(** [BindingWrapper.Execute]: the client and the arguments go through
    [reflect.ValueOf] and [Call]. *)
Definition bw_Execute (bw : BindingWrapper) (client : option Client)
    (args : list value) (σ : store) : result ((value * option error) * store) :=
  let arguments := [clientValue client] ++ args in
  Call arguments (b ← deref σ (bw_binding bw); Execute b client args σ).

(** [WrapBinding]: the name is read from [binding.Name()] when the wrapper
    is made. *)
Definition WrapBinding (binding : loc) (σ : store) : result BindingWrapper :=
  b ← deref σ binding;
  Ret (mkWrapper (Name b) (TypeOf (zeroValue (ResT b)))
         (TypeOf (zeroValue (RetT b))) binding).

(** [NewWrappedBinding]: the interface value that [b.SetName(name)]
    returns is dropped, and [b] itself is wrapped. *)
Definition NewWrappedBinding (resT retT : rtype) (name : string)
    (request : option BindingRequestMethod)
    (wrap : option BindingResponseWrapperMethod)
    (unwrap : option BindingResponseUnwrappedMethod)
    (response : option BindingResponseMethod)
    (params : option BindingParamsMethod)
    (paginated : bool) (attrs : list Attr) (σ : store)
    : result (BindingWrapper * store) :=
  let '(b, σ1) :=
    NewBinding resT retT request wrap unwrap response params paginated attrs σ in
  proto ← deref σ1 b;
  let '(_, σ2) := SetName proto name σ1 in
  bw ← WrapBinding b σ2;
  Ret (bw, σ2).

(** [Schema], a Go map from names to wrappers. *)
Definition Schema : Type := gmap string BindingWrapper.

Record API := mkAPI {
  api_Client : option Client;
  schema : Schema;
}.

(** [NewAPI].  The loop [for bindingName, bindingWrapper := range schema]
    assigns the key to the field [name] of its iteration variable, a copy
    of the map's element: the map is stored as it was given. *)
Definition NewAPI (client : option Client) (schema : Schema) : API :=
  mkAPI client schema.

(** [API.Binding]: the wrapper, or the zero wrapper, and the flag. *)
Definition zeroWrapper : BindingWrapper := mkWrapper "" None None 0%nat.

Definition API_Binding (api : API) (name : string) : BindingWrapper * bool :=
  match schema api !! name with
  | Some binding => (binding, true)
  | None => (zeroWrapper, false)
  end.

(** The errors of [API]: its own, or one that the binding returned. *)
Inductive apiError :=
| ENoBinding (name : string)  (* could not find Binding for action %q *)
| EBinding (e : error).

Definition checkBindingExists (api : API) (name : string)
    : BindingWrapper * option apiError :=
  let '(binding, ok) := API_Binding api name in
  if negb ok then (binding, Some (ENoBinding name)) else (binding, None).

Definition API_ArgsFromStrings (sprintfQ : string -> string)
    (unmarshal : string -> rtype -> value + error) (api : API) (name : string) (args : list string) (σ : store)
    : result (list value * option apiError) :=
  let '(binding, err) := checkBindingExists api name in
  match err return result (list value * option apiError) with
  | Some e => Ret ([], Some e)
  | None =>
      '(parsedArgs, err) ← bw_ArgsFromStrings sprintfQ unmarshal binding σ args;
      Ret (parsedArgs, option_map EBinding err)
  end.

Definition API_Execute (api : API) (name : string) (args : list value)
    (σ : store) : result ((value * option apiError) * store) :=
  let '(binding, err) := checkBindingExists api name in
  match err return result ((value * option apiError) * store) with
  | Some e => Ret ((VNil, Some e), σ)
  | None =>
      '((val, err), σ') ← bw_Execute binding (api_Client api) args σ;
      Ret ((val, option_map EBinding err), σ')
  end.

(** *** Pages and Until of the typed paginator *)

(** The loop of [Pages], [for p.Continue() && p.page <= pageNo]; [None]
    when [fuel] iterations were not enough. *)
Fixpoint PagesLoop (env : collaborators) (fuel : nat) (pageNo : Z)
    (p : paginator) (pages : value)
    : W (option (paginator * value * option error)) :=
  match fuel with
  | O => mret None
  | S fuel' =>
      continue ← liftR (Continue env p);
      if (continue : bool) && (page p <=? pageNo) then
        '(p', err) ← Next env p;
        match err with
        | Some e => mret (Some (p', pages, Some e))
        | None =>
            '(pages', err) ← liftR (merge env p' pages);
            match err with
            | Some e => mret (Some (p', pages', Some e))
            | None => PagesLoop env fuel' pageNo p' pages'
            end
        end
      else mret (Some (p, pages, None))
  end.

Definition Pages (env : collaborators) (fuel : nat) (pageNo : Z) (p : paginator)
    : W (option (paginator * value * option error)) :=
  PagesLoop env fuel pageNo p (zeroValue (returnType p)).

(** The loop of [Until], [for p.Continue() && predicate(p, pages)].  The
    predicate is taken to read the paginator and the pages without calling
    the paginator's methods. *)
Fixpoint UntilLoop (env : collaborators) (fuel : nat)
    (predicate : paginator -> value -> bool) (p : paginator) (pages : value)
    : W (option (paginator * value * option error)) :=
  match fuel with
  | O => mret None
  | S fuel' =>
      continue ← liftR (Continue env p);
      if (continue : bool) && predicate p pages then
        '(p', err) ← Next env p;
        match err with
        | Some e => mret (Some (p', pages, Some e))
        | None =>
            '(pages', err) ← liftR (merge env p' pages);
            match err with
            | Some e => mret (Some (p', pages', Some e))
            | None => UntilLoop env fuel' predicate p' pages'
            end
        end
      else mret (Some (p, pages, None))
  end.

Definition Until (env : collaborators) (fuel : nat)
    (predicate : paginator -> value -> bool) (p : paginator)
    : W (option (paginator * value * option error)) :=
  UntilLoop env fuel predicate p (zeroValue (returnType p)).

(** ** Sample inputs *)

Definition intParam (n : string) (req : bool) : BindingParam :=
  mkParam n false req (VInt 0) (Some TInt) false.

(** [ReqParam("a", 0), ReqParam("a", 0)]: two params of the same name. *)
Definition dupParams : list BindingParam := [intParam "a" true; intParam "a" true].

(** [Param("a", 0), ReqParam("b", 0)]: a required param after an optional
    one. *)
Definition optThenReq : list BindingParam := [intParam "a" false; intParam "b" true].

(** [NewBindingChain[bool, bool](request).SetParamsMethod(...)] in the empty
    store, as in TestBindingProto_TypeCheckArgs: the struct the returned
    interface value points to, and the store. *)
Definition chainWithParams (params : list BindingParam)
    : result (bindingProto * store) :=
  let '(p, σ) := NewBindingChain TBool TBool (Some (fun _ _ => VNil)) emptyStore in
  b ← deref σ p;
  '(q, σ') ← SetParamsMethod b (Some (fun _ => params)) σ;
  b' ← deref σ' q;
  Ret (b', σ').

Definition dupBinding : result (bindingProto * store) := chainWithParams dupParams.

(** ** Notions used to state the properties *)

(** The invariant of a single param (§3 of the specification): a variadic
    param is not required, and its declared type is a sequence type. *)
Definition wfParam (p : BindingParam) : bool :=
  if variadic p
  then negb (required p)
       && match Type_Elem (Type_ p) with Ret _ => true | Panic _ => false end
  else true.

(** The closure [typeCheck] lets [arg] pass for [param]. *)
Definition accepts (param : BindingParam) (arg : value) : bool :=
  match typeCheck param arg with
  | Ret (_, pass) => pass
  | Panic _ => false
  end.

(** Every argument has the type of the slot it lands in; arguments past
    the end of a schema without variadic tail are never looked at. *)
Fixpoint wellTyped (params : list BindingParam) (args : list value) : bool :=
  match params, args with
  | param :: rest, arg :: args' =>
      if variadic param then forallb (accepts param) args
      else accepts param arg && wellTyped rest args'
  | _, _ => true
  end.

(** In the words of the specification, without the closure: [ty]
    implements the interface [iface] when every method of the interface is
    in the method set of [ty]. *)
Definition implements (ty iface : rtype) : bool :=
  match iface with
  | TInterface _ ms => forallb (fun m => bool_decide (m ∈ methodSet ty)) ms
  | _ => false
  end.

(** The element type of a declared sequence type. *)
Definition elemTypeOf (declared : rtype) : option rtype :=
  match declared with
  | TSlice e | TArray _ e => Some e
  | _ => None
  end.

(** [arg] is a value of the declared type of [param]: its dynamic type
    implements the declared interface when the param is declared with one;
    it is the element type of the declared sequence type when the param is
    variadic; it is the declared type otherwise.  A nil argument has no
    type, and a param without a type has no values. *)
Definition ofDeclaredType (param : BindingParam) (arg : value) : bool :=
  match TypeOf arg, Type_ param with
  | Some ty, Some declared =>
      if interfaceFlag param then implements ty declared
      else if variadic param then bool_decide (elemTypeOf declared = Some ty)
      else bool_decide (ty = declared)
  | _, _ => false
  end.

(** Every argument is a value of the declared type of its slot, the
    arguments from the variadic slot on being those of the variadic
    param. *)
Fixpoint conforms (params : list BindingParam) (args : list value) : bool :=
  match params, args with
  | param :: rest, arg :: args' =>
      if variadic param then forallb (ofDeclaredType param) args
      else ofDeclaredType param arg && conforms rest args'
  | _, _ => true
  end.

(** Every required param has an argument. *)
Fixpoint suppliesRequired (params : list BindingParam) (args : list value) : bool :=
  match params with
  | [] => true
  | param :: rest =>
      match args with
      | [] => negb (required param) && suppliesRequired rest []
      | _ :: args' => suppliesRequired rest args'
      end
  end.

(** The normalized argument list in the words of the specification: the
    argument of each fixed slot, the declared default where a fixed slot
    has no argument, and the arguments of the variadic tail as they are. *)
Fixpoint normalize (params : list BindingParam) (args : list value) : list value :=
  match params with
  | [] => []
  | param :: rest =>
      if variadic param then args
      else
        match args with
        | [] => defaultValue param :: normalize rest []
        | arg :: args' => arg :: normalize rest args'
        end
  end.

(** A variadic param, if any, is the last one. *)
Definition variadicLast (params : list BindingParam) : Prop :=
  forall j p, params !! j = Some p -> variadic p = true -> S j = length params.

(** [(a required, b optional = 1, c variadic []int)], the schema of §8. *)
Definition schemaABC : list BindingParam :=
  [ mkParam "a" false true (VInt 0) (Some TInt) false;
    mkParam "b" false false (VInt 1) (Some TInt) false;
    mkParam "c" true false (VSlice TInt []) (Some (TSlice TInt)) false ].

Definition bindingABC : result (bindingProto * store) := chainWithParams schemaABC.

(** [(a required, s optional fmt.Stringer = nil)]: the second param is
    declared with an interface, as [Param] makes it from a nil pointer to
    the interface. *)
Definition stringerT : rtype := TInterface "fmt.Stringer" ["String"].

Definition schemaStringer : list BindingParam :=
  [ mkParam "a" false true (VInt 0) (Some TInt) false;
    mkParam "s" false false VNil (Some stringerT) true ].

Definition bindingStringer : result (bindingProto * store) :=
  chainWithParams schemaStringer.

(** A struct with a [String] method, and one without methods. *)
Definition aStringer : value := VStruct "Celsius" ["String"] [] [VInt 21].
Definition noStringer : value := VStruct "Point" [] [] [VInt 1; VInt 2].

(** [NewBindingChain[bool, bool](request)] alone: no params method. *)
Definition bareBinding : bindingProto * store :=
  let '(p, σ) := NewBindingChain TBool TBool (Some (fun _ _ => VNil)) emptyStore in
  (default (mkProto TBool TBool None None None None None false None false ""
              false 0%nat []) (protos σ !! p), σ).

(** A request method that answers with the number of arguments it was
    handed, and a client that leaves in the container whether the request
    it was given is that of zero arguments. *)
Definition countArgs : BindingRequestMethod :=
  fun _ args => VInt (Z.of_nat (length args)).

Definition probeClient : Client :=
  mkClient (fun _ _ req _ =>
    (VPtr TBool (Some (VBool (match req with VInt 0 => true | _ => false end))),
     None)).

(** [NewBindingChain[bool, bool](countArgs)]. *)
Definition countingBinding : bindingProto * store :=
  let '(p, σ) := NewBindingChain TBool TBool (Some countArgs) emptyStore in
  (default (mkProto TBool TBool None None None None None false None false ""
              false 0%nat []) (protos σ !! p), σ).

(** The struct and the store of a sample built in the result monad. *)
Definition sampleOf (r : result (bindingProto * store)) : bindingProto * store :=
  match r with
  | Ret x => x
  | Panic _ => bareBinding
  end.

Definition protoABC : bindingProto := (sampleOf bindingABC).1.
Definition storeABC : store := (sampleOf bindingABC).2.

(** The address [NewBindingChain] returned for [bareBinding]. *)
Definition bareLoc : loc :=
  (NewBindingChain TBool TBool (Some (fun _ _ => VNil)) emptyStore).1.

(** An attribute that needs no client. *)
Definition attrK : Attr := fun _ => Ret ("k", VInt 1).

(** A setter called on the binding [b] at address [p] of [σ] returned
    [r]: a cell other than [p] that holds [b'], in a store whose other
    cells, [p] among them, are those of [σ]. *)
Definition snapshot (σ : store) (p : loc) (b : bindingProto)
    (r : loc * store) (b' : bindingProto) : Prop :=
  r.1 <> p
  /\ protos r.2 !! p = Some b
  /\ protos r.2 !! r.1 = Some b'
  /\ forall p0, p0 <> r.1 -> protos r.2 !! p0 = protos σ !! p0.

(** [slices.AddElems(slice, value, index)] taken as insertion at the
    index, for the sample collaborators. *)
Definition insertAt (slice elems : list value) (i : nat) : list value :=
  take i slice ++ elems ++ drop i slice.

(** The number of [Execute] calls among events. *)
Fixpoint countExec (evs : list event) : nat :=
  match evs with
  | [] => 0
  | EvExecute _ :: evs' => S (countExec evs')
  | _ :: evs' => countExec evs'
  end.

(** What happened between the worlds [w] and [w']. *)
Definition newEvents (w w' : world) : list event :=
  drop (length (trace w)) (trace w').

(** The oracle's answer is no limit at all, or a limit whose reset time is
    not after [now]. *)
Definition noLiveLimit (rl : option RateLimit) (now : Z) : Prop :=
  match rl with
  | None => True
  | Some r => Reset r <= now
  end.

(** The world in which the comparison with the reset time was made: the
    clock is read for it only when the oracle returned a limit. *)
Definition readAgainst (env : collaborators) (rl : option RateLimit) (w : world)
    : world :=
  match rl with
  | Some _ => (now env 0 w).2
  | None => w
  end.

(** The arguments [Next] executes the binding with on this page: what the
    insertion of the paginator values returned, its error apart. *)
Definition pageArgs (env : collaborators) (p : paginator)
    (pv : gmap string value) : list value :=
  (InsertPaginatorParamValues env (paramSet p) (params p) (args p) pv).1.

(** The rate-limit check as the closure [execute] of [Next] calls it for
    the paginator [p]. *)
Definition checkBefore (env : collaborators) (p : paginator)
    : W (bool * bool * option error) :=
  paginatorCheckRateLimit env (waitTime p) (binding_Name env)
    (Some (limitArg p)) (page p) (currentPage p) (params p) (args p).

(** A computation that never calls [Execute]. *)
Definition quiet {A} (m : W A) : Prop :=
  forall w, exists evs, trace (m w).2 = trace w ++ evs /\ countExec evs = 0%nat.

(** A binding with the params [(page int = 1, limit int = 10)]. *)
Definition pageLimitParams : list BindingParam :=
  [ mkParam "page" false false (VInt 1) (Some TInt) false;
    mkParam "limit" false false (VInt 10) (Some TInt) false ].

(** A rate-limited client whose oracle always reports [rl], with a binding
    named items whose [Execute] always returns [answer]; no time goes by
    between two readings of the clock. *)
Definition sampleEnv (rl : option RateLimit) (answer : value * option error)
    : collaborators :=
  mkCollaborators true (fun _ _ => rl) "items" true pageLimitParams
    (fun _ _ => answer) (fun _ => false) (fun a _ => (a, None)) (fun v => v)
    insertAt (fun _ _ => 0).

(** A resource limit of 5 remaining that resets at instant 100. *)
Definition envResource : collaborators :=
  sampleEnv (Some (mkRateLimit 100 5 0 ResourceRateLimit)) (VSlice TInt [], None).

(** A request limit that expired at instant 0, and a failing binding. *)
Definition envExpired : collaborators :=
  sampleEnv (Some (mkRateLimit 0 5 0 RequestRateLimit))
    (VSlice TInt [], Some (EExternal "boom")).

Definition world0 : world := mkWorld 0 [].
Definition world10 : world := mkWorld 10 [].

(** The fresh paginators of the two constructors over these samples. *)
Definition typedPag (env : collaborators) : paginator :=
  mkPaginator (isRateLimited env) (binding_Params env) pageParamSet None 0 []
    (TSlice TInt) 1 (VSlice TInt []).

Definition untypedPag (env : collaborators) : paginator :=
  mkPaginator (isRateLimited env) (binding_Params env) pageParamSet None 0 []
    (TSlice TInt) 1 VNil.

(** A binding that is not rate limited and serves the pages [(1, 2)],
    [(3)] and then empty pages. *)
Definition envPages : collaborators :=
  mkCollaborators false (fun _ _ => None) "items" true pageLimitParams
    (fun _ w =>
       match countExec (trace w) with
       | 0%nat => (VSlice TInt [VInt 1; VInt 2], None)
       | 1%nat => (VSlice TInt [VInt 3], None)
       | _ => (VSlice TInt [], None)
       end)
    (fun _ => false) (fun a _ => (a, None)) (fun v => v) insertAt
    (fun _ _ => 0).

(** The typed paginator over [envPages] with page counter [n] and current
    page [cur], and the world after [k] of its three fetches. *)
Definition pagAt (n : Z) (cur : list value) : paginator :=
  mkPaginator false pageLimitParams pageParamSet None 0 [] (TSlice TInt) n
    (VSlice TInt cur).

Definition worldAt (k : nat) : world :=
  mkWorld 0 (take k [EvExecute [VInt 1]; EvExecute [VInt 2]; EvExecute [VInt 3]]).

(** [fetches env e p w pages p' w']: starting from the paginator [p] in the
    world [w], successive calls of [Next] succeed and fetch the non-empty
    pages [pages], slices of element type [e], in this order, and leave
    the paginator [p'] in the world [w']. *)
Inductive fetches (env : collaborators) (e : rtype)
    : paginator -> world -> list (list value) -> paginator -> world -> Prop :=
| fetches_nil p w : fetches env e p w [] p w
| fetches_cons p w p1 w1 xs pages p' w' :
    Next env p w = (Ret (p1, None), w1) ->
    currentPage p1 = VSlice e xs ->
    xs <> [] ->
    fetches env e p1 w1 pages p' w' ->
    fetches env e p w (xs :: pages) p' w'.

(** No binding in the heap holds a cached structural error. *)
Definition noCachedError (σ : store) : Prop :=
  forall p b, protos σ !! p = Some b -> paramErr b = None.

(** ** Notions used to state the further properties *)

(** A param is not both variadic and required. *)
Definition flagsExclusive (p : BindingParam) : Prop :=
  variadic p = true -> required p = false.

(** What the loop of [Params] keeps true of its variables: the params
    appended so far have exclusive flags, the binding under construction
    has no flag set, and while the parser waits for the flags of the param
    appended last (slots 2 and 3) that param is not variadic yet. *)
Definition parserInv (st : parser) : Prop :=
  Forall flagsExclusive (bindingParams st)
  /\ variadic (currentBinding st) = false
  /\ required (currentBinding st) = false
  /\ (skipUntilName st = true -> currentBindingArg st = 0)
  /\ (currentBindingArg st = 0 \/ currentBindingArg st = 1
      \/ ((currentBindingArg st = 2 \/ currentBindingArg st = 3)
          /\ exists ps lastP, bindingParams st = ps ++ [lastP]
                              /\ variadic lastP = false)).

(** The arguments a started tuple has consumed without appending a param
    yet. *)
Definition pendingArgs (st : parser) : nat :=
  if currentBindingArg st =? 1 then 1%nat else 0%nat.

(** The optional flags of a tuple of the notation. *)
Inductive tupleFlags :=
| NoFlags
| RequiredFlag (r : bool)
| RequiredVariadicFlags (r v : bool).

(** A tuple [(name, value, [required], [variadic])]. *)
Record tuple := mkTuple {
  tname : string;
  tvalue : value;
  tflags : tupleFlags;
}.

(** The arguments a tuple is written as. *)
Definition tupleArgs (tu : tuple) : list value :=
  VString (tname tu) :: tvalue tu ::
  match tflags tu with
  | NoFlags => []
  | RequiredFlag r => [VBool r]
  | RequiredVariadicFlags r v => [VBool r; VBool v]
  end.

(** The param a tuple stands for, when its value has a type. *)
Definition tupleParam (tu : tuple) : option BindingParam :=
  match getReflectType (tvalue tu) with
  | Ret (Some ty, iflag, defV) =>
      Some (match tflags tu with
            | NoFlags => mkParam (tname tu) false false defV (Some ty) iflag
            | RequiredFlag r => mkParam (tname tu) false r defV (Some ty) iflag
            | RequiredVariadicFlags r v =>
                mkParam (tname tu) v (if v then false else r) defV (Some ty) iflag
            end)
  | _ => None
  end.

(** The parser is between two tuples: it is not skipping, and it either
    waits for a name with a blank binding or for the optional flags of the
    param appended last. *)
Definition betweenTuples (st : parser) : Prop :=
  skipUntilName st = false
  /\ ((currentBindingArg st = 0 /\ currentBinding st = emptyParam)
      \/ currentBindingArg st = 2 \/ currentBindingArg st = 3).

(** The default value of a variadic param that [checkParams] lets pass: an
    empty slice or array. *)
Definition emptySequence (v : value) : Prop :=
  exists e, v = VSlice e [] \/ v = VArray e [].

(** A schema in the documented order: required params, then optional
    non-variadic ones, then at most one non-required variadic param. *)
Definition orderedSchema (reqs opts tail : list BindingParam) : Prop :=
  Forall (fun p => required p = true) reqs
  /\ Forall (fun p => required p = false /\ variadic p = false) opts
  /\ (tail = []
      \/ exists v, tail = [v] /\ required v = false /\ variadic v = true
                   /\ emptySequence (defaultValue v)).

(** No param of the list is variadic. *)
Definition fixedParams (params : list BindingParam) : Prop :=
  Forall (fun p => variadic p = false) params.

(** The attribute function [attr], called with [client], returns the key
    [k]. *)
Definition writesKey (client : option Client) (k : string) (attr : Attr) : bool :=
  match attr client with
  | Ret (k', _) => bool_decide (k' = k)
  | Panic _ => false
  end.

(** A client that leaves the response container as it is. *)
Definition echoClient : Client := mkClient (fun _ _ _ res => (res, None)).

(** An attribute that needs the client. *)
Definition attrNeedsClient : Attr := fun c =>
  match c with
  | Some _ => Ret ("k", VInt 2)
  | None => Panic "nil pointer dereference"
  end.

(** The text that [ArgsFromStrings] hands to [json.Unmarshal] for a param
    of type [ty]: for a param of kind string it is what [sprintfQ] makes of
    the argument, for any other the argument itself. *)
Definition jsonText (sprintfQ : string -> string) (ty : rtype) (arg : string)
    : string :=
  if bool_decide (kindOf ty = KString) then sprintfQ arg else arg.

(** What the verb q makes of a string of printable ASCII characters: the
    double quote and the backslash are escaped with a backslash, the string
    is put between double quotes.  For the samples. *)
Fixpoint escapeASCII (s : string) : string :=
  match s with
  | EmptyString => EmptyString
  | String c rest =>
      let n := Ascii.nat_of_ascii c in
      if (n =? 34)%nat || (n =? 92)%nat
      then String (Ascii.ascii_of_nat 92) (String c (escapeASCII rest))
      else String c (escapeASCII rest)
  end.

Definition quoteASCII (s : string) : string :=
  let dq := String (Ascii.ascii_of_nat 34) EmptyString in
  dq +:+ escapeASCII s +:+ dq.

(** A JSON decoder for the samples: numbers are not parsed, every text
    decodes to the zero value of the type asked for. *)
Definition zeroUnmarshal : string -> rtype -> value + error :=
  fun _ ty => inl (zeroValue ty).

(** What the rate-limit check does when the oracle has no limit to report:
    the first call, then three rounds of log, sleep and call. *)
Definition oracleRetries (bindingName : string) (waitTime : Z) : list event :=
  EvLatestRateLimit bindingName
  :: concat (replicate 3 [EvLog; EvSleep waitTime; EvLatestRateLimit bindingName]).

(** A binding with the params [(id int, page int = 1)], the first one
    required. *)
Definition idPageParams : list BindingParam :=
  [ mkParam "id" false true (VInt 0) (Some TInt) false;
    mkParam "page" false false (VInt 1) (Some TInt) false ].

(** A client that is not rate limited, with a binding over [idPageParams]
    that always answers [(1)]. *)
Definition envPlain : collaborators :=
  mkCollaborators false (fun _ _ => None) "items" true idPageParams
    (fun _ _ => (VSlice TInt [VInt 1], None))
    (fun _ => false) (fun a _ => (a, None)) (fun v => v) insertAt
    (fun _ _ => 0).

(** A fresh typed paginator over [envPlain], made without arguments. *)
Definition plainPag : paginator :=
  mkPaginator false idPageParams pageParamSet None 0 [] (TSlice TInt) 1
    (VSlice TInt []).

(** A request limit with nothing remaining that resets at instant 100,
    and a clock on which 20 units have gone by at the first reading of a
    check and 5 more at each later one. *)
Definition envSlow : collaborators :=
  mkCollaborators true
    (fun _ _ => Some (mkRateLimit 100 0 5 RequestRateLimit)) "items" true
    pageLimitParams (fun _ _ => (VSlice TInt [], None)) (fun _ => false)
    (fun a _ => (a, None)) (fun v => v) insertAt
    (fun site _ => match site with 0%nat => 20 | _ => 5 end).

(** A rate-limited client whose oracle has no limit to report. *)
Definition envSilent : collaborators := sampleEnv None (VSlice TInt [], None).

(** The binding of [bareBinding] with the two attributes k. *)
Definition protoAttrs : bindingProto :=
  with_attrFuncs [attrK; attrNeedsClient] bareBinding.1.

(** * Properties *)

(** The test table of TestParams, rows 1, 9 and 10. *)
Example Params_boardIds :
  Params [VString "boardIds"; VSlice TInt []; VBool false; VBool true]
  = Ret [mkParam "boardIds" true false (VSlice TInt []) (Some (TSlice TInt)) false].
Proof. reflexivity. Qed.

Example Params_dangling_name :
  Params [VString "a"; VString ""; VBool true; VString "b"]
  = Ret [mkParam "a" false true (VString "") (Some TString) false].
Proof. reflexivity. Qed.

Example Params_string_default :
  Params [VString "a"; VString "b"; VString "c"]
  = Ret [mkParam "a" false false (VString "b") (Some TString) false].
Proof. reflexivity. Qed.

(** ** The notation parser *)

(** C10. In [Params], a boolean met in slot 3 sets the variadic flag of the
    param appended last, and a true flag clears its required flag; the
    tuple then closes.  [Params("x", []int{}, false, true)] is the single
    param x: variadic, not required, with the empty []int as its default. *)
Theorem Params_slot3_sets_variadic :
  (forall (ps : list BindingParam) (lastP cb : BindingParam) (b : bool),
      paramsStep (mkParser (ps ++ [lastP]) cb 3 false) (VBool b)
      = Ret (mkParser
               (ps ++ [mkParam (name lastP) b
                         (if b then false else required lastP)
                         (defaultValue lastP) (t lastP) (interfaceFlag lastP)])
               emptyParam 0 false))
  /\ Params [VString "x"; VSlice TInt []; VBool false; VBool true]
     = Ret [mkParam "x" true false (VSlice TInt []) (Some (TSlice TInt)) false].
Proof.
  split; [| reflexivity].
  intros ps lastP cb b.
  unfold paramsStep; cbn.
  unfold updLast. rewrite last_snoc, removelast_last; cbn.
  destruct b; reflexivity.
Qed.

(** ** The structural check *)

(** C4, evaluated where the code departs from it: the list
    [Param("a", 0), ReqParam("b", 0)] has a required param after a
    non-required one, and [checkParams] reports no error for it. *)
Theorem checkParams_misses_required_after_optional :
  (exists pa pb, optThenReq !! 0%nat = Some pa /\ required pa = false
                 /\ optThenReq !! 1%nat = Some pb /\ required pb = true)
  /\ checkParams optThenReq = Ret None.
Proof.
  split; [| vm_compute; reflexivity].
  exists (intParam "a" false), (intParam "b" true). repeat split.
Qed.

(** The same list with one more optional param in front is rejected: the
    check misses only a required run that starts at index 1. *)
Example checkParams_catches_later_required :
  checkParams [intParam "z" false; intParam "a" false; intParam "b" true]
  = Ret (Some (ERequiredAfterOptional "b" 2)).
Proof. vm_compute; reflexivity. Qed.

(** C1, evaluated where the code departs from it: the params method of
    [dupBinding] returns two params named a, which [checkParams] rejects;
    yet the binding holds no cached error, [TypeCheckArgs] answers with a
    validation error or with success, and [Execute] wraps the validation
    error. *)
Theorem schema_error_is_never_cached :
  checkParams dupParams = Ret (Some (ESameName "a" 1 0))
  /\ exists b σ, dupBinding = Ret (b, σ)
     /\ paramErr b = None /\ checkedParams b = false
     /\ TypeCheckArgs b σ [] = Ret ([], Some (ERequiredNotProvided "a" 0))
     /\ TypeCheckArgs b σ [VInt 1; VInt 2] = Ret ([VInt 1; VInt 2], None)
     /\ Execute b None [] σ
        = Ret ((VBool false, Some (EWrap WTypeCheck (ERequiredNotProvided "a" 0))), σ)
     /\ forall sprintfQ unmarshal,
         ArgsFromStrings sprintfQ unmarshal b σ [] = Ret ([], None).
Proof.
  split; [vm_compute; reflexivity |].
  eexists _, _. split; [vm_compute; reflexivity |].
  repeat split; try (vm_compute; reflexivity).
Qed.

(** More generally, an error of [TypeCheckArgs] on a binding without
    cached error is always a validation error. *)
Lemma checkVariadic_error (param : BindingParam) (e : rtype) :
  forall rest j acc out err,
    checkVariadic param e j rest acc = Ret (out, Some err) ->
    is_validation_error err = true.
Proof.
  induction rest as [| a rest IH]; intros j acc out err H; cbn in H; [discriminate |].
  destruct (typeCheck param a) as [[ty pass] |]; cbn in H; [| discriminate].
  destruct pass; cbn in H; [by eapply IH |].
  by injection H as <- <-.
Qed.

Lemma typeCheckLoop_error (args : list value) :
  forall rest i acc out err,
    typeCheckLoop args i rest acc = Ret (out, Some err) ->
    is_validation_error err = true.
Proof.
  induction rest as [| param rest IH]; intros i acc out err H; cbn in H;
    [discriminate |].
  case_bool_decide.
  - destruct (variadic param).
    + destruct (Type_Elem (Type_ param)); cbn in H; [| discriminate].
      by eapply checkVariadic_error.
    + destruct (args !! i) as [a |]; [| discriminate].
      destruct (typeCheck param a) as [[ty pass] |]; cbn in H; [| discriminate].
      destruct pass; cbn in H; [by eapply IH |].
      by injection H as <- <-.
  - destruct (required param); cbn in H; [by injection H as <- <- |].
    destruct (variadic param); cbn in H; by eapply IH.
Qed.

(** X13. On a binding without cached error, every error that [TypeCheckArgs]
    returns is a validation error, a missing required param or a type
    mismatch, and never a structural one. *)
Lemma TypeCheckArgs_only_validation_errors (b : bindingProto) (σ : store)
    (args out : list value) (err : error) :
  paramErr b = None ->
  TypeCheckArgs b σ args = Ret (out, Some err) ->
  is_validation_error err = true /\ is_schema_error err = false.
Proof.
  intros He. unfold TypeCheckArgs.
  destruct (Params_ b σ) as [params |]; cbn; [| discriminate].
  rewrite He. case_bool_decide; [| discriminate].
  intros Hloop. apply typeCheckLoop_error in Hloop.
  split; [done |]. by destruct err.
Qed.

(** ** The argument validator *)

Lemma Value_Len_of_kind (v : value) :
  Value_Kind v = KSlice \/ Value_Kind v = KArray ->
  exists n, Value_Len v = Ret n.
Proof.
  destruct v; cbn; intros [H | H]; try discriminate; eauto.
Qed.

(** [checkParams] never panics. *)
Lemma checkParamsLoop_total (params : list BindingParam) :
  forall len i m lr, exists r, checkParamsLoop len i m lr params = Ret r.
Proof.
  induction params as [| param rest IH]; intros len i m lr; cbn; [eauto |].
  destruct (m !! name param); [eauto |].
  destruct (required param) eqn:Hreq.
  - destruct (lr <=? Z.of_nat i - 2); eauto.
  - destruct (variadic param); [| eauto].
    destruct (negb (Z.of_nat i =? len - 1)); [eauto |].
    destruct (negb (bool_decide (Value_Kind (defaultValue param) = KSlice))
              && negb (bool_decide (Value_Kind (defaultValue param) = KArray)))
      eqn:Hk; [eauto |].
    destruct (Value_Len_of_kind (defaultValue param)) as [n Hn].
    { apply andb_false_iff in Hk as [Hk | Hk]; apply negb_false_iff,
        bool_decide_eq_true in Hk; auto. }
    rewrite Hn; cbn.
    destruct (negb (n =? 0)); eauto.
Qed.

Lemma checkParams_total (params : list BindingParam) :
  exists r, checkParams params = Ret r.
Proof. apply checkParamsLoop_total. Qed.

(** A list that passes [checkParams] has its non-required variadic param
    at the end. *)
Lemma checkParamsLoop_variadic_last (params : list BindingParam) :
  forall len i m lr,
    checkParamsLoop len i m lr params = Ret None ->
    forall j p, params !! j = Some p -> variadic p = true -> required p = false ->
                Z.of_nat (i + j) = len - 1.
Proof.
  induction params as [| param rest IH]; intros len i m lr Hc j p Hj Hv Hr;
    [discriminate |].
  cbn in Hc.
  destruct (m !! name param); [discriminate |].
  destruct j as [| j]; cbn in Hj.
  - injection Hj as ->. rewrite Hr, Hv in Hc.
    destruct (Z.of_nat i =? len - 1) eqn:E; cbn in Hc; [| discriminate].
    apply Z.eqb_eq in E. lia.
  - assert (Hgo : exists m' lr', checkParamsLoop len (S i) m' lr' rest = Ret None).
    { destruct (required param).
      - destruct (lr <=? Z.of_nat i - 2); [discriminate | eauto].
      - destruct (variadic param); [| eauto].
        destruct (negb (Z.of_nat i =? len - 1)); [discriminate |].
        destruct (_ && _); [discriminate |].
        destruct (Value_Len (defaultValue param)); cbn in Hc; [| discriminate].
        destruct (negb (a =? 0)); [discriminate | eauto]. }
    destruct Hgo as (m' & lr' & Hgo).
    specialize (IH _ _ _ _ Hgo j p Hj Hv Hr). lia.
Qed.

Lemma checkParams_variadicLast (params : list BindingParam) :
  checkParams params = Ret None -> forallb wfParam params = true ->
  variadicLast params.
Proof.
  intros Hc Hwf j p Hj Hv.
  assert (Hr : required p = false).
  { rewrite forallb_forall in Hwf.
    specialize (Hwf p (proj1 (list_elem_of_In _ _) (list_elem_of_lookup_2 _ _ _ Hj))).
    unfold wfParam in Hwf. rewrite Hv in Hwf.
    apply andb_true_iff in Hwf as [Hwf _]. by apply negb_true_iff in Hwf. }
  pose proof (checkParamsLoop_variadic_last _ _ _ _ _ Hc j p Hj Hv Hr). lia.
Qed.

Lemma variadicLast_tail (p : BindingParam) (rest : list BindingParam) :
  variadicLast (p :: rest) -> variadicLast rest.
Proof.
  intros H j q Hj Hv. specialize (H (S j) q Hj Hv). cbn in H. lia.
Qed.

Lemma variadicLast_head (p : BindingParam) (rest : list BindingParam) :
  variadicLast (p :: rest) -> variadic p = true -> rest = [].
Proof.
  intros H Hv. specialize (H 0%nat p eq_refl Hv). cbn in H.
  destruct rest; [done | cbn in H; lia].
Qed.

Lemma checkVariadic_accepts (param : BindingParam) (e : rtype) :
  forall rest j acc,
    forallb (accepts param) rest = true ->
    checkVariadic param e j rest acc = Ret (acc ++ rest, None).
Proof.
  induction rest as [| a rest IH]; intros j acc Hall; cbn.
  - by rewrite app_nil_r.
  - cbn in Hall. apply andb_true_iff in Hall as [Ha Hall].
    unfold accepts in Ha.
    destruct (typeCheck param a) as [[ty pass] |]; [| discriminate].
    cbn. subst pass. cbn. rewrite IH by done. by rewrite <- app_assoc.
Qed.

(** The loop of [TypeCheckArgs] computes [normalize]. *)
Lemma typeCheckLoop_normalize (args : list value) :
  forall rest i acc,
    variadicLast rest ->
    forallb wfParam rest = true ->
    suppliesRequired rest (drop i args) = true ->
    wellTyped rest (drop i args) = true ->
    typeCheckLoop args i rest acc = Ret (acc ++ normalize rest (drop i args), None).
Proof.
  induction rest as [| param rest IH]; intros i acc Hlast Hwf Hsup Hty; cbn.
  { by rewrite app_nil_r. }
  cbn in Hwf. apply andb_true_iff in Hwf as [Hwfp Hwf].
  pose proof (variadicLast_tail _ _ Hlast) as Hlast'.
  case_bool_decide as Hi.
  - destruct (lookup_lt_is_Some_2 args i Hi) as [a Ha].
    rewrite (drop_S _ _ _ Ha) in Hsup, Hty |- *.
    cbn in Hsup, Hty.
    destruct (variadic param) eqn:Hv.
    + unfold wfParam in Hwfp. rewrite Hv in Hwfp.
      apply andb_true_iff in Hwfp as [_ He].
      destruct (Type_Elem (Type_ param)) as [e |]; [| discriminate].
      exact (checkVariadic_accepts param e (a :: drop (S i) args) 0%nat acc Hty).
    + rewrite Ha. apply andb_true_iff in Hty as [Hacc Hty].
      unfold accepts in Hacc.
      destruct (typeCheck param a) as [[ty pass] |]; [| discriminate].
      cbn. subst pass. cbn.
      rewrite IH by done. by rewrite <- app_assoc.
  - assert (Hd : drop i args = []) by (apply drop_ge; lia).
    assert (Hd' : drop (S i) args = []) by (apply drop_ge; lia).
    rewrite Hd in Hsup, Hty |- *. cbn in Hsup.
    apply andb_true_iff in Hsup as [Hreq Hsup].
    apply negb_true_iff in Hreq. rewrite Hreq. cbn.
    destruct (variadic param) eqn:Hv; cbn.
    + rewrite (variadicLast_head _ _ Hlast Hv). cbn. by rewrite app_nil_r.
    + rewrite IH; rewrite ?Hd'; try done.
      * by rewrite <- app_assoc.
      * by destruct rest.
Qed.

Lemma normalize_length (params : list BindingParam) :
  forall args, variadicLast params ->
    length (normalize params args)
    = if existsb variadic params
      then Nat.max (length params - 1) (length args)
      else length params.
Proof.
  induction params as [| p rest IH]; intros args Hlast; [done |].
  cbn. destruct (variadic p) eqn:Hv; cbn.
  - rewrite (variadicLast_head _ _ Hlast Hv). cbn. lia.
  - pose proof (variadicLast_tail _ _ Hlast) as Hlast'.
    assert (Hne : existsb variadic rest = true -> (1 <= length rest)%nat).
    { destruct rest; [discriminate | cbn; lia]. }
    destruct args as [| a args']; cbn; rewrite IH by done;
      destruct (existsb variadic rest); cbn; try specialize (Hne eq_refl); lia.
Qed.

Lemma normalize_fixed_slot (params : list BindingParam) :
  forall args i param, variadicLast params ->
    params !! i = Some param -> variadic param = false ->
    normalize params args !! i = Some (default (defaultValue param) (args !! i)).
Proof.
  induction params as [| p rest IH]; intros args i param Hlast Hi Hv; [done |].
  pose proof (variadicLast_tail _ _ Hlast) as Hlast'.
  destruct i as [| i]; cbn in Hi.
  - injection Hi as ->. cbn. rewrite Hv. by destruct args.
  - cbn. destruct (variadic p) eqn:Hvp.
    + rewrite (variadicLast_head _ _ Hlast Hvp) in Hi. done.
    + destruct args as [| a args']; cbn; by rewrite (IH _ _ _ Hlast' Hi Hv).
Qed.

Lemma normalize_variadic_slot (params : list BindingParam) :
  forall args i param, variadicLast params ->
    params !! i = Some param -> variadic param = true ->
    drop i (normalize params args) = drop i args.
Proof.
  induction params as [| p rest IH]; intros args i param Hlast Hi Hv; [done |].
  pose proof (variadicLast_tail _ _ Hlast) as Hlast'.
  destruct i as [| i]; cbn in Hi.
  - injection Hi as ->. cbn. by rewrite Hv.
  - cbn. destruct (variadic p) eqn:Hvp.
    + rewrite (variadicLast_head _ _ Hlast Hvp) in Hi. done.
    + destruct args as [| a args']; cbn; rewrite (IH _ _ _ Hlast' Hi Hv); [| done].
      by rewrite drop_nil.
Qed.

(** The closure [typeCheck] lets pass every argument that is a value of
    the declared type of the param. *)
Lemma ofDeclaredType_accepts (param : BindingParam) (arg : value) :
  ofDeclaredType param arg = true -> accepts param arg = true.
Proof.
  unfold ofDeclaredType, accepts, typeCheck, Type_Implements, Type_Elem, implements.
  destruct (TypeOf arg) as [ty |]; [| discriminate].
  destruct (Type_ param) as [declared |]; [| discriminate].
  destruct (interfaceFlag param).
  { destruct declared; try discriminate. cbn. done. }
  destruct (variadic param).
  - intros H. apply bool_decide_eq_true in H.
    destruct declared; try discriminate; cbn in H; injection H as ->; cbn;
      by apply bool_decide_eq_true.
  - intros H. apply bool_decide_eq_true in H. subst. cbn.
    by apply bool_decide_eq_true.
Qed.

(** For a param that has a type and is not variadic the closure lets pass
    nothing else. *)
Lemma accepts_ofDeclaredType (param : BindingParam) (declared : rtype)
    (arg : value) :
  Type_ param = Some declared -> variadic param = false ->
  accepts param arg = true -> ofDeclaredType param arg = true.
Proof.
  unfold ofDeclaredType, accepts, typeCheck, Type_Implements, implements.
  intros -> ->.
  destruct (TypeOf arg) as [ty |]; destruct (interfaceFlag param); cbn;
    try discriminate; try (destruct declared; cbn; (discriminate || done)).
  intros H. apply bool_decide_eq_true in H. injection H as ->.
  by apply bool_decide_eq_true.
Qed.

Lemma conforms_wellTyped (params : list BindingParam) :
  forall args, conforms params args = true -> wellTyped params args = true.
Proof.
  induction params as [| param rest IH]; intros xs H; [done |].
  destruct xs as [| arg xs']; [done |]. cbn in H |- *.
  destruct (variadic param).
  - apply andb_true_iff in H as [Ha Hall]. apply andb_true_iff. split.
    + by apply ofDeclaredType_accepts.
    + rewrite forallb_forall in Hall |- *. intros x Hx.
      apply ofDeclaredType_accepts. by apply Hall.
  - apply andb_true_iff in H as [Ha Hrest]. apply andb_true_iff. split.
    + by apply ofDeclaredType_accepts.
    + by apply IH.
Qed.

(** C2 as stated fails on the schema of §8: for the argument list [(5)] the
    schema is valid, the required param is supplied with an int, and the
    normalized list [(5, 1)] is shorter than the schema, because the
    variadic slot without arguments contributes nothing. *)
Lemma TypeCheckArgs_shorter_than_schema :
  checkParams schemaABC = Ret None
  /\ suppliesRequired schemaABC [VInt 5] = true
  /\ conforms schemaABC [VInt 5] = true
  /\ Params_ protoABC storeABC = Ret schemaABC
  /\ TypeCheckArgs protoABC storeABC [VInt 5] = Ret ([VInt 5; VInt 1], None)
  /\ (length [VInt 5; VInt 1] < length schemaABC)%nat.
Proof. repeat split; vm_compute; reflexivity. Qed.

(** C2, amended.  For a binding whose params method returns a list that
    passes [checkParams] and whose params are well formed, and for
    arguments that supply every required param and are values of the
    declared types of their slots (or of types that implement the declared
    interface), [TypeCheckArgs] succeeds with the normalized list: each
    fixed slot holds its argument, or its declared default when it has
    none, and the arguments of the variadic tail follow as they are.  Its
    length is the schema length when there is no variadic param; with a
    variadic param it is the larger of the schema length less one and the
    number of arguments. *)
Theorem TypeCheckArgs_normalizes (b : bindingProto) (σ : store)
    (m : BindingParamsMethod) (params : list BindingParam) (args : list value) :
  paramsMethod b = Some m -> m (viewOf b σ) = params -> paramErr b = None ->
  checkParams params = Ret None ->
  forallb wfParam params = true ->
  suppliesRequired params args = true ->
  conforms params args = true ->
  TypeCheckArgs b σ args = Ret (normalize params args, None)
  /\ length (normalize params args)
     = (if existsb variadic params
        then Nat.max (length params - 1) (length args)
        else length params)
  /\ (forall i param, params !! i = Some param -> variadic param = false ->
        normalize params args !! i
        = Some (default (defaultValue param) (args !! i)))
  /\ (forall i param, params !! i = Some param -> variadic param = true ->
        drop i (normalize params args) = drop i args).
Proof.
  intros Hm Hparams Herr Hcheck Hwf Hsup Hconf.
  pose proof (conforms_wellTyped _ _ Hconf) as Hty.
  pose proof (checkParams_variadicLast _ Hcheck Hwf) as Hlast.
  split; [| split; [| split]].
  - unfold TypeCheckArgs, Params_, proto_checkParams.
    rewrite Hm, Hparams.
    destruct (checkedParams b); cbn; rewrite ?Hcheck; cbn; rewrite Herr;
      (case_bool_decide as Hlen;
       [ by rewrite (typeCheckLoop_normalize args params 0 []) by done
       | destruct params; [done | cbn in Hlen; lia] ]).
  - by apply normalize_length.
  - intros i param Hi Hv. by apply normalize_fixed_slot.
  - intros i param Hi Hv. by eapply normalize_variadic_slot.
Qed.

(** The second row of the example of §8: a populated variadic tail. *)
Lemma TypeCheckArgs_normalizes_witness :
  paramsMethod protoABC = Some (fun _ => schemaABC)
  /\ paramErr protoABC = None
  /\ checkParams schemaABC = Ret None
  /\ forallb wfParam schemaABC = true
  /\ suppliesRequired schemaABC [VInt 5; VInt 2; VInt 3; VInt 4] = true
  /\ conforms schemaABC [VInt 5; VInt 2; VInt 3; VInt 4] = true
  /\ TypeCheckArgs protoABC storeABC [VInt 5; VInt 2; VInt 3; VInt 4]
     = Ret ([VInt 5; VInt 2; VInt 3; VInt 4], None).
Proof.
  do 6 (split; [reflexivity |]).
  exact (proj1 (TypeCheckArgs_normalizes protoABC storeABC (fun _ => schemaABC)
                  schemaABC [VInt 5; VInt 2; VInt 3; VInt 4]
                  eq_refl eq_refl eq_refl eq_refl eq_refl eq_refl eq_refl)).
Defined.

(** A param declared with an interface: a struct with the method passes
    and stays in its slot, nil default included when it is left out; a
    struct without the method is rejected. *)
Example TypeCheckArgs_interface_param :
  conforms schemaStringer [VInt 5; aStringer] = true
  /\ TypeCheckArgs (sampleOf bindingStringer).1 (sampleOf bindingStringer).2
       [VInt 5; aStringer]
     = Ret ([VInt 5; aStringer], None)
  /\ TypeCheckArgs (sampleOf bindingStringer).1 (sampleOf bindingStringer).2
       [VInt 5]
     = Ret ([VInt 5; VNil], None)
  /\ conforms schemaStringer [VInt 5; noStringer] = false
  /\ TypeCheckArgs (sampleOf bindingStringer).1 (sampleOf bindingStringer).2
       [VInt 5; noStringer]
     = Ret ([VInt 5],
            Some (EParamType "s" (Some stringerT) 1
                    (Some (TStruct "Point" [] [])))).
Proof. repeat split; vm_compute; reflexivity. Qed.

(** The two other rows of the example of §8. *)
Example TypeCheckArgs_ABC_defaults :
  TypeCheckArgs protoABC storeABC [VInt 5] = Ret ([VInt 5; VInt 1], None).
Proof. vm_compute; reflexivity. Qed.

Example TypeCheckArgs_ABC_missing_required :
  TypeCheckArgs protoABC storeABC [] = Ret ([], Some (ERequiredNotProvided "a" 0)).
Proof. vm_compute; reflexivity. Qed.

(** C3. When [Params] returns the empty list, [TypeCheckArgs] returns the
    empty argument list whatever the arguments are, and [Execute] calls
    the request method [m] of the binding with zero arguments: the request
    handed to [Run] is [m] applied to the empty list, and so are the
    arguments of the response wrapper, of the unwrapping and of the
    response method.  What [Execute] returns does not depend on the
    arguments. *)
Theorem no_params_discards_arguments (b : bindingProto) (σ : store)
    (client : option Client) (args : list value) (m : BindingRequestMethod) :
  Params_ b σ = Ret [] -> paramErr b = None -> requestMethod b = Some m ->
  let σ1 := (evaluateAttrs b client σ).2 in
  TypeCheckArgs b σ args = Ret ([], None)
  /\ Execute b client args σ = Execute b client [] σ
  /\ Execute b client args σ
     = (let '(wr, err) := ResponseWrapper b σ1 [] in
        match err with
        | Some e => Ret ((zeroValue (RetT b), Some (EWrap WResponseWrapper e)), σ1)
        | None =>
            if isZeroValue wr
            then Panic "reflect: call of reflect.Value.Interface on zero Value"
            else
              match client with
              | None => Panic "nil pointer dereference"
              | Some c =>
                  let '(wr', err) :=
                    Run c (Name b) (attrsOf b σ1) (m (viewOf b σ1) []) wr in
                  match err with
                  | Some e => Ret ((zeroValue (RetT b), Some (EWrap WRun e)), σ1)
                  | None =>
                      '(un, err) ← ResponseUnwrapped b σ1 wr' [];
                      match err with
                      | Some e =>
                          Ret ((zeroValue (RetT b),
                                Some (EWrap WResponseUnwrapped e)), σ1)
                      | None =>
                          response ← Response b σ1 un [];
                          Ret ((response, None), σ1)
                      end
                  end
              end
        end).
Proof.
  intros Hp He Hm σ1.
  assert (Ht : forall a, TypeCheckArgs b σ a = Ret ([], None)).
  { intros a. unfold TypeCheckArgs. rewrite Hp. cbn. by rewrite He. }
  split; [apply Ht |].
  split; [unfold Execute; by rewrite !Ht |].
  unfold Execute. rewrite Ht. cbn. unfold runPipeline, Request.
  fold σ1. by rewrite Hm.
Qed.

(** A binding fresh from [NewBindingChain] drops the arguments [(7, x)]:
    its request method is called with no argument. *)
Lemma no_params_discards_arguments_witness :
  Params_ countingBinding.1 countingBinding.2 = Ret []
  /\ paramErr countingBinding.1 = None
  /\ requestMethod countingBinding.1 = Some countArgs
  /\ Execute countingBinding.1 (Some probeClient) [VInt 7; VString "x"]
       countingBinding.2
     = Ret ((VBool true, None), countingBinding.2)
  /\ TypeCheckArgs countingBinding.1 countingBinding.2 [VInt 7; VString "x"]
     = Ret ([], None).
Proof.
  do 4 (split; [reflexivity |]).
  exact (proj1 (no_params_discards_arguments countingBinding.1 countingBinding.2
                  (Some probeClient) [VInt 7; VString "x"] countArgs
                  eq_refl eq_refl eq_refl)).
Defined.

(** ** Setters *)

Lemma allocProto_snapshot (σ : store) (p : loc) (b b' : bindingProto) :
  protos σ !! p = Some b ->
  snapshot σ p b (allocProto b' σ) b' /\ attrMaps (allocProto b' σ).2 = attrMaps σ.
Proof.
  intros Hp. unfold allocProto, snapshot; cbn.
  set (q := fresh (dom (protos σ))).
  assert (Hq : protos σ !! q = None).
  { apply not_elem_of_dom. apply is_fresh. }
  assert (Hne : q <> p) by (intros ->; congruence).
  repeat split; try done.
  - by rewrite lookup_insert_ne.
  - by rewrite lookup_insert_eq.
  - intros p0 Hp0. by rewrite lookup_insert_ne.
Qed.

Lemma attrsOf_writeAttr (b : bindingProto) (k : string) (v : value) (σ : store) :
  attrsOf b (writeAttr b k v σ) = <[k := v]> (attrsOf b σ).
Proof. unfold attrsOf, writeAttr; cbn. by rewrite lookup_insert_eq. Qed.

(** [evaluateAttrs] touches no cell and no map but the receiver's own, to
    which it only adds keys. *)
Lemma evaluateLoop_frame (b : bindingProto) (client : option Client) :
  forall fs i acc σ,
    let σ' := (evaluateLoop b client i fs acc σ).2 in
    protos σ' = protos σ
    /\ (forall l, l <> attrs b -> attrMaps σ' !! l = attrMaps σ !! l)
    /\ dom (attrsOf b σ) ⊆ dom (attrsOf b σ').
Proof.
  induction fs as [| attr fs IH]; intros i acc σ; cbn; [done |].
  destruct (attr client) as [[k v] |]; [| apply IH].
  destruct (IH (S i) (acc ++ [i]) (writeAttr b k v σ)) as (Hp & Hm & Hd).
  repeat split.
  - by rewrite Hp.
  - intros l Hl. rewrite (Hm l Hl). cbn. by rewrite lookup_insert_ne.
  - etrans; [| exact Hd]. rewrite attrsOf_writeAttr, dom_insert_L.
    apply union_subseteq_r.
Qed.

Lemma evaluateLoop_keys (b : bindingProto) (client : option Client) :
  forall fs i acc σ attr k v,
    attr ∈ fs -> attr client = Ret (k, v) ->
    k ∈ dom (attrsOf b (evaluateLoop b client i fs acc σ).2).
Proof.
  induction fs as [| a fs IH]; intros i acc σ attr k v Hin Hev;
    [by apply not_elem_of_nil in Hin |].
  apply elem_of_cons in Hin as [-> | Hin]; cbn.
  - rewrite Hev.
    destruct (evaluateLoop_frame b client fs (S i) (acc ++ [i])
                (writeAttr b k v σ)) as (_ & _ & Hd).
    apply Hd. rewrite attrsOf_writeAttr. set_solver.
  - destruct (a client) as [[k' v'] |]; eapply IH; eauto.
Qed.

Lemma evaluateAttrs_store (b : bindingProto) (client : option Client) (σ : store) :
  (evaluateAttrs b client σ).2 = (evaluateLoop b client 0 (attrFuncs b) [] σ).2.
Proof.
  unfold evaluateAttrs.
  destruct (evaluateLoop b client 0 (attrFuncs b) [] σ) as [idx σ'].
  by case_bool_decide.
Qed.




(** *** No binding ever holds a cached error

    The constructors create bindings without cached error, and neither a
    setter nor [Execute] ever stores one: [noCachedError] is an invariant
    of the heap. *)

Lemma allocProto_noCachedError (b : bindingProto) (σ : store) :
  noCachedError σ -> paramErr b = None -> noCachedError (allocProto b σ).2.
Proof.
  intros H Hb p b0. unfold allocProto; cbn. rewrite lookup_insert.
  case_decide; [by intros [= <-] | apply H].
Qed.

Lemma noCachedError_protos (σ σ' : store) :
  protos σ' = protos σ -> noCachedError σ -> noCachedError σ'.
Proof. intros Heq H p b. rewrite Heq. apply H. Qed.

Lemma evaluateAttrs_protos (b : bindingProto) (client : option Client) (σ : store) :
  protos (evaluateAttrs b client σ).2 = protos σ.
Proof.
  rewrite evaluateAttrs_store.
  by destruct (evaluateLoop_frame b client (attrFuncs b) 0%nat [] σ) as (H & _).
Qed.

Lemma Execute_protos (b : bindingProto) (client : option Client)
    (args : list value) (σ : store) (r : value * option error * store) :
  Execute b client args σ = Ret r -> protos r.2 = protos σ.
Proof.
  unfold Execute.
  destruct (TypeCheckArgs b σ args) as [[args' [e |]] |]; cbn;
    [by intros [= <-] | | discriminate].
  unfold runPipeline.
  pose proof (evaluateAttrs_protos b client σ) as Hp.
  set (σ1 := (evaluateAttrs b client σ).2) in *.
  destruct (ResponseWrapper b σ1 args') as [wr [e |]]; [by intros [= <-] |].
  destruct (isZeroValue wr); [discriminate |].
  destruct client as [c |]; [| discriminate].
  destruct (Run c (Name b) (attrsOf b σ1) (Request b σ1 args') wr) as [wr' [e |]];
    [by intros [= <-] |].
  destruct (ResponseUnwrapped b σ1 wr' args') as [[un [e |]] |]; cbn;
    [by intros [= <-] | | discriminate].
  destruct (Response b σ1 un args'); cbn; [by intros [= <-] | discriminate].
Qed.

(** X14. No binding ever holds a cached structural error: starting from a heap
    in which none does, neither constructor, no setter and no call of
    [Execute] leaves a heap in which one does. *)
Lemma binding_operations_never_cache (σ : store) :
  noCachedError σ ->
  (forall resT retT req, noCachedError (NewBindingChain resT retT req σ).2)
  /\ (forall resT retT req wr un rs ps pg fs,
        noCachedError (NewBinding resT retT req wr un rs ps pg fs σ).2)
  /\ (forall b, paramErr b = None ->
        (forall n, noCachedError (SetName b n σ).2)
        /\ (forall f, noCachedError (SetPaginated b f σ).2)
        /\ (forall m, noCachedError (SetResponseWrapperMethod b m σ).2)
        /\ (forall m, noCachedError (SetResponseUnwrappedMethod b m σ).2)
        /\ (forall m, noCachedError (SetResponseMethod b m σ).2)
        /\ (forall m r, SetParamsMethod b m σ = Ret r -> noCachedError r.2)
        /\ (forall fs, noCachedError (AddAttrs b fs σ).2)
        /\ (forall c args r, Execute b c args σ = Ret r -> noCachedError r.2)).
Proof.
  intros H. split; [| split].
  - intros. unfold NewBindingChain, allocAttrs.
    apply allocProto_noCachedError; [| done].
    by apply (noCachedError_protos σ).
  - intros. unfold NewBinding, allocAttrs.
    match goal with |- context [allocProto ?b ?s] =>
      pose proof (allocProto_noCachedError b s) as Ha;
      destruct (allocProto b s) as [p σ2] eqn:E end.
    eapply noCachedError_protos; [apply evaluateAttrs_protos |].
    apply Ha; [| done]. by apply (noCachedError_protos σ).
  - intros b Hb. repeat split; intros.
    1-5: by apply allocProto_noCachedError.
    + unfold SetParamsMethod in H0.
      destruct (Params_ _ σ); cbn in H0; [| discriminate].
      injection H0 as <-. by apply allocProto_noCachedError.
    + unfold AddAttrs. apply allocProto_noCachedError; [| done].
      eapply noCachedError_protos; [apply evaluateAttrs_protos | done].
    + eapply noCachedError_protos; [by eapply Execute_protos | done].
Qed.

(** ** The paginator *)

(** C7, evaluated where the code departs from it: [NewPaginator] leaves
    [currentPage] nil, and [Continue] takes the length of the current page
    before it looks at the page counter, so on page 1 of a paginator for a
    slice-typed binding it panics. *)
Theorem Continue_panics_on_fresh_untyped_paginator :
  NewPaginator envExpired (TSlice TInt) 0 [] = Some (untypedPag envExpired)
  /\ page (untypedPag envExpired) = 1
  /\ Continue envExpired (untypedPag envExpired)
     = Panic "reflect: call of reflect.Value.Len on a Value without length".
Proof. repeat split; vm_compute; reflexivity. Qed.

Lemma slice_not_mergeable (e : rtype) :
  Type_Implements (Some (TSlice e)) (Some MergeableT) = Ret false.
Proof. reflexivity. Qed.

(** The typed paginator behaves as C7 says for sequence results. *)
Lemma Continue_typed_page_one (env : collaborators) (e : rtype) (p : paginator)
    (xs : list value) :
  returnType p = TSlice e -> currentPage p = VSlice e xs -> page p = 1 ->
  Continue env p = Ret true.
Proof.
  intros Hr Hc Hp. unfold Continue.
  rewrite Hr, slice_not_mergeable, Hc, Hp. reflexivity.
Qed.

Lemma Continue_typed_later (env : collaborators) (e : rtype) (p : paginator)
    (xs : list value) :
  returnType p = TSlice e -> currentPage p = VSlice e xs -> page p <> 1 ->
  Continue env p = Ret (negb (bool_decide (xs = []))).
Proof.
  intros Hr Hc Hp. unfold Continue.
  rewrite Hr, slice_not_mergeable, Hc.
  apply Z.eqb_neq in Hp. rewrite Hp.
  destruct xs as [| x xs]; [reflexivity |].
  cbn [mbind result_bind Value_Len orb length].
  rewrite bool_decide_eq_false_2 by done.
  assert ((0 <? Z.of_nat (S (length xs))) = true) as -> by (apply Z.ltb_lt; lia).
  reflexivity.
Qed.

Example NewTypedPaginator_sample :
  NewTypedPaginator envResource (TSlice TInt) 0 [] = Some (typedPag envResource).
Proof. vm_compute; reflexivity. Qed.

(** C6, evaluated where the code departs from it: page 1, a resource limit
    of 5 remaining that resets in the future, an empty current page and a
    limit param whose default 10 exceeds what remains.  The pointer handed
    to [paginatorCheckRateLimit] is never nil and the field behind it is
    never set, so the search for the param is skipped and the read of the
    limit panics: [Next] neither sleeps nor executes. *)
Theorem resource_limit_check_panics :
  limitArg (typedPag envResource) = None
  /\ findLimitArg 0 (params (typedPag envResource)) (args (typedPag envResource))
     = Some (inject_Z 10)
  /\ Next envResource (typedPag envResource) world0
     = (Panic "nil pointer dereference", mkWorld 0 [EvLatestRateLimit "items"]).
Proof. repeat split; vm_compute; reflexivity. Qed.

(** The same for every input that reaches the comparison with a field that
    holds nil, as both constructors leave it. *)
Lemma resourceCase_panics (page : Z) (currentPage : value)
    (params : list BindingParam) (args : list value) (rl : RateLimit)
    (sleepTime n : Z) (w : world) :
  Value_Len currentPage = Ret n -> n <= Remaining rl -> page = 1 \/ 0 < n ->
  resourceCase (Some None) page currentPage params args rl sleepTime w
  = (Panic "nil pointer dereference", w).
Proof.
  intros Hn Hle Hc. unfold resourceCase, liftR.
  change (?m ≫= ?f) with (W_bind _ _ f m). unfold W_bind. rewrite Hn.
  assert ((Remaining rl <? n) = false) as -> by (apply Z.ltb_ge; lia).
  assert (((page =? 1) || (0 <? n)) = true) as ->; [| done].
  destruct Hc as [-> | Hc]; [done |].
  apply orb_true_iff. right. by apply Z.ltb_lt.
Qed.

(** *** How often [Next] executes the binding *)

Lemma W_bind_run {A B} (m : W A) (f : A -> W B) (w : world) :
  (m ≫= f) w
  = match m w with
    | (Ret a, w') => f a w'
    | (Panic msg, w') => (Panic msg, w')
    end.
Proof. reflexivity. Qed.

Lemma countExec_app (evs1 evs2 : list event) :
  countExec (evs1 ++ evs2) = (countExec evs1 + countExec evs2)%nat.
Proof.
  induction evs1 as [| ev evs1 IH]; [done |].
  destruct ev; cbn; rewrite IH; lia.
Qed.

Lemma newEvents_app (w w' : world) (evs : list event) :
  trace w' = trace w ++ evs -> newEvents w w' = evs.
Proof. unfold newEvents. intros ->. by rewrite drop_app_length. Qed.

Lemma quiet_ret {A} (a : A) : quiet (mret a).
Proof. intros w. exists []. cbn. by rewrite app_nil_r. Qed.

Lemma quiet_liftR {A} (r : result A) : quiet (liftR r).
Proof. intros w. exists []. cbn. by rewrite app_nil_r. Qed.

Lemma quiet_now (env : collaborators) (site : nat) : quiet (now env site).
Proof. intros w. exists []. cbn. by rewrite app_nil_r. Qed.

Lemma quiet_sleep (d : Z) : quiet (sleep d).
Proof. intros w. by exists [EvSleep d]. Qed.

Lemma quiet_log : quiet log.
Proof. intros w. by exists [EvLog]. Qed.

Lemma quiet_latestRateLimit (env : collaborators) (n : string) :
  quiet (latestRateLimit env n).
Proof. intros w. by exists [EvLatestRateLimit n]. Qed.

Lemma quiet_bind {A B} (m : W A) (f : A -> W B) :
  quiet m -> (forall a, quiet (f a)) -> quiet (m ≫= f).
Proof.
  intros Hm Hf w. rewrite W_bind_run.
  destruct (Hm w) as (evs & He & Hc).
  destruct (m w) as [[a | msg] w']; cbn in He.
  - destruct (Hf a w') as (evs' & He' & Hc').
    exists (evs ++ evs'). rewrite He', He, app_assoc, countExec_app. split; [done | lia].
  - by exists evs.
Qed.

Create HintDb quiet.
#[local] Hint Resolve quiet_ret quiet_liftR quiet_now quiet_sleep quiet_log
  quiet_latestRateLimit : quiet.

Ltac quiet_steps :=
  repeat first
    [ solve [auto with quiet]
    | apply quiet_bind; [| intros ?]
    | match goal with
      | |- quiet (match ?x with _ => _ end) => destruct x
      end ].

Lemma quiet_retryLatest (env : collaborators) (wt : Z) (n : string) :
  forall tries rl, quiet (retryLatest env wt n tries rl).
Proof.
  induction tries as [| tries IH]; intros [r |]; cbn; try apply quiet_ret.
  quiet_steps.
Qed.

Lemma quiet_consultOracle (env : collaborators) (wt : Z) (n : string) :
  quiet (consultOracle env wt n).
Proof.
  unfold consultOracle. apply quiet_bind; [auto with quiet |].
  intros rl. apply quiet_retryLatest.
Qed.

Lemma quiet_resourceCase (la : option (option Q)) (pg : Z) (cur : value)
    (ps : list BindingParam) (ags : list value) (rl : RateLimit) (st : Z) :
  quiet (resourceCase la pg cur ps ags rl st).
Proof. unfold resourceCase. quiet_steps. Qed.

Lemma quiet_paginatorCheckRateLimit (env : collaborators) (wt : Z) (n : string)
    (la : option (option Q)) (pg : Z) (cur : value) (ps : list BindingParam)
    (ags : list value) :
  quiet (paginatorCheckRateLimit env wt n la pg cur ps ags).
Proof.
  unfold paginatorCheckRateLimit.
  destruct (isRateLimited env); [| apply quiet_ret].
  apply quiet_bind; [apply quiet_consultOracle | intros rl].
  destruct rl as [r |].
  - apply quiet_bind; [apply quiet_now | intros t0].
    destruct (t0 <? Reset r).
    + apply quiet_bind; [apply quiet_now | intros t1].
      apply quiet_bind; [| intros ?; apply quiet_ret].
      destruct (Type_rl r); [| apply quiet_resourceCase].
      quiet_steps.
    + quiet_steps.
  - quiet_steps.
Qed.

(** The flag [ignoreFirstRequest] is raised only on page 1 of a
    rate-limited client whose oracle, after its retries, reported nothing
    or a limit that has expired; no error comes with it. *)
Lemma check_flag (env : collaborators) (wt : Z) (n : string)
    (la : option (option Q)) (pg : Z) (cur : value) (ps : list BindingParam)
    (ags : list value) (w w1 : world) (ok : bool) (err : option error) :
  paginatorCheckRateLimit env wt n la pg cur ps ags w = (Ret (true, ok, err), w1) ->
  pg = 1 /\ isRateLimited env = true /\ err = None
  /\ exists rl w0,
       consultOracle env wt n w = (Ret rl, w0)
       /\ w1 = readAgainst env rl w0
       /\ noLiveLimit rl (clock w1).
Proof.
  unfold paginatorCheckRateLimit.
  destruct (isRateLimited env); [| intros [=]].
  rewrite W_bind_run.
  destruct (consultOracle env wt n w) as [[rl | msg] w0]; [| intros [=]].
  destruct rl as [r |].
  - rewrite W_bind_run. unfold now at 1. cbv zeta iota beta.
    destruct (clock w0 + elapsed env 0 w0 <? Reset r) eqn:E.
    + rewrite W_bind_run. unfold now at 1. cbv zeta iota beta.
      rewrite W_bind_run.
      match goal with |- context [match ?m ?w' with _ => _ end] =>
        destruct (m w') as [[[] | msg] w''] end; intros [=].
    + destruct (pg =? 1) eqn:Ep.
      * intros [= <- <- <-]. apply Z.eqb_eq in Ep. apply Z.ltb_ge in E.
        repeat split; try done. by exists (Some r), w0.
      * rewrite W_bind_run. unfold now at 1. cbv zeta iota beta.
        rewrite W_bind_run. unfold now at 1. cbv zeta iota beta.
        rewrite W_bind_run. cbn. intros [=].
  - destruct (pg =? 1) eqn:Ep.
    + intros [= <- <- <-]. apply Z.eqb_eq in Ep.
      repeat split; try done. by exists None, w0.
    + rewrite W_bind_run. cbn. intros [=].
Qed.

(** The check returns an error only past page 1. *)
Lemma check_error (env : collaborators) (wt : Z) (n : string)
    (la : option (option Q)) (pg : Z) (cur : value) (ps : list BindingParam)
    (ags : list value) (w w1 : world) (ig ok : bool) (e : error) :
  paginatorCheckRateLimit env wt n la pg cur ps ags w = (Ret (ig, ok, Some e), w1) ->
  pg <> 1.
Proof.
  unfold paginatorCheckRateLimit.
  destruct (isRateLimited env); [| intros [=]].
  rewrite W_bind_run.
  destruct (consultOracle env wt n w) as [[rl | msg] w0]; [| intros [=]].
  destruct rl as [r |].
  - rewrite W_bind_run. unfold now at 1. cbv zeta iota beta.
    destruct (clock w0 + elapsed env 0 w0 <? Reset r) eqn:E.
    + rewrite W_bind_run. unfold now at 1. cbv zeta iota beta.
      rewrite W_bind_run.
      match goal with |- context [match ?m ?w' with _ => _ end] =>
        destruct (m w') as [[[] | msg] w''] end; intros [=].
    + destruct (pg =? 1) eqn:Ep; [intros [=] |].
      rewrite W_bind_run. unfold now at 1. cbv zeta iota beta.
      rewrite W_bind_run. unfold now at 1. cbv zeta iota beta.
      rewrite W_bind_run. cbn. intros [=].
  - destruct (pg =? 1) eqn:Ep; [intros [=] |].
    intros _. by apply Z.eqb_neq.
Qed.

(** One call of the closure [execute]: either the binding is not executed,
    and then nothing is returned unless the check failed, past page 1; or
    the rate-limit check returned no error and the binding was executed
    once, in the world the check left. *)
Lemma executeOnce_cases (env : collaborators) (p : paginator) (args' : list value)
    (w : world) :
  (exists evs,
      trace (executeOnce env p args' w).2 = trace w ++ evs
      /\ countExec evs = 0%nat
      /\ forall ret ig ok err,
           (executeOnce env p args' w).1 = Ret (ret, ig, ok, err) ->
           ig = false /\ err <> None /\ page p <> 1)
  \/ (exists ig ok w1 evs,
         paginatorCheckRateLimit env (waitTime p) (binding_Name env)
           (Some (limitArg p)) (page p) (currentPage p) (params p) (args p) w
         = (Ret (ig, ok, None), w1)
         /\ trace w1 = trace w ++ evs
         /\ countExec evs = 0%nat
         /\ executeOnce env p args' w
            = (Ret ((binding_Execute env args' w1).1, ig, ok,
                    (binding_Execute env args' w1).2),
               emit (EvExecute args') w1)).
Proof.
  unfold executeOnce. rewrite W_bind_run.
  destruct (quiet_paginatorCheckRateLimit env (waitTime p) (binding_Name env)
              (Some (limitArg p)) (page p) (currentPage p) (params p) (args p) w)
    as (evs & He & Hc).
  destruct (paginatorCheckRateLimit _ _ _ _ _ _ _ _ w)
    as [[[[ig ok] err] | msg] w1] eqn:Hchk; cbn in He.
  - destruct err as [e |].
    + left. exists evs. cbn. split; [done |]. split; [done |].
      intros ret ig' ok' err' [= <- <- <- <-].
      pose proof (check_error _ _ _ _ _ _ _ _ _ _ _ _ _ Hchk) as Hpg.
      repeat split; try done.
      destruct ig; [| done].
      apply check_flag in Hchk as (_ & _ & Hcontra & _). discriminate.
    + right. exists ig, ok, w1, evs. repeat split; try done.
      rewrite W_bind_run. unfold execute.
      by destruct (binding_Execute env args' w1).
  - left. exists evs. cbn. split; [done |]. split; [done |].
    intros ret ig' ok' err' [=].
Qed.

Lemma advance_run (p : paginator) (w : world) :
  exists w' evs,
    advance p w = (Ret (with_page (wrap64 (page p + 1)) p, None), w')
    /\ trace w' = trace w ++ evs /\ countExec evs = 0%nat.
Proof.
  unfold advance. rewrite W_bind_run.
  destruct (negb (waitTime (with_page (wrap64 (page p + 1)) p) =? 0)).
  - eexists _, [EvSleep _]. cbn. done.
  - exists w, []. cbn. by rewrite app_nil_r.
Qed.



(** *** All *)

Lemma wrap64_succ (z : Z) : 1 <= z -> z < 2 ^ 63 - 1 -> wrap64 (z + 1) = z + 1.
Proof. intros H1 H2. unfold wrap64. rewrite Z.mod_small; lia. Qed.

Lemma Next_success (env : collaborators) (p p' : paginator) (w w' : world) :
  Next env p w = (Ret (p', None), w') ->
  page p' = wrap64 (page p + 1) /\ returnType p' = returnType p.
Proof.
  unfold Next. rewrite W_bind_run. unfold liftR at 1.
  destruct (GetPaginatorParamValue env (paramSet p) (params p) (currentPage p) (page p))
    as [[pv | e0] | msg]; [| intros [=] | intros [=]].
  destruct (InsertPaginatorParamValues env (paramSet p) (params p) (args p) pv)
    as [args' ierr].
  rewrite W_bind_run.
  destruct (executeOnce env p args' w) as [[[[[ret ig] ok] err] | msg] w1];
    [| intros [=]].
  destruct err as [e |].
  - destruct ig; cbn [negb]; [| intros [=]].
    rewrite W_bind_run.
    destruct (executeOnce env (with_fetched ok ret p) args' w1)
      as [[[[[ret2 ig2] ok2] err2] | msg] w2]; [| intros [=]].
    destruct err2 as [e2 |]; [intros [=] |].
    destruct (advance_run (with_fetched ok2 ret2 (with_fetched ok ret p)) w2)
      as (w4 & evs & Hadv & _).
    rewrite Hadv. intros [= <- <-]. done.
  - destruct (advance_run (with_fetched ok ret p) w1) as (w4 & evs & Hadv & _).
    rewrite Hadv. intros [= <- <-]. done.
Qed.

Lemma Continue_nonempty (env : collaborators) (e : rtype) (p : paginator)
    (xs : list value) :
  returnType p = TSlice e -> currentPage p = VSlice e xs -> xs <> [] ->
  Continue env p = Ret true.
Proof.
  intros Hr Hc Hx. destruct (decide (page p = 1)) as [Hp | Hp].
  - by eapply Continue_typed_page_one.
  - rewrite (Continue_typed_later env e p xs) by done.
    by rewrite bool_decide_eq_false_2.
Qed.

Lemma merge_slices (env : collaborators) (e : rtype) (p : paginator)
    (acc xs : list value) :
  returnType p = TSlice e -> currentPage p = VSlice e xs ->
  merge env p (VSlice e acc) = Ret (VSlice e (acc ++ xs), None).
Proof.
  intros Hr Hc. unfold merge, mergeable, Page.
  rewrite Hr, slice_not_mergeable, Hc. cbn.
  by rewrite bool_decide_eq_true_2.
Qed.

Lemma AllLoop_fetches (env : collaborators) (e : rtype) (pages : list (list value))
    (p p' : paginator) (w w' : world) :
  fetches env e p w pages p' w' ->
  forall acc fuel p'' w'' last,
    returnType p = TSlice e ->
    Continue env p = Ret true ->
    1 <= page p -> page p + Z.of_nat (length pages) < 2 ^ 63 - 1 ->
    Next env p' w' = (Ret (p'', last), w'') ->
    (last = None -> currentPage p'' = VSlice e []) ->
    (length pages + 2 <= fuel)%nat ->
    AllLoop env fuel p (VSlice e acc) w
    = (Ret (Some (p'', VSlice e (acc ++ concat pages), last)), w'').
Proof.
  induction 1 as [p w | p w p1 w1 xs pages p' w' HN Hcur Hne Hf IH];
    intros acc fuel p'' w'' last Hr Hcont Hlo Hhi Hlast Hempty Hfuel.
  - destruct fuel as [| [| fuel]]; [cbn in Hfuel; lia | cbn in Hfuel; lia |].
    cbn [AllLoop]. rewrite W_bind_run. unfold liftR at 1. rewrite Hcont.
    cbv iota beta. rewrite W_bind_run, Hlast. cbv iota beta.
    cbn [concat]. rewrite app_nil_r.
    destruct last as [err |]; [done |].
    destruct (Next_success _ _ _ _ _ Hlast) as [Hpg Hrt].
    rewrite W_bind_run. unfold liftR at 1.
    rewrite (merge_slices env e p'' acc []) by (rewrite ?Hrt; auto).
    cbv iota beta. rewrite app_nil_r.
    assert (Hstop : Continue env p'' = Ret false).
    { rewrite (Continue_typed_later env e p'' []); [done | by rewrite Hrt | auto |].
      rewrite Hpg, wrap64_succ; cbn in Hhi; lia. }
    cbn [AllLoop]. rewrite W_bind_run. unfold liftR at 1. rewrite Hstop.
    reflexivity.
  - destruct fuel as [| fuel]; [cbn in Hfuel; lia |].
    cbn [AllLoop]. rewrite W_bind_run. unfold liftR at 1. rewrite Hcont.
    cbv iota beta. rewrite W_bind_run, HN. cbv iota beta.
    destruct (Next_success _ _ _ _ _ HN) as [Hpg Hrt].
    rewrite W_bind_run. unfold liftR at 1.
    rewrite (merge_slices env e p1 acc xs) by (rewrite ?Hrt; auto).
    cbv iota beta.
    cbn [length] in Hhi, Hfuel.
    rewrite (IH (acc ++ xs) fuel p'' w'' last); try done.
    + cbn [concat]. by rewrite app_assoc.
    + by rewrite Hrt.
    + eapply Continue_nonempty; eauto. by rewrite Hrt.
    + rewrite Hpg, wrap64_succ; lia.
    + rewrite Hpg, wrap64_succ; lia.
    + lia.
Qed.

(** C8. For a fresh typed paginator whose return type is a slice: when the
    successive calls of [Next] fetch the non-empty pages [pages] and the
    next call either fetches an empty page or fails with an error, [All]
    (given enough iterations) returns the concatenation of [pages] in
    fetch order, with no error in the first case and with that error in
    the second. *)
Theorem All_concatenates (env : collaborators) (e : rtype)
    (p p' p'' : paginator) (w w' w'' : world) (pages : list (list value))
    (last : option error) (fuel : nat) :
  returnType p = TSlice e -> page p = 1 -> currentPage p = VSlice e [] ->
  Z.of_nat (length pages) < 2 ^ 62 ->
  fetches env e p w pages p' w' ->
  Next env p' w' = (Ret (p'', last), w'') ->
  (last = None -> currentPage p'' = VSlice e []) ->
  (length pages + 2 <= fuel)%nat ->
  All env fuel p w = (Ret (Some (p'', VSlice e (concat pages), last)), w'').
Proof.
  intros Hr Hp Hc Hlen Hf HN Hlast Hfuel. unfold All. rewrite Hr.
  change (zeroValue (TSlice e)) with (VSlice e []).
  rewrite (AllLoop_fetches env e pages p p' w w' Hf [] fuel p'' w'' last); try done.
  - by eapply Continue_typed_page_one.
  - lia.
  - rewrite Hp. lia.
Qed.

(** Over [envPages], [All] returns [(1, 2, 3)]. *)
Lemma All_concatenates_witness :
  fetches envPages TInt (typedPag envPages) world0
    [[VInt 1; VInt 2]; [VInt 3]] (pagAt 3 [VInt 3]) (worldAt 2)
  /\ Next envPages (pagAt 3 [VInt 3]) (worldAt 2)
     = (Ret (pagAt 4 [], None), worldAt 3)
  /\ All envPages 4 (typedPag envPages) world0
     = (Ret (Some (pagAt 4 [], VSlice TInt [VInt 1; VInt 2; VInt 3], None)),
        worldAt 3).
Proof.
  assert (Hf : fetches envPages TInt (typedPag envPages) world0
                 [[VInt 1; VInt 2]; [VInt 3]] (pagAt 3 [VInt 3]) (worldAt 2)).
  { apply (fetches_cons envPages TInt _ _ (pagAt 2 [VInt 1; VInt 2]) (worldAt 1));
      [vm_compute; reflexivity | reflexivity | discriminate |].
    apply (fetches_cons envPages TInt _ _ (pagAt 3 [VInt 3]) (worldAt 2));
      [vm_compute; reflexivity | reflexivity | discriminate |].
    apply fetches_nil. }
  assert (HN : Next envPages (pagAt 3 [VInt 3]) (worldAt 2)
               = (Ret (pagAt 4 [], None), worldAt 3))
    by (vm_compute; reflexivity).
  split; [exact Hf |]. split; [exact HN |].
  apply (All_concatenates envPages TInt (typedPag envPages) (pagAt 3 [VInt 3])
           (pagAt 4 []) world0 (worldAt 2) (worldAt 3)
           [[VInt 1; VInt 2]; [VInt 3]] None 4).
  - reflexivity.
  - reflexivity.
  - reflexivity.
  - vm_compute; reflexivity.
  - exact Hf.
  - exact HN.
  - reflexivity.
  - cbn; lia.
Defined.

(** * Further properties *)

(** ** The tuple parser *)

Lemma updLast_snoc (f : BindingParam -> BindingParam) (ps : list BindingParam)
    (lastP : BindingParam) :
  updLast f (ps ++ [lastP]) = Ret (ps ++ [f lastP]).
Proof. unfold updLast. by rewrite last_snoc, removelast_last. Qed.

Lemma Forall_flags_snoc (ps : list BindingParam) (p : BindingParam) :
  Forall flagsExclusive ps -> flagsExclusive p -> Forall flagsExclusive (ps ++ [p]).
Proof. intros. apply Forall_app. split; [done |]. by constructor. Qed.

Ltac split_inv := refine (conj _ (conj _ (conj _ (conj _ _)))).

Lemma parserInv_setDefaultValue (ty : option rtype) (iflag : bool) (defV : value)
    (st : parser) :
  parserInv st -> skipUntilName st = false ->
  parserInv (setDefaultValue ty iflag defV st).
Proof.
  intros (Hall & Hv & Hr & Hskip & Hcba) Hsk. unfold setDefaultValue. split_inv; cbn.
  - apply Forall_flags_snoc; [done |]. unfold flagsExclusive. cbn. by rewrite Hv.
  - done.
  - done.
  - by rewrite Hsk.
  - right. right. split; [by left |]. eexists _, _. split; [done |]. done.
Qed.

Lemma parserInv_step (st st' : parser) (arg : value) :
  parserInv st -> paramsStep st arg = Ret st' ->
  parserInv st'
  /\ (2 * length (bindingParams st') + pendingArgs st'
      <= 2 * length (bindingParams st) + pendingArgs st + 1)%nat.
Proof.
  intros Hinv Hstep.
  unfold paramsStep in Hstep.
  destruct (getReflectType arg) as [[[ty iflag] defV] |]; [| discriminate].
  cbn in Hstep.
  destruct (Type_Kind ty) as [k |]; [| discriminate]. cbn in Hstep.
  assert (Hdefault : forall st0, parserInv st0 -> defaultCase ty iflag defV st0 = Ret st' ->
            parserInv st'
            /\ (2 * length (bindingParams st') + pendingArgs st'
                <= 2 * length (bindingParams st0) + pendingArgs st0 + 1)%nat).
  { clear. intros st0 Hinv0 H. unfold defaultCase in H.
    destruct (skipUntilName st0) eqn:Hsk.
    { injection H as <-. split; [done | lia]. }
    destruct (currentBindingArg st0 =? 1) eqn:E1.
    - injection H as <-. split; [by apply parserInv_setDefaultValue |].
      unfold setDefaultValue, pendingArgs. cbn. rewrite E1, length_app. cbn. lia.
    - injection H as <-. split; [done | lia]. }
  destruct k.
  all: try (by apply Hdefault).
  - (* Bool *)
    unfold boolCase in Hstep.
    destruct (skipUntilName st) eqn:Hsk.
    { injection Hstep as <-. split; [done | lia]. }
    destruct (currentBindingArg st =? 1) eqn:E1.
    { injection Hstep as <-. split; [by apply parserInv_setDefaultValue |].
      unfold setDefaultValue, pendingArgs. cbn. rewrite E1, length_app. cbn. lia. }
    destruct Hinv as (Hall & Hv & Hr & Hskip & Hcba).
    destruct (currentBindingArg st =? 2) eqn:E2.
    { apply Z.eqb_eq in E2.
      destruct Hcba as [H0 | [H1 | [_ (ps & lastP & Hps & Hlv)]]]; try lia.
      destruct (asBool arg) as [b |]; [| discriminate]. cbn in Hstep.
      rewrite Hps, updLast_snoc in Hstep. cbn in Hstep. injection Hstep as <-.
      rewrite Hps in Hall. apply Forall_app in Hall as [Hall _].
      split.
      - split_inv; cbn.
        + apply Forall_flags_snoc; [done |]. unfold flagsExclusive. cbn. by rewrite Hlv.
        + done.
        + done.
        + done.
        + right. right. split; [right; lia |]. eexists _, _. split; [done |]. done.
      - unfold pendingArgs. cbn. rewrite E2. cbn. rewrite Hps, !length_app. cbn. destruct (2 + 1 =? 1); lia. }
    destruct (currentBindingArg st =? 3) eqn:E3.
    { apply Z.eqb_eq in E3.
      destruct Hcba as [H0 | [H1 | [_ (ps & lastP & Hps & Hlv)]]]; try lia.
      destruct (asBool arg) as [b |]; [| discriminate]. cbn in Hstep.
      rewrite Hps, updLast_snoc in Hstep. cbn in Hstep. injection Hstep as <-.
      rewrite Hps in Hall. apply Forall_app in Hall as [Hall _].
      split.
      - unfold resetCurrentBinding. split_inv; cbn; auto.
        apply Forall_flags_snoc; [done |].
        unfold flagsExclusive. destruct b; cbn; done.
      - unfold pendingArgs, resetCurrentBinding. cbn. rewrite Hps, !length_app. cbn. lia. }
    injection Hstep as <-. split.
    + unfold resetCurrentBinding. split_inv; cbn; auto.
    + unfold pendingArgs, resetCurrentBinding. cbn. lia.
  - (* String *)
    unfold stringCase in Hstep.
    set (st1 := if (currentBindingArg st =? 2) || (currentBindingArg st =? 3)
                then resetCurrentBinding st else st) in *.
    assert (Hinv1 : parserInv st1
              /\ (2 * length (bindingParams st1) + pendingArgs st1
                  <= 2 * length (bindingParams st) + pendingArgs st)%nat).
    { subst st1.
      destruct ((currentBindingArg st =? 2) || (currentBindingArg st =? 3)) eqn:E.
      - destruct Hinv as (Hall & Hv & Hr & Hskip & Hcba). split.
        + unfold resetCurrentBinding. split_inv; cbn; auto.
        + unfold pendingArgs, resetCurrentBinding. cbn. lia.
      - split; [done | lia]. }
    destruct Hinv1 as [Hinv1 Hlen1].
    destruct (currentBindingArg st1 =? 0) eqn:E0.
    + destruct (asString arg) as [s |]; [| discriminate]. cbn in Hstep.
      injection Hstep as <-. apply Z.eqb_eq in E0.
      destruct Hinv1 as (Hall1 & Hv1 & Hr1 & Hskip1 & Hcba1).
      split.
      * split_inv; cbn; auto; [done | right; left; lia].
      * unfold pendingArgs in *. cbn. rewrite E0 in *.
        change (0 + 1 =? 1) with true. change (0 =? 1) with false in Hlen1.
        destruct (currentBindingArg st =? 1); cbn [Nat.mul] in Hlen1 |- *; lia.
    + destruct (Hdefault st1 Hinv1 Hstep) as [Hi Hl]. split; [done | lia].
Qed.

Lemma parserInv_loop (args : list value) :
  forall st st', parserInv st -> paramsLoop st args = Ret st' ->
    parserInv st'
    /\ (2 * length (bindingParams st') + pendingArgs st'
        <= 2 * length (bindingParams st) + pendingArgs st + length args)%nat.
Proof.
  induction args as [| a args IH]; intros st st' Hinv Hloop; cbn in Hloop.
  - injection Hloop as <-. split; [done | cbn; lia].
  - destruct (paramsStep st a) as [st1 |] eqn:Hs; [| discriminate]. cbn in Hloop.
    destruct (parserInv_step st st1 a Hinv Hs) as [Hinv1 Hlen1].
    destruct (IH st1 st' Hinv1 Hloop) as [Hinv' Hlen']. split; [done | cbn; lia].
Qed.

Lemma parserInv_parser0 : parserInv parser0.
Proof. unfold parser0. split_inv; cbn; auto. Qed.

(** X1. No param that [Params] returns is both variadic and required, whatever
    the arguments: a true variadic flag clears the required flag. *)
Theorem Params_flags_exclusive (args : list value) (ps : list BindingParam) :
  Params args = Ret ps ->
  forall p, p ∈ ps -> variadic p = true -> required p = false.
Proof.
  unfold Params. intros H p Hp.
  destruct (paramsLoop parser0 args) as [st |] eqn:Hl; [| discriminate].
  injection H as <-.
  destruct (parserInv_loop args parser0 st parserInv_parser0 Hl) as [(Hall & _) _].
  rewrite Forall_forall in Hall. by apply Hall.
Qed.

(** X2. Every param that [Params] returns has consumed at least two arguments,
    its name and its value: there are at most half as many params as
    arguments. *)
Theorem Params_length_bound (args : list value) (ps : list BindingParam) :
  Params args = Ret ps -> (2 * length ps <= length args)%nat.
Proof.
  unfold Params. intros H.
  destruct (paramsLoop parser0 args) as [st |] eqn:Hl; [| discriminate].
  injection H as <-.
  destruct (parserInv_loop args parser0 st parserInv_parser0 Hl) as [_ Hlen].
  cbn in Hlen. lia.
Qed.

Lemma paramsLoop_nil_panics (args : list value) :
  VNil ∈ args -> forall st, exists msg, paramsLoop st args = Panic msg.
Proof.
  induction args as [| a args IH]; intros Hin st; [by apply not_elem_of_nil in Hin |].
  cbn. apply elem_of_cons in Hin as [<- | Hin].
  - cbn. eauto.
  - destruct (paramsStep st a) as [st1 | msg]; cbn; [by apply IH | eauto].
Qed.

(** X3. A nil argument anywhere in the list makes [Params] panic: the kind of
    its type is asked for, and it has no type. *)
Theorem Params_nil_argument_panics (args : list value) :
  VNil ∈ args -> exists msg, Params args = Panic msg.
Proof.
  intros Hin. unfold Params.
  destruct (paramsLoop_nil_panics args Hin parser0) as [msg ->]. cbn. eauto.
Qed.


Lemma paramsStep_name (st : parser) (s : string) :
  betweenTuples st ->
  paramsStep st (VString s)
  = Ret (mkParser (bindingParams st) (set_name s emptyParam) 1 false).
Proof.
  destruct st as [ps cb cba skip]. intros [Hsk Hc]. cbn in Hsk, Hc. subst skip.
  unfold paramsStep. cbn. unfold stringCase. cbn.
  destruct Hc as [[-> ->] | [-> | ->]]; reflexivity.
Qed.

Lemma paramsStep_value (ps : list BindingParam) (cb : BindingParam) (v : value)
    (ty : rtype) (iflag : bool) (defV : value) :
  getReflectType v = Ret (Some ty, iflag, defV) ->
  paramsStep (mkParser ps cb 1 false) v
  = Ret (setDefaultValue (Some ty) iflag defV (mkParser ps cb 1 false)).
Proof.
  intros Hg. unfold paramsStep. rewrite Hg. cbn.
  destruct (kindOf ty); reflexivity.
Qed.

Lemma paramsStep_required (ps : list BindingParam) (lastP cb : BindingParam)
    (r : bool) :
  paramsStep (mkParser (ps ++ [lastP]) cb 2 false) (VBool r)
  = Ret (mkParser (ps ++ [set_required r lastP]) cb 3 false).
Proof. unfold paramsStep. cbn. by rewrite updLast_snoc. Qed.

Lemma paramsStep_variadic (ps : list BindingParam) (lastP cb : BindingParam)
    (v : bool) :
  paramsStep (mkParser (ps ++ [lastP]) cb 3 false) (VBool v)
  = Ret (mkParser
           (ps ++ [if v then set_required false (set_variadic v lastP)
                   else set_variadic v lastP])
           emptyParam 0 false).
Proof. unfold paramsStep. cbn. rewrite updLast_snoc. by destruct v. Qed.

Lemma paramsLoop_tuple (tu : tuple) (p : BindingParam) (rest : list value)
    (st : parser) :
  betweenTuples st -> tupleParam tu = Some p ->
  exists st', paramsLoop st (tupleArgs tu ++ rest) = paramsLoop st' rest
              /\ bindingParams st' = bindingParams st ++ [p]
              /\ betweenTuples st'.
Proof.
  intros Hb Hp. destruct tu as [n v fl]. unfold tupleParam in Hp. cbn in Hp.
  destruct (getReflectType v) as [[[[ty |] iflag] defV] |] eqn:Hg; try discriminate.
  injection Hp as <-.
  unfold tupleArgs. cbn [tname tvalue tflags app paramsLoop].
  rewrite (paramsStep_name st n Hb). cbn [mbind result_bind].
  rewrite (paramsStep_value _ _ v ty iflag defV Hg). cbn [mbind result_bind].
  unfold setDefaultValue. cbn [bindingParams currentBinding skipUntilName name
    variadic required set_name emptyParam].
  destruct fl as [| r | r vd]; cbn [app paramsLoop].
  - eexists. split; [reflexivity |]. split; [reflexivity |].
    split; cbn; auto.
  - rewrite paramsStep_required. cbn [mbind result_bind].
    eexists. split; [reflexivity |]. split; [reflexivity |].
    split; cbn; auto.
  - rewrite paramsStep_required. cbn [mbind result_bind].
    rewrite paramsStep_variadic. cbn [mbind result_bind].
    eexists. split; [reflexivity |]. split; [by destruct vd |].
    split; cbn; auto.
Qed.

(** X4. Arguments written as a sequence of complete tuples (name, value,
    optionally required, optionally variadic), each value with a type, are
    parsed into exactly one param per tuple, in order, with the name, the
    default, the type and the flags of the tuple; a true variadic flag
    overrides the required flag. *)
Theorem Params_tuples (tuples : list tuple) (ps : list BindingParam) :
  mapM tupleParam tuples = Some ps ->
  Params (tuples ≫= tupleArgs) = Ret ps.
Proof.
  intros Hm. unfold Params.
  assert (H : forall tuples ps st, betweenTuples st ->
            mapM tupleParam tuples = Some ps ->
            exists st', paramsLoop st (tuples ≫= tupleArgs) = Ret st'
                        /\ bindingParams st' = bindingParams st ++ ps).
  { clear. induction tuples as [| tu tuples IH]; intros ps st Hb Hm.
    - injection Hm as <-. exists st. cbn. by rewrite app_nil_r.
    - cbn in Hm. destruct (tupleParam tu) as [p |] eqn:Hp; [| discriminate].
      cbn in Hm. destruct (mapM tupleParam tuples) as [ps' |] eqn:Hps; [| discriminate].
      injection Hm as <-.
      destruct (paramsLoop_tuple tu p (tuples ≫= tupleArgs) st Hb Hp)
        as (st1 & Hl & Hbp & Hb1).
      destruct (IH ps' st1 Hb1 eq_refl) as (st' & Hl' & Hbp').
      exists st'. split.
      + change ((tu :: tuples) ≫= tupleArgs)
          with (tupleArgs tu ++ (tuples ≫= tupleArgs)).
        by rewrite Hl.
      + rewrite Hbp', Hbp. by rewrite <- app_assoc. }
  destruct (H tuples ps parser0) as (st' & -> & Hbp); [| done |].
  - split; cbn; auto.
  - cbn. by rewrite Hbp.
Qed.

Lemma Params_tuples_witness :
  Params [VString "page"; VInt 1; VBool true;
          VString "greeting"; VString "hello";
          VString "ids"; VSlice TInt []; VBool true; VBool true]
  = Ret [mkParam "page" false true (VInt 1) (Some TInt) false;
         mkParam "greeting" false false (VString "hello") (Some TString) false;
         mkParam "ids" true false (VSlice TInt []) (Some (TSlice TInt)) false].
Proof.
  exact (Params_tuples
           [mkTuple "page" (VInt 1) (RequiredFlag true);
            mkTuple "greeting" (VString "hello") NoFlags;
            mkTuple "ids" (VSlice TInt []) (RequiredVariadicFlags true true)]
           _ eq_refl).
Defined.

(** The flags [(true, true)] give a variadic param that is not required. *)
Lemma Params_flags_exclusive_witness :
  Params [VString "ids"; VSlice TInt []; VBool true; VBool true]
  = Ret [mkParam "ids" true false (VSlice TInt []) (Some (TSlice TInt)) false]
  /\ required (mkParam "ids" true false (VSlice TInt []) (Some (TSlice TInt)) false)
     = false.
Proof.
  split; [reflexivity |].
  apply (Params_flags_exclusive
           [VString "ids"; VSlice TInt []; VBool true; VBool true]
           [mkParam "ids" true false (VSlice TInt []) (Some (TSlice TInt)) false]);
    [reflexivity | by left | reflexivity].
Defined.

(** Five arguments give two params. *)
Lemma Params_length_bound_witness :
  Params [VString "page"; VInt 1; VBool true; VString "greeting"; VString "hello"]
  = Ret [mkParam "page" false true (VInt 1) (Some TInt) false;
         mkParam "greeting" false false (VString "hello") (Some TString) false]
  /\ (2 * 2 <= 5)%nat.
Proof.
  split; [reflexivity |].
  exact (Params_length_bound
           [VString "page"; VInt 1; VBool true; VString "greeting"; VString "hello"]
           [mkParam "page" false true (VInt 1) (Some TInt) false;
            mkParam "greeting" false false (VString "hello") (Some TString) false]
           eq_refl).
Defined.

(** A nil default value. *)
Lemma Params_nil_argument_panics_witness :
  exists msg, Params [VString "a"; VNil] = Panic msg.
Proof.
  apply Params_nil_argument_panics. right. left.
Defined.

(** ** The structural check *)

Lemma checkParamsLoop_names (params : list BindingParam) :
  forall len i m lr,
    checkParamsLoop len i m lr params = Ret None ->
    NoDup (name <$> params) /\ forall p, p ∈ params -> m !! name p = None.
Proof.
  induction params as [| param rest IH]; intros len i m lr Hc.
  { split; [constructor | intros p Hp; by apply not_elem_of_nil in Hp]. }
  cbn in Hc.
  destruct (m !! name param) eqn:Hm; [discriminate |].
  assert (Hgo : exists lr', checkParamsLoop len (S i) (<[name param := i]> m) lr' rest
                            = Ret None).
  { destruct (required param).
    - destruct (lr <=? Z.of_nat i - 2); [discriminate | eauto].
    - destruct (variadic param); [| eauto].
      destruct (negb (Z.of_nat i =? len - 1)); [discriminate |].
      destruct (_ && _); [discriminate |].
      destruct (Value_Len (defaultValue param)); cbn in Hc; [| discriminate].
      destruct (negb (a =? 0)); [discriminate | eauto]. }
  destruct Hgo as [lr' Hgo].
  destruct (IH _ _ _ _ Hgo) as [Hnd Hfresh].
  assert (Hrest : forall q, q ∈ rest -> name q <> name param /\ m !! name q = None).
  { intros q Hq. specialize (Hfresh q Hq).
    destruct (decide (name param = name q)) as [Heq | Hne].
    - rewrite Heq, lookup_insert_eq in Hfresh. discriminate.
    - rewrite lookup_insert_ne in Hfresh by done. split; [congruence | done]. }
  split.
  - cbn. constructor; [| done].
    intros Hin. apply list_elem_of_fmap in Hin as (q & Hnq & Hq).
    destruct (Hrest q Hq) as [Hne _]. congruence.
  - intros p Hp. apply elem_of_cons in Hp as [-> | Hp]; [done |].
    by destruct (Hrest p Hp).
Qed.

(** X5. The names of a list that [checkParams] accepts are pairwise different. *)
Theorem checkParams_unique_names (params : list BindingParam) :
  checkParams params = Ret None -> NoDup (name <$> params).
Proof. intros H. by destruct (checkParamsLoop_names _ _ _ _ _ H). Qed.

Lemma checkParamsLoop_schema_error (params : list BindingParam) :
  forall len i m lr e,
    checkParamsLoop len i m lr params = Ret (Some e) -> is_schema_error e = true.
Proof.
  induction params as [| param rest IH]; intros len i m lr e Hc; [discriminate |].
  cbn in Hc.
  destruct (m !! name param); [by injection Hc as <- |].
  destruct (required param).
  - destruct (lr <=? Z.of_nat i - 2); [by injection Hc as <- | by eapply IH].
  - destruct (variadic param); [| by eapply IH].
    destruct (negb (Z.of_nat i =? len - 1)); [by injection Hc as <- |].
    destruct (_ && _); [by injection Hc as <- |].
    destruct (Value_Len (defaultValue param)); cbn in Hc; [| discriminate].
    destruct (negb (a =? 0)); [by injection Hc as <- | by eapply IH].
Qed.

(** X6. A list in which a name occurs twice is rejected by [checkParams], with
    a structural error. *)
Theorem checkParams_rejects_duplicate_names (params : list BindingParam) :
  ~ NoDup (name <$> params) ->
  exists e, checkParams params = Ret (Some e) /\ is_schema_error e = true.
Proof.
  intros Hdup. destruct (checkParams_total params) as [[e |] Hr].
  - exists e. split; [done |]. by eapply checkParamsLoop_schema_error.
  - by apply checkParams_unique_names in Hr.
Qed.

Lemma checkParamsLoop_required_run (params : list BindingParam) :
  forall len i m lr,
    lr < Z.of_nat i \/ lr = 0 ->
    checkParamsLoop len i m lr params = Ret None ->
    forall j p q, params !! j = Some p -> params !! S j = Some q ->
                  required q = true -> (1 <= i + j)%nat -> required p = true.
Proof.
  induction params as [| param rest IH]; intros len i m lr Hlr Hc j p q Hp Hq Hreq Hij;
    [discriminate |].
  cbn in Hc.
  destruct (m !! name param); [discriminate |].
  destruct j as [| j]; cbn in Hp, Hq.
  - injection Hp as ->. destruct (required p) eqn:Hrp; [done |].
    (* the head is not required: the next one is checked against [lr] *)
    assert (Hnext : checkParamsLoop len (S i) (<[name p := i]> m) lr rest = Ret None).
    { destruct (variadic p); [| done].
      destruct (negb (Z.of_nat i =? len - 1)); [discriminate |].
      destruct (_ && _); [discriminate |].
      destruct (Value_Len (defaultValue p)); cbn in Hc; [| discriminate].
      by destruct (negb (a =? 0)). }
    destruct rest as [| q' rest']; [discriminate |]. cbn in Hq. injection Hq as ->.
    cbn in Hnext.
    destruct (<[name p:=i]> m !! name q); [discriminate |].
    rewrite Hreq in Hnext.
    destruct (lr <=? Z.of_nat (S i) - 2) eqn:E; [discriminate |].
    apply Z.leb_gt in E. lia.
  - assert (Hgo : exists m' lr', (lr' < Z.of_nat (S i) \/ lr' = 0)
                    /\ checkParamsLoop len (S i) m' lr' rest = Ret None).
    { destruct (required param).
      - destruct (lr <=? Z.of_nat i - 2); [discriminate |].
        eexists _, _. split; [| exact Hc]. lia.
      - destruct (variadic param).
        + destruct (negb (Z.of_nat i =? len - 1)); [discriminate |].
          destruct (_ && _); [discriminate |].
          destruct (Value_Len (defaultValue param)); cbn in Hc; [| discriminate].
          destruct (negb (a =? 0)); [discriminate |].
          eexists _, _. split; [| exact Hc]. lia.
        + eexists _, _. split; [| exact Hc]. lia. }
    destruct Hgo as (m' & lr' & Hlr' & Hgo).
    eapply (IH _ _ _ _ Hlr' Hgo j p q); eauto. lia.
Qed.

(** X7. In a list that [checkParams] accepts, a required param at an index of
    2 or more has a required param right before it: from index 1 on, no
    required param follows an optional one. Index 0 is exempt, because the
    search starts with 0 as the index of the last required param. *)
Theorem checkParams_required_run (params : list BindingParam) (j : nat)
    (p q : BindingParam) :
  checkParams params = Ret None ->
  params !! j = Some p -> params !! S j = Some q ->
  required q = true -> (1 <= j)%nat -> required p = true.
Proof.
  intros Hc Hp Hq Hr Hj.
  eapply (checkParamsLoop_required_run params _ 0%nat ∅ 0); eauto.
Qed.

Lemma emptySequence_of_check (v : value) (n : Z) :
  negb (bool_decide (Value_Kind v = KSlice)) && negb (bool_decide (Value_Kind v = KArray))
  = false ->
  Value_Len v = Ret n -> negb (n =? 0) = false -> emptySequence v.
Proof.
  intros Hk Hl Hn. apply negb_false_iff, Z.eqb_eq in Hn. subst n.
  destruct v; cbn in Hk; try discriminate; cbn in Hl; injection Hl as Hl;
    destruct xs; cbn in Hl; try lia; eexists; eauto.
Qed.

Lemma checkParamsLoop_variadic_default (params : list BindingParam) :
  forall len i m lr,
    checkParamsLoop len i m lr params = Ret None ->
    forall p, p ∈ params -> variadic p = true -> required p = false ->
              emptySequence (defaultValue p).
Proof.
  induction params as [| param rest IH]; intros len i m lr Hc p Hp Hv Hr;
    [by apply not_elem_of_nil in Hp |].
  cbn in Hc.
  destruct (m !! name param); [discriminate |].
  apply elem_of_cons in Hp as [<- | Hp].
  - rewrite Hr, Hv in Hc.
    destruct (negb (Z.of_nat i =? len - 1)); [discriminate |].
    destruct (_ && _) eqn:Hk; [discriminate |].
    destruct (Value_Len (defaultValue p)) as [n |] eqn:Hl; cbn in Hc; [| discriminate].
    destruct (negb (n =? 0)) eqn:Hn; [discriminate |].
    by eapply emptySequence_of_check.
  - assert (Hgo : exists m' lr', checkParamsLoop len (S i) m' lr' rest = Ret None).
    { destruct (required param).
      - destruct (lr <=? Z.of_nat i - 2); [discriminate | eauto].
      - destruct (variadic param); [| eauto].
        destruct (negb (Z.of_nat i =? len - 1)); [discriminate |].
        destruct (_ && _); [discriminate |].
        destruct (Value_Len (defaultValue param)); cbn in Hc; [| discriminate].
        destruct (negb (a =? 0)); [discriminate | eauto]. }
    destruct Hgo as (m' & lr' & Hgo). by eapply IH.
Qed.

(** X8. In a list that [checkParams] accepts, a variadic param that is not
    required is the last param, and its default value is an empty slice or
    array. *)
Theorem checkParams_variadic_tail (params : list BindingParam) (j : nat)
    (p : BindingParam) :
  checkParams params = Ret None ->
  params !! j = Some p -> variadic p = true -> required p = false ->
  S j = length params /\ emptySequence (defaultValue p).
Proof.
  intros Hc Hp Hv Hr. split.
  - pose proof (checkParamsLoop_variadic_last _ _ _ _ _ Hc j p Hp Hv Hr). lia.
  - eapply checkParamsLoop_variadic_default; eauto.
    by eapply list_elem_of_lookup_2.
Qed.

Lemma fresh_names_step (m : gmap string nat) (p : BindingParam) (i : nat)
    (rest : list BindingParam) :
  NoDup (name <$> p :: rest) ->
  (forall q, q ∈ p :: rest -> m !! name q = None) ->
  m !! name p = None /\ NoDup (name <$> rest)
  /\ forall q, q ∈ rest -> <[name p := i]> m !! name q = None.
Proof.
  intros Hnd Hfresh. cbn in Hnd. apply NoDup_cons in Hnd as [Hnin Hnd].
  split; [apply Hfresh; by left |]. split; [done |].
  intros q Hq. rewrite lookup_insert_ne.
  - apply Hfresh. by right.
  - intros Heq. apply Hnin. rewrite Heq. apply list_elem_of_fmap. eauto.
Qed.

Lemma checkParamsLoop_accepts_tail (tail : list BindingParam) (len : Z) (i : nat)
    (m : gmap string nat) (lr : Z) :
  (tail = []
   \/ exists v, tail = [v] /\ required v = false /\ variadic v = true
                /\ emptySequence (defaultValue v)) ->
  len = Z.of_nat (i + length tail) ->
  (forall q, q ∈ tail -> m !! name q = None) ->
  checkParamsLoop len i m lr tail = Ret None.
Proof.
  intros [-> | (v & -> & Hr & Hv & (e & Hd))] Hlen Hfresh; [done |].
  cbn. rewrite (Hfresh v) by (by left). rewrite Hr, Hv.
  assert ((Z.of_nat i =? len - 1) = true) as -> by (apply Z.eqb_eq; cbn in Hlen; lia).
  cbn. destruct Hd as [-> | ->]; reflexivity.
Qed.

Lemma checkParamsLoop_accepts_opts (opts tail : list BindingParam) :
  forall len i m lr,
    Forall (fun p => required p = false /\ variadic p = false) opts ->
    (tail = []
     \/ exists v, tail = [v] /\ required v = false /\ variadic v = true
                  /\ emptySequence (defaultValue v)) ->
    len = Z.of_nat (i + length (opts ++ tail)) ->
    NoDup (name <$> opts ++ tail) ->
    (forall q, q ∈ opts ++ tail -> m !! name q = None) ->
    checkParamsLoop len i m lr (opts ++ tail) = Ret None.
Proof.
  induction opts as [| p opts IH]; intros len i m lr Hopts Htail Hlen Hnd Hfresh.
  { by apply checkParamsLoop_accepts_tail. }
  apply Forall_cons in Hopts as [[Hr Hv] Hopts].
  destruct (fresh_names_step m p i (opts ++ tail) Hnd Hfresh) as (Hp & Hnd' & Hfresh').
  cbn. rewrite Hp, Hr, Hv. apply IH; try done. cbn in Hlen. lia.
Qed.

Lemma checkParamsLoop_accepts_reqs (reqs opts tail : list BindingParam) :
  forall len i m lr,
    Z.of_nat i - 1 <= lr ->
    orderedSchema reqs opts tail ->
    len = Z.of_nat (i + length (reqs ++ opts ++ tail)) ->
    NoDup (name <$> reqs ++ opts ++ tail) ->
    (forall q, q ∈ reqs ++ opts ++ tail -> m !! name q = None) ->
    checkParamsLoop len i m lr (reqs ++ opts ++ tail) = Ret None.
Proof.
  induction reqs as [| p reqs IH]; intros len i m lr Hlr (Hreqs & Hopts & Htail)
    Hlen Hnd Hfresh.
  { cbn [app] in *. by apply checkParamsLoop_accepts_opts. }
  apply Forall_cons in Hreqs as [Hr Hreqs].
  destruct (fresh_names_step m p i (reqs ++ opts ++ tail) Hnd Hfresh)
    as (Hp & Hnd' & Hfresh').
  cbn. rewrite Hp, Hr.
  assert ((lr <=? Z.of_nat i - 2) = false) as -> by (apply Z.leb_gt; lia).
  apply IH; try done; try lia; try (cbn in Hlen; lia).
Qed.

(** X9. [checkParams] accepts every list in the documented order: required
    params, then optional non-variadic ones, then at most one non-required
    variadic param whose default is an empty slice or array, provided the
    names are pairwise different. *)
Theorem checkParams_accepts_ordered_schema (reqs opts tail : list BindingParam) :
  orderedSchema reqs opts tail ->
  NoDup (name <$> reqs ++ opts ++ tail) ->
  checkParams (reqs ++ opts ++ tail) = Ret None.
Proof.
  intros Hord Hnd. unfold checkParams.
  apply checkParamsLoop_accepts_reqs; done.
Qed.

(** The schema of §8 passes the check, so its names differ. *)
Lemma checkParams_unique_names_witness :
  checkParams schemaABC = Ret None /\ NoDup (name <$> schemaABC).
Proof.
  split; [reflexivity |]. exact (checkParams_unique_names schemaABC eq_refl).
Defined.

(** Two params named a. *)
Lemma checkParams_rejects_duplicate_names_witness :
  exists e, checkParams dupParams = Ret (Some e) /\ is_schema_error e = true.
Proof.
  apply checkParams_rejects_duplicate_names.
  intros H. apply NoDup_cons in H as [Hn _]. apply Hn. left.
Defined.

(** Three required params in a row. *)
Lemma checkParams_required_run_witness :
  checkParams [intParam "a" true; intParam "b" true; intParam "c" true] = Ret None
  /\ required (intParam "b" true) = true.
Proof.
  split; [reflexivity |].
  apply (checkParams_required_run
           [intParam "a" true; intParam "b" true; intParam "c" true] 1
           (intParam "b" true) (intParam "c" true));
    [reflexivity | reflexivity | reflexivity | reflexivity | lia].
Defined.

(** The variadic param c of the schema of §8. *)
Lemma checkParams_variadic_tail_witness :
  schemaABC !! 2%nat
  = Some (mkParam "c" true false (VSlice TInt []) (Some (TSlice TInt)) false)
  /\ 3%nat = length schemaABC
  /\ emptySequence (VSlice TInt []).
Proof.
  split; [reflexivity |].
  apply (checkParams_variadic_tail schemaABC 2
           (mkParam "c" true false (VSlice TInt []) (Some (TSlice TInt)) false));
    reflexivity.
Defined.

(** The schema of §8 is in the documented order. *)
Lemma checkParams_accepts_ordered_schema_witness :
  checkParams schemaABC = Ret None.
Proof.
  apply (checkParams_accepts_ordered_schema
           [mkParam "a" false true (VInt 0) (Some TInt) false]
           [mkParam "b" false false (VInt 1) (Some TInt) false]
           [mkParam "c" true false (VSlice TInt []) (Some (TSlice TInt)) false]).
  - split; [| split].
    + constructor; [reflexivity | constructor].
    + constructor; [split; reflexivity | constructor].
    + right. eexists. split; [reflexivity |]. split; [reflexivity |].
      split; [reflexivity |]. exists TInt. by left.
  - apply (bool_decide_unpack _). vm_compute. exact I.
Defined.

(** ** The first failure of the argument validator *)

Lemma typeCheckLoop_fixed_prefix (args : list value) :
  forall pre i acc rest,
    fixedParams pre ->
    suppliesRequired pre (drop i args) = true ->
    wellTyped pre (drop i args) = true ->
    typeCheckLoop args i (pre ++ rest) acc
    = typeCheckLoop args (i + length pre) rest (acc ++ normalize pre (drop i args)).
Proof.
  induction pre as [| param pre IH]; intros i acc rest Hfix Hsup Hty.
  { cbn. by rewrite Nat.add_0_r, app_nil_r. }
  apply Forall_cons in Hfix as [Hv Hfix].
  cbn [app length typeCheckLoop normalize]. rewrite Hv.
  replace (i + S (length pre))%nat with (S i + length pre)%nat by lia.
  case_bool_decide as Hi.
  - destruct (lookup_lt_is_Some_2 args i Hi) as [a Ha].
    rewrite (drop_S _ _ _ Ha) in Hsup, Hty |- *.
    cbn in Hsup, Hty. rewrite Hv in Hty. rewrite Ha.
    apply andb_true_iff in Hty as [Hacc Hty]. unfold accepts in Hacc.
    destruct (typeCheck param a) as [[ty pass] |]; [| discriminate].
    cbn. subst pass. cbn. rewrite IH by done. by rewrite <- app_assoc.
  - assert (Hd : drop i args = []) by (apply drop_ge; lia).
    assert (Hd' : drop (S i) args = []) by (apply drop_ge; lia).
    rewrite Hd in Hsup, Hty |- *. cbn in Hsup.
    apply andb_true_iff in Hsup as [Hreq Hsup].
    apply negb_true_iff in Hreq. rewrite Hreq. cbn.
    rewrite IH; rewrite ?Hd'; try done.
    + by rewrite <- app_assoc.
    + by destruct pre.
Qed.

Lemma typeCheckLoop_fixed_prefix0 (args : list value) (pre rest : list BindingParam) :
  fixedParams pre ->
  suppliesRequired pre args = true ->
  wellTyped pre args = true ->
  typeCheckLoop args 0 (pre ++ rest) []
  = typeCheckLoop args (length pre) rest (normalize pre args).
Proof.
  intros Hfix Hsup Hty. exact (typeCheckLoop_fixed_prefix args pre 0 [] rest Hfix Hsup Hty).
Qed.

Lemma TypeCheckArgs_loop (b : bindingProto) (σ : store) (m : BindingParamsMethod)
    (params : list BindingParam) (args : list value) :
  paramsMethod b = Some m -> m (viewOf b σ) = params -> paramErr b = None ->
  params <> [] ->
  TypeCheckArgs b σ args = typeCheckLoop args 0 params [].
Proof.
  intros Hm Hparams Herr Hne.
  unfold TypeCheckArgs, Params_, proto_checkParams. rewrite Hm, Hparams.
  destruct (checkParams_total params) as [r Hr].
  destruct (checkedParams b); cbn; rewrite ?Hr; cbn; rewrite Herr;
    (case_bool_decide as Hlen; [done | destruct params; [done | cbn in Hlen; lia]]).
Qed.

Lemma suppliesRequired_enough (params : list BindingParam) :
  forall args, (length params <= length args)%nat -> suppliesRequired params args = true.
Proof.
  induction params as [| p rest IH]; intros args Hlen; [done |].
  destruct args as [| a args]; cbn in *; [lia |]. apply IH. lia.
Qed.

Lemma normalize_fixed_take (params : list BindingParam) :
  forall args, fixedParams params -> (length params <= length args)%nat ->
    normalize params args = take (length params) args.
Proof.
  induction params as [| p rest IH]; intros args Hfix Hlen; [done |].
  apply Forall_cons in Hfix as [Hv Hfix].
  destruct args as [| a args]; cbn in *; [lia |].
  rewrite Hv. f_equal. apply IH; [done | lia].
Qed.

(** X10. A required param without an argument: the error names the param and
    its position, and comes with the arguments and defaults gathered so far. *)
Theorem TypeCheckArgs_missing_required (b : bindingProto) (σ : store)
    (m : BindingParamsMethod) (pre post : list BindingParam) (p : BindingParam)
    (args : list value) :
  paramsMethod b = Some m -> m (viewOf b σ) = pre ++ p :: post ->
  paramErr b = None ->
  fixedParams pre ->
  suppliesRequired pre args = true ->
  wellTyped pre args = true ->
  (length args <= length pre)%nat ->
  required p = true ->
  TypeCheckArgs b σ args
  = Ret (normalize pre args, Some (ERequiredNotProvided (name p) (length pre))).
Proof.
  intros Hm Hparams Herr Hfix Hsup Hty Hlen Hreq.
  rewrite (TypeCheckArgs_loop b σ m (pre ++ p :: post) args) by
    (try done; by destruct pre).
  rewrite (typeCheckLoop_fixed_prefix0 args pre (p :: post)) by done.
  cbn. case_bool_decide; [lia |]. by rewrite Hreq.
Qed.

(** X11. An argument of the wrong type in a fixed slot: the error names the
    param, its type, the position and the argument's type, and comes with the
    arguments before it. *)
Theorem TypeCheckArgs_type_mismatch (b : bindingProto) (σ : store)
    (m : BindingParamsMethod) (pre post : list BindingParam) (p : BindingParam)
    (args : list value) (a : value) (ty : option rtype) :
  paramsMethod b = Some m -> m (viewOf b σ) = pre ++ p :: post ->
  paramErr b = None ->
  fixedParams pre -> variadic p = false ->
  wellTyped pre args = true ->
  args !! length pre = Some a ->
  typeCheck p a = Ret (ty, false) ->
  TypeCheckArgs b σ args
  = Ret (take (length pre) args,
         Some (EParamType (name p) (Type_ p) (length pre) ty)).
Proof.
  intros Hm Hparams Herr Hfix Hv Hty Ha Hbad.
  pose proof (lookup_lt_Some _ _ _ Ha) as Hlt.
  rewrite (TypeCheckArgs_loop b σ m (pre ++ p :: post) args) by
    (try done; by destruct pre).
  rewrite (typeCheckLoop_fixed_prefix0 args pre (p :: post)); try done.
  - cbn. case_bool_decide; [| lia]. rewrite Hv, Ha, Hbad. cbn.
    rewrite normalize_fixed_take; [done | done | lia].
  - apply suppliesRequired_enough. cbn. lia.
Qed.

Lemma checkVariadic_first_mismatch (p : BindingParam) (e : rtype) (a : value)
    (ty : option rtype) (rest : list value) :
  typeCheck p a = Ret (ty, false) ->
  forall good j acc,
    forallb (accepts p) good = true ->
    checkVariadic p e j (good ++ a :: rest) acc
    = Ret (acc ++ good, Some (EVariadicElemType (name p) e (j + length good) ty)).
Proof.
  intros Hbad. induction good as [| g good IH]; intros j acc Hall; cbn.
  - rewrite Hbad. cbn. by rewrite app_nil_r, Nat.add_0_r.
  - cbn in Hall. apply andb_true_iff in Hall as [Hg Hall]. unfold accepts in Hg.
    destruct (typeCheck p g) as [[ty' pass] |]; [| discriminate].
    cbn. subst pass. cbn. rewrite IH by done.
    rewrite <- app_assoc. cbn [app length].
    by replace (S j + length good)%nat with (j + S (length good))%nat by lia.
Qed.

(** X12. An argument of the wrong type in the variadic tail: the position in
    the error counts from the start of the tail, not from the first argument. *)
Theorem TypeCheckArgs_variadic_mismatch (b : bindingProto) (σ : store)
    (m : BindingParamsMethod) (pre post : list BindingParam) (p : BindingParam)
    (e : rtype) (fixed good rest : list value) (a : value) (ty : option rtype) :
  paramsMethod b = Some m -> m (viewOf b σ) = pre ++ p :: post ->
  paramErr b = None ->
  fixedParams pre -> variadic p = true ->
  Type_Elem (Type_ p) = Ret e ->
  length fixed = length pre ->
  wellTyped pre fixed = true ->
  forallb (accepts p) good = true ->
  typeCheck p a = Ret (ty, false) ->
  TypeCheckArgs b σ (fixed ++ good ++ a :: rest)
  = Ret (fixed ++ good,
         Some (EVariadicElemType (name p) e (length good) ty)).
Proof.
  intros Hm Hparams Herr Hfix Hv He Hlen Hty Hgood Hbad.
  rewrite (TypeCheckArgs_loop b σ m (pre ++ p :: post) _) by
    (try done; by destruct pre).
  assert (Hty' : wellTyped pre (fixed ++ good ++ a :: rest) = true).
  { clear -Hty Hlen Hfix. revert fixed Hty Hlen.
    induction pre as [| q pre IH]; intros fixed Hty Hlen; [done |].
    apply Forall_cons in Hfix as [Hq Hfix].
    destruct fixed as [| f fixed]; [done |]. cbn in *. rewrite Hq in *.
    apply andb_true_iff in Hty as [-> Hty]. cbn. apply IH; [done | done | lia]. }
  rewrite (typeCheckLoop_fixed_prefix0 _ pre (p :: post)); try done.
  - cbn [typeCheckLoop]. rewrite length_app, length_app. cbn [length].
    case_bool_decide; [| lia]. rewrite Hv, He. cbn.
    rewrite <- Hlen, drop_app_length.
    rewrite (checkVariadic_first_mismatch p e a ty rest Hbad good 0) by done.
    rewrite normalize_fixed_take by (try done; rewrite length_app; lia).
    by rewrite <- Hlen, take_app_length.
  - apply suppliesRequired_enough. rewrite length_app. cbn. lia.
Qed.

(** The schema of §8 without arguments: a is missing. *)
Lemma TypeCheckArgs_missing_required_witness :
  TypeCheckArgs protoABC storeABC []
  = Ret ([], Some (ERequiredNotProvided "a" 0)).
Proof.
  apply (TypeCheckArgs_missing_required protoABC storeABC (fun _ => schemaABC)
           [] [mkParam "b" false false (VInt 1) (Some TInt) false;
               mkParam "c" true false (VSlice TInt []) (Some (TSlice TInt)) false]
           (mkParam "a" false true (VInt 0) (Some TInt) false) []);
    try reflexivity.
  all: try constructor.
Defined.

(** A string where b expects an int. *)
Lemma TypeCheckArgs_type_mismatch_witness :
  TypeCheckArgs protoABC storeABC [VInt 5; VString "x"]
  = Ret ([VInt 5], Some (EParamType "b" (Some TInt) 1 (Some TString))).
Proof.
  apply (TypeCheckArgs_type_mismatch protoABC storeABC (fun _ => schemaABC)
           [mkParam "a" false true (VInt 0) (Some TInt) false]
           [mkParam "c" true false (VSlice TInt []) (Some (TSlice TInt)) false]
           (mkParam "b" false false (VInt 1) (Some TInt) false)
           [VInt 5; VString "x"] (VString "x") (Some TString));
    try reflexivity.
  constructor; [reflexivity | constructor].
Defined.

(** A string as the second argument of the variadic tail: the error says
    argument 1, the fourth of the call. *)
Lemma TypeCheckArgs_variadic_mismatch_witness :
  TypeCheckArgs protoABC storeABC [VInt 5; VInt 1; VInt 2; VString "x"]
  = Ret ([VInt 5; VInt 1; VInt 2],
         Some (EVariadicElemType "c" TInt 1 (Some TString))).
Proof.
  apply (TypeCheckArgs_variadic_mismatch protoABC storeABC (fun _ => schemaABC)
           [mkParam "a" false true (VInt 0) (Some TInt) false;
            mkParam "b" false false (VInt 1) (Some TInt) false]
           []
           (mkParam "c" true false (VSlice TInt []) (Some (TSlice TInt)) false)
           TInt [VInt 5; VInt 1] [VInt 2] [] (VString "x") (Some TString));
    try reflexivity.
  constructor; [reflexivity | constructor; [reflexivity | constructor]].
Defined.

(** The error for the missing a is a validation error. *)
Lemma TypeCheckArgs_only_validation_errors_witness :
  TypeCheckArgs protoABC storeABC [] = Ret ([], Some (ERequiredNotProvided "a" 0))
  /\ is_validation_error (ERequiredNotProvided "a" 0) = true
  /\ is_schema_error (ERequiredNotProvided "a" 0) = false.
Proof.
  split; [reflexivity |].
  exact (TypeCheckArgs_only_validation_errors protoABC storeABC [] []
           (ERequiredNotProvided "a" 0) eq_refl eq_refl).
Defined.

(** ** Attributes, [Execute] and [ArgsFromStrings] *)

Lemma evaluateLoop_untouched (b : bindingProto) (client : option Client) (k : string) :
  forall fs i acc σ,
    forallb (fun a => negb (writesKey client k a)) fs = true ->
    attrsOf b (evaluateLoop b client i fs acc σ).2 !! k = attrsOf b σ !! k.
Proof.
  induction fs as [| a fs IH]; intros i acc σ Hall; [done |].
  cbn in Hall. apply andb_true_iff in Hall as [Ha Hall]. cbn.
  unfold writesKey in Ha.
  destruct (a client) as [[k' v'] |]; [| by apply IH].
  rewrite IH by done. rewrite attrsOf_writeAttr.
  apply lookup_insert_ne. apply negb_true_iff in Ha.
  by apply bool_decide_eq_false in Ha.
Qed.

Lemma evaluateLoop_last_write (b : bindingProto) (client : option Client)
    (attr : Attr) (k : string) (v : value) (post : list Attr) :
  attr client = Ret (k, v) ->
  forallb (fun a => negb (writesKey client k a)) post = true ->
  forall pre i acc σ,
    attrsOf b (evaluateLoop b client i (pre ++ attr :: post) acc σ).2 !! k = Some v.
Proof.
  intros Hev Hpost. induction pre as [| a pre IH]; intros i acc σ; cbn.
  - rewrite Hev. rewrite evaluateLoop_untouched by done.
    rewrite attrsOf_writeAttr. apply lookup_insert_eq.
  - destruct (a client) as [[k' v'] |]; apply IH.
Qed.

(** X15. [evaluateAttrs]: the last attribute function that returns a key
    decides its value, and a key that no function returns keeps the value it
    had. *)
Theorem evaluateAttrs_last_write_wins (b : bindingProto) (client : option Client)
    (σ : store) (k : string) :
  (forall pre attr post v,
      attrFuncs b = pre ++ attr :: post ->
      attr client = Ret (k, v) ->
      forallb (fun a => negb (writesKey client k a)) post = true ->
      Attrs b (evaluateAttrs b client σ).2 !! k = Some v)
  /\ (forallb (fun a => negb (writesKey client k a)) (attrFuncs b) = true ->
      Attrs b (evaluateAttrs b client σ).2 !! k = Attrs b σ !! k).
Proof.
  unfold Attrs. rewrite evaluateAttrs_store. split.
  - intros pre attr post v -> Hev Hpost. by apply evaluateLoop_last_write.
  - intros Hall. by apply evaluateLoop_untouched.
Qed.

(** X16. [NewBinding]: the new cell holds every attribute function it was
    given, evaluated or not, has no cached error and is marked as not checked;
    its attribute map is a new one that holds the key of every function that
    evaluates without a client; no other cell changes. *)
Theorem NewBinding_cell (resT retT : rtype)
    (req : option BindingRequestMethod)
    (wr : option BindingResponseWrapperMethod)
    (un : option BindingResponseUnwrappedMethod)
    (rs : option BindingResponseMethod)
    (ps : option BindingParamsMethod) (pg : bool) (fs : list Attr) (σ : store) :
  let r := NewBinding resT retT req wr un rs ps pg fs σ in
  exists b,
    protos r.2 !! r.1 = Some b
    /\ protos σ !! r.1 = None
    /\ attrFuncs b = fs
    /\ paramsMethod b = ps /\ paramErr b = None /\ checkedParams b = false
    /\ nameSet b = false /\ Paginated b = pg
    /\ attrMaps σ !! attrs b = None
    /\ (forall attr k v, attr ∈ fs -> attr None = Ret (k, v) ->
          k ∈ dom (Attrs b r.2))
    /\ (forall p0, p0 <> r.1 -> protos r.2 !! p0 = protos σ !! p0)
    /\ (forall l, l <> attrs b -> attrMaps r.2 !! l = attrMaps σ !! l).
Proof.
  unfold NewBinding, allocAttrs, allocProto. cbn.
  set (l := fresh (dom (attrMaps σ))).
  set (b := mkProto resT retT req wr un rs None false ps pg "" false l fs).
  set (p := fresh (dom (protos σ))).
  set (σ2 := mkStore (<[p := b]> (protos σ)) (<[l := ∅]> (attrMaps σ))).
  rewrite evaluateAttrs_store.
  destruct (evaluateLoop_frame b None (attrFuncs b) 0%nat [] σ2) as (Hp & Hm & _).
  exists b. rewrite Hp. cbn.
  repeat split; try done.
  - apply lookup_insert_eq.
  - apply not_elem_of_dom. apply is_fresh.
  - apply not_elem_of_dom. apply is_fresh.
  - intros attr k v Hin Hev.
    exact (evaluateLoop_keys b None (attrFuncs b) 0%nat [] σ2 attr k v Hin Hev).
  - intros p0 Hp0. by apply lookup_insert_ne.
  - intros l0 Hl0. etrans; [exact (Hm l0 Hl0) |]. cbn. by apply lookup_insert_ne.
Qed.

Lemma runPipeline_store (b : bindingProto) (client : option Client)
    (args : list value) (σ : store) (r : value * option error * store) :
  runPipeline b client args σ = Ret r -> r.2 = (evaluateAttrs b client σ).2.
Proof.
  unfold runPipeline.
  set (σ1 := (evaluateAttrs b client σ).2).
  destruct (ResponseWrapper b σ1 args) as [wr [e |]]; [by intros [= <-] |].
  destruct (isZeroValue wr); [discriminate |].
  destruct client as [c |]; [| discriminate].
  destruct (Run c (Name b) (attrsOf b σ1) (Request b σ1 args) wr) as [wr' [e |]];
    [by intros [= <-] |].
  destruct (ResponseUnwrapped b σ1 wr' args) as [[un [e |]] |]; cbn;
    [by intros [= <-] | | discriminate].
  destruct (Response b σ1 un args); cbn; [by intros [= <-] | discriminate].
Qed.

(** X17. [Execute] and the heap: no cell changes and no attribute map but the
    receiver's, which only gains keys. When the type check fails nothing
    changes at all; when it passes, every attribute function that evaluates
    with the client has its key in the map afterwards. *)
Theorem Execute_frame (b : bindingProto) (client : option Client)
    (args : list value) (σ : store) (r : value * option error * store) :
  Execute b client args σ = Ret r ->
  protos r.2 = protos σ
  /\ (forall l, l <> attrs b -> attrMaps r.2 !! l = attrMaps σ !! l)
  /\ dom (Attrs b σ) ⊆ dom (Attrs b r.2)
  /\ (forall out e, TypeCheckArgs b σ args = Ret (out, Some e) -> r.2 = σ)
  /\ (forall out, TypeCheckArgs b σ args = Ret (out, None) ->
        forall attr k v, attr ∈ attrFuncs b -> attr client = Ret (k, v) ->
          k ∈ dom (Attrs b r.2)).
Proof.
  unfold Execute, Attrs.
  destruct (TypeCheckArgs b σ args) as [[args' [e |]] |]; cbn; [| | discriminate].
  - intros [= <-]. cbn. repeat split; done.
  - intros Hrun. apply runPipeline_store in Hrun. rewrite Hrun.
    rewrite evaluateAttrs_store.
    destruct (evaluateLoop_frame b client (attrFuncs b) 0%nat [] σ) as (Hp & Hm & Hd).
    repeat split; try done.
    intros out _ attr k v Hin Hev.
    exact (evaluateLoop_keys b client (attrFuncs b) 0%nat [] σ attr k v Hin Hev).
Qed.

(** X18. Whenever [Execute] returns an error, the response is the zero value
    of the return type and the error is the error of the first step that
    failed, wrapped with the context of that step: the type check, in which
    case the heap is as it was; or, the arguments having passed the check
    and the attributes having been evaluated, the response wrapper, the
    run of the client on the request and the wrapper, or the unwrapping of
    what the client left in the wrapper. *)
Theorem Execute_error_is_wrapped (b : bindingProto) (client : option Client)
    (args : list value) (σ σ' : store) (v : value) (e : error) :
  Execute b client args σ = Ret ((v, Some e), σ') ->
  v = zeroValue (RetT b)
  /\ ((exists out cause,
         TypeCheckArgs b σ args = Ret (out, Some cause)
         /\ e = EWrap WTypeCheck cause /\ σ' = σ)
      \/ exists args',
           TypeCheckArgs b σ args = Ret (args', None)
           /\ σ' = (evaluateAttrs b client σ).2
           /\ ((exists wr cause,
                  ResponseWrapper b σ' args' = (wr, Some cause)
                  /\ e = EWrap WResponseWrapper cause)
               \/ exists c wr,
                    client = Some c
                    /\ ResponseWrapper b σ' args' = (wr, None)
                    /\ ((exists wr' cause,
                           Run c (Name b) (attrsOf b σ') (Request b σ' args') wr
                           = (wr', Some cause)
                           /\ e = EWrap WRun cause)
                        \/ exists wr' un cause,
                             Run c (Name b) (attrsOf b σ') (Request b σ' args') wr
                             = (wr', None)
                             /\ ResponseUnwrapped b σ' wr' args'
                                = Ret (un, Some cause)
                             /\ e = EWrap WResponseUnwrapped cause))).
Proof.
  unfold Execute.
  destruct (TypeCheckArgs b σ args) as [[args' [e0 |]] |]; cbn; [| | discriminate].
  { intros [= <- <- <-]. split; [done |]. left. by exists args', e0. }
  unfold runPipeline.
  set (σ1 := (evaluateAttrs b client σ).2).
  destruct (ResponseWrapper b σ1 args') as [wr [e0 |]] eqn:Hwr.
  { intros [= <- <- <-]. split; [done |]. right. exists args'.
    split; [done |]. split; [done |]. left. by exists wr, e0. }
  destruct (isZeroValue wr); [discriminate |].
  destruct client as [c |]; [| discriminate].
  destruct (Run c (Name b) (attrsOf b σ1) (Request b σ1 args') wr)
    as [wr' [e0 |]] eqn:Hrun.
  { intros [= <- <- <-]. split; [done |]. right. exists args'.
    split; [done |]. split; [done |]. right. exists c, wr.
    split; [done |]. split; [done |]. left. by exists wr', e0. }
  destruct (ResponseUnwrapped b σ1 wr' args') as [[un [e0 |]] |] eqn:Hun; cbn;
    [| | discriminate].
  { intros [= <- <- <-]. split; [done |]. right. exists args'.
    split; [done |]. split; [done |]. right. exists c, wr.
    split; [done |]. split; [done |]. right. by exists wr', un, e0. }
  destruct (Response b σ1 un args'); cbn; [intros [=] | discriminate].
Qed.

(** A nil client is not reported as an error: when the arguments pass the
    type check and the response container is built, [Execute] panics. *)
Lemma Execute_nil_client_panics (b : bindingProto) (args args' : list value)
    (σ : store) :
  TypeCheckArgs b σ args = Ret (args', None) ->
  (ResponseWrapper b (evaluateAttrs b None σ).2 args').2 = None ->
  exists msg, Execute b None args σ = Panic msg.
Proof.
  intros Hty Hwr. unfold Execute. rewrite Hty. cbn. unfold runPipeline.
  destruct (ResponseWrapper b (evaluateAttrs b None σ).2 args') as [wr err].
  cbn in Hwr. subst err. destruct (isZeroValue wr); eauto.
Qed.


Lemma argsFromStringsLoop_success (sprintfQ : string -> string)
    (unmarshal : string -> rtype -> value + error)
    (params : list BindingParam) :
  forall args i acc out,
    argsFromStringsLoop sprintfQ unmarshal params i args acc = Ret (out, None) ->
    exists vs,
      out = acc ++ vs /\ length vs = length args
      /\ forall j s, args !! j = Some s ->
           exists p ty v,
             params !! (i + j)%nat = Some p /\ Type_ p = Some ty
             /\ vs !! j = Some v
             /\ unmarshal (jsonText sprintfQ ty s) ty = inl v.
Proof.
  intros strs. induction strs as [| arg rest IH]; intros i acc out H; cbn in H.
  { injection H as <-. exists []. by rewrite app_nil_r. }
  destruct (params !! i) as [param |] eqn:Hp; [| discriminate].
  destruct (Type_ param) as [ty |] eqn:Hty; cbn in H; [| discriminate].
  destruct (unmarshal _ ty) as [v | e] eqn:Hv; [| discriminate].
  apply IH in H as (vs & -> & Hlen & Hall).
  exists (v :: vs). rewrite <- app_assoc. repeat split; [cbn; lia |].
  intros [| j] s Hj; cbn in Hj.
  - injection Hj as <-. exists param, ty, v. rewrite Nat.add_0_r. done.
  - destruct (Hall j s Hj) as (p & ty' & v' & H1 & H2 & H3 & H4).
    exists p, ty', v'. replace (i + S j)%nat with (S i + j)%nat by lia. done.
Qed.

(** X19. When [ArgsFromStrings] succeeds there are no more strings than
    params, the result has one value per string, and the value at each
    position is what [json.Unmarshal] made, for the type of the param at
    the same position, of that string, or of what the verb q of
    [fmt.Sprintf] makes of it when the param is of kind string.  No default
    is filled in. *)
Theorem ArgsFromStrings_success (sprintfQ : string -> string)
    (unmarshal : string -> rtype -> value + error)
    (b : bindingProto) (σ : store) (params : list BindingParam)
    (args : list string) (out : list value) :
  Params_ b σ = Ret params ->
  ArgsFromStrings sprintfQ unmarshal b σ args = Ret (out, None) ->
  length out = length args
  /\ (length args <= length params)%nat
  /\ forall j s, args !! j = Some s ->
       exists p ty v,
         params !! j = Some p /\ Type_ p = Some ty
         /\ out !! j = Some v
         /\ unmarshal (if bool_decide (kindOf ty = KString) then sprintfQ s else s)
              ty = inl v.
Proof.
  intros Hparams. unfold ArgsFromStrings. rewrite Hparams. cbn.
  destruct (paramErr b); [discriminate |].
  intros H. apply argsFromStringsLoop_success in H as (vs & -> & Hlen & Hall).
  cbn. split; [done |]. split; [| exact Hall].
  destruct (decide (length args = 0)%nat) as [-> | Hne]; [lia |].
  destruct (lookup_lt_is_Some_2 args (length args - 1)) as [s Hs]; [lia |].
  destruct (Hall _ _ Hs) as (p & _ & _ & Hp & _).
  apply lookup_lt_Some in Hp. cbn in Hp. lia.
Qed.

(** The empty heap holds no cached error, and so does the heap after a
    binding was made in it. *)
Lemma binding_operations_never_cache_witness :
  protos emptyStore = ∅
  /\ noCachedError (NewBindingChain TBool TBool None emptyStore).2.
Proof.
  split; [reflexivity |].
  assert (H : noCachedError emptyStore) by (intros p b H; discriminate).
  exact (proj1 (binding_operations_never_cache emptyStore H) TBool TBool None).
Defined.

(** Two attributes write the key k; the one evaluated last decides. *)
Lemma evaluateAttrs_last_write_wins_witness :
  attrFuncs protoAttrs = [attrK] ++ attrNeedsClient :: []
  /\ Attrs protoAttrs (evaluateAttrs protoAttrs (Some echoClient) bareBinding.2).2
     !! "k" = Some (VInt 2).
Proof.
  split; [reflexivity |].
  exact (proj1 (evaluateAttrs_last_write_wins protoAttrs (Some echoClient)
                  bareBinding.2 "k")
           [attrK] attrNeedsClient [] (VInt 2) eq_refl eq_refl eq_refl).
Defined.

(** [Execute] of the binding with the two attributes. *)
Lemma Execute_frame_witness :
  Execute protoAttrs (Some echoClient) [] bareBinding.2
  = Ret ((VBool false, None), (evaluateAttrs protoAttrs (Some echoClient)
                                 bareBinding.2).2)
  /\ protos (evaluateAttrs protoAttrs (Some echoClient) bareBinding.2).2
     = protos bareBinding.2.
Proof.
  split; [vm_compute; reflexivity |].
  exact (proj1 (Execute_frame protoAttrs (Some echoClient) [] bareBinding.2
                  ((VBool false, None),
                   (evaluateAttrs protoAttrs (Some echoClient) bareBinding.2).2)
                  eq_refl)).
Defined.

(** The schema of §8 without arguments. *)
Lemma Execute_error_is_wrapped_witness :
  Execute protoABC None [] storeABC
  = Ret ((VBool false, Some (EWrap WTypeCheck (ERequiredNotProvided "a" 0))),
         storeABC)
  /\ VBool false = zeroValue (RetT protoABC).
Proof.
  split; [reflexivity |].
  exact (proj1 (Execute_error_is_wrapped protoABC None [] storeABC storeABC
                  (VBool false) (EWrap WTypeCheck (ERequiredNotProvided "a" 0))
                  eq_refl)).
Defined.

(** Two strings for the schema of §8. *)
Lemma ArgsFromStrings_success_witness :
  Params_ protoABC storeABC = Ret schemaABC
  /\ ArgsFromStrings quoteASCII zeroUnmarshal protoABC storeABC ["5"; "1"]
     = Ret ([VInt 0; VInt 0], None)
  /\ length [VInt 0; VInt 0] = length ["5"; "1"].
Proof.
  split; [reflexivity |]. split; [reflexivity |].
  exact (proj1 (ArgsFromStrings_success quoteASCII zeroUnmarshal protoABC storeABC
                  schemaABC
                  ["5"; "1"] [VInt 0; VInt 0] eq_refl eq_refl)).
Defined.

(** ** Wrappers and the API *)

(** X20. [NewWrappedBinding] does not use the name it is given: the wrapper is
    made for the binding that [NewBinding] returned, whose name was never set,
    so the wrapper's name is the one derived from the two types. *)
Theorem NewWrappedBinding_ignores_name (resT retT : rtype) (name : string)
    (req : option BindingRequestMethod)
    (wr : option BindingResponseWrapperMethod)
    (un : option BindingResponseUnwrappedMethod)
    (rs : option BindingResponseMethod)
    (ps : option BindingParamsMethod) (pg : bool) (fs : list Attr) (σ : store) :
  exists bw σ' b,
    NewWrappedBinding resT retT name req wr un rs ps pg fs σ = Ret (bw, σ')
    /\ protos σ' !! bw_binding bw = Some b
    /\ nameSet b = false
    /\ bw_bindingName bw σ' = Ret (bw_Name bw)
    /\ bw_Name bw
       = "api.bindingProto[" +:+ typeString resT +:+ "," +:+ typeString retT +:+ "]".
Proof.
  unfold NewWrappedBinding.
  destruct (NewBinding_cell resT retT req wr un rs ps pg fs σ)
    as (b & Hb & Hfresh & _ & _ & _ & _ & Hns & _).
  destruct (NewBinding resT retT req wr un rs ps pg fs σ) as [p σ1] eqn:HNB.
  cbn in Hb, Hfresh.
  assert (HR : ResT b = resT /\ RetT b = retT).
  { unfold NewBinding, allocAttrs, allocProto in HNB. cbn in HNB.
    injection HNB as <- <-. rewrite evaluateAttrs_protos in Hb. cbn in Hb.
    rewrite lookup_insert_eq in Hb. by injection Hb as <-. }
  destruct HR as [HresT HretT].
  unfold deref at 1. rewrite Hb. cbn.
  destruct (allocProto_snapshot σ1 p b (with_name name true b) Hb)
    as [(_ & Hold & _ & _) _].
  unfold allocProto in Hold. cbn in Hold.
  unfold WrapBinding, deref. cbn. rewrite Hold. cbn.
  eexists _, _, b. split; [reflexivity |]. cbn.
  unfold bw_bindingName, Call, deref, bw_Name. cbn. rewrite Hold. cbn.
  repeat split; try done.
  unfold Name. rewrite Hns. cbn. by rewrite HresT, HretT.
Qed.

(** X21. [API.Execute]: an unknown name gives the error of the API, a nil
    value and an unchanged heap; for a known name the result is that of
    [Execute] of the wrapped binding with the client of the API, whatever the
    key it is stored under, provided the client and every argument are not
    nil; a nil client or argument makes the reflective call panic. *)
Theorem API_Execute_cases (api : API) (name : string) (args : list value)
    (σ : store) :
  (schema api !! name = None ->
     API_Execute api name args σ = Ret ((VNil, Some (ENoBinding name)), σ))
  /\ (forall bw b c,
        schema api !! name = Some bw ->
        protos σ !! bw_binding bw = Some b ->
        api_Client api = Some c ->
        existsb isZeroValue args = false ->
        API_Execute api name args σ
        = ('((val, err), σ') ← Execute b (Some c) args σ;
           Ret ((val, option_map EBinding err), σ')))
  /\ (forall bw,
        schema api !! name = Some bw ->
        api_Client api = None \/ existsb isZeroValue args = true ->
        exists msg, API_Execute api name args σ = Panic msg).
Proof.
  unfold API_Execute, checkBindingExists, API_Binding. split; [| split].
  - by intros ->.
  - intros bw b c -> Hb Hc Hargs. cbn. rewrite Hc.
    unfold bw_Execute, Call, deref. rewrite Hb. cbn. by rewrite Hargs.
  - intros bw -> Hnil. cbn. unfold bw_Execute, Call. cbn.
    destruct Hnil as [-> | ->]; cbn; [eauto |].
    rewrite orb_true_r. cbn. eauto.
Qed.

(** An API without bindings. *)
Lemma API_Execute_cases_witness :
  API_Execute (NewAPI None ∅) "users" [] emptyStore
  = Ret ((VNil, Some (ENoBinding "users")), emptyStore).
Proof.
  exact (proj1 (API_Execute_cases (NewAPI None ∅) "users" [] emptyStore) eq_refl).
Defined.

(** ** More on the paginator *)

Lemma singleton_difference_empty (x : string) (S : gset string) :
  ({[x]} : gset string) ∖ S = ∅ <-> x ∈ S.
Proof.
  split.
  - intros H. destruct (decide (x ∈ S)) as [| Hn]; [done |].
    exfalso. apply (not_elem_of_empty (C:=gset string) x). rewrite <- H.
    apply elem_of_difference. split; [by apply elem_of_singleton | done].
  - intros H. apply set_eq. intros y.
    rewrite elem_of_difference, elem_of_singleton, elem_of_empty.
    split; [intros [-> Hn]; done | done].
Qed.

(** X22. [checkPaginatorParams]: a param named page selects the page set;
    failing that, a param named after selects the after set; otherwise the set
    is unknown. *)
Theorem checkPaginatorParams_priority (params : list BindingParam) :
  checkPaginatorParams params
  = if bool_decide ("page" ∈ name <$> params) then pageParamSet
    else if bool_decide ("after" ∈ name <$> params) then afterParamSet
    else unknownParamSet.
Proof.
  unfold checkPaginatorParams, Sets.
  rewrite !filter_cons, filter_nil. cbn [Set_].
  repeat case_decide; repeat case_bool_decide; try done;
    repeat match goal with
    | H : _ ∖ _ = ∅ |- _ => apply singleton_difference_empty in H;
                            rewrite elem_of_list_to_set in H
    | H : ¬ (_ ∖ _ = ∅) |- _ => rewrite singleton_difference_empty in H;
                            rewrite elem_of_list_to_set in H
    end; done.
Qed.

Lemma insertLoop_skips (env : collaborators) (k : string) (v : value)
    (rest : list BindingParam) :
  forall pre paramNo args,
    Forall (fun q => name q <> k) pre ->
    (paramNo + length pre <= length args)%nat ->
    insertLoop env {[k]} {[k := v]} paramNo (pre ++ rest) args ∅
    = insertLoop env {[k]} {[k := v]} (paramNo + length pre) rest args ∅.
Proof.
  induction pre as [| q pre IH]; intros paramNo args Hpre Hlen.
  { cbn. by rewrite Nat.add_0_r. }
  apply Forall_cons in Hpre as [Hq Hpre]. cbn in Hlen.
  cbn [app insertLoop]. rewrite lookup_singleton_ne by done.
  rewrite bool_decide_eq_false_2 by lia.
  rewrite bool_decide_eq_false_2.
  - rewrite IH by (try done; lia). f_equal. cbn. lia.
  - intros H. apply (not_elem_of_empty (C:=gset string) k). rewrite <- H.
    by apply elem_of_singleton.
Qed.

(** X23. [InsertPaginatorParamValues] with the single paginator value [k :=
    v]: when the params before the one named [k] all have an argument, the
    value is added at the position of that param and nothing else is. *)
Theorem InsertPaginatorParamValues_inserts (env : collaborators)
    (pps : paginatorParamSet) (k : string) (v : value)
    (pre post : list BindingParam) (p : BindingParam) (args : list value) :
  Set_ pps = {[k]} -> name p = k ->
  Forall (fun q => name q <> k) pre ->
  (length pre <= length args)%nat ->
  InsertPaginatorParamValues env pps (pre ++ p :: post) args {[k := v]}
  = (AddElems env args [v] (length pre), None).
Proof.
  intros Hset Hp Hpre Hlen. unfold InsertPaginatorParamValues. rewrite Hset.
  rewrite insertLoop_skips by done. cbn.
  rewrite Hp, lookup_singleton_eq.
  by rewrite bool_decide_eq_true_2 by (by rewrite union_empty_r_L).
Qed.

(** X24. A required param without an argument that comes before the paginator
    param: the arguments are returned as they are, with an error that names
    the param and its position. *)
Theorem InsertPaginatorParamValues_required_missing (env : collaborators)
    (pps : paginatorParamSet) (k : string) (v : value)
    (pre rest : list BindingParam) (q : BindingParam) (args : list value) :
  Set_ pps = {[k]} ->
  Forall (fun q => name q <> k) pre -> name q <> k ->
  required q = true ->
  length pre = length args ->
  InsertPaginatorParamValues env pps (pre ++ q :: rest) args {[k := v]}
  = (args, Some (EInsertRequired (name q) (length pre))).
Proof.
  intros Hset Hpre Hq Hreq Hlen. unfold InsertPaginatorParamValues. rewrite Hset.
  rewrite insertLoop_skips by (try done; lia). cbn.
  rewrite lookup_singleton_ne by done.
  rewrite bool_decide_eq_true_2 by lia. by rewrite Hreq.
Qed.

Lemma executeOnce_plain (env : collaborators) (p : paginator) (args' : list value)
    (w : world) :
  isRateLimited env = false ->
  executeOnce env p args' w
  = (Ret ((binding_Execute env args' w).1, false, false,
          (binding_Execute env args' w).2), emit (EvExecute args') w).
Proof.
  intros Hrl. unfold executeOnce, paginatorCheckRateLimit. rewrite Hrl.
  rewrite W_bind_run. cbn. rewrite W_bind_run. unfold execute.
  by destruct (binding_Execute env args' w).
Qed.

Lemma Next_plain_run (env : collaborators) (p : paginator) (w : world)
    (pv : gmap string value) :
  isRateLimited env = false ->
  GetPaginatorParamValue env (paramSet p) (params p) (currentPage p) (page p)
  = Ret (inl pv) ->
  let args' := pageArgs env p pv in
  let p1 := with_fetched false (binding_Execute env args' w).1 p in
  Next env p w
  = match (binding_Execute env args' w).2 with
    | Some e =>
        (Ret (p1, Some (EWrap (WPage (page p)) e)), emit (EvExecute args') w)
    | None =>
        (Ret (with_page (wrap64 (page p + 1)) p1, None),
         if waitTime p =? 0 then emit (EvExecute args') w
         else mkWorld (clock w + Z.max (waitTime p) 0)
                (trace w ++ [EvExecute args'; EvSleep (waitTime p)]))
    end.
Proof.
  intros Hrl Hpv. cbv zeta. unfold pageArgs, Next. rewrite W_bind_run.
  unfold liftR at 1. rewrite Hpv. cbv iota beta.
  destruct (InsertPaginatorParamValues env (paramSet p) (params p) (args p) pv)
    as [args' ierr]. cbn [fst].
  rewrite W_bind_run, executeOnce_plain by done. cbv iota beta.
  destruct (binding_Execute env args' w) as [ret [e |]]; cbn [fst snd negb]; [done |].
  unfold advance. rewrite W_bind_run. cbn.
  destruct (waitTime p =? 0); cbn; [done |].
  by rewrite <- app_assoc.
Qed.

(** X25. [Next] with a client that is not rate limited.  When the paginator
    value of the page cannot be computed, the error is returned wrapped
    with the page number and nothing is executed.  When it can, the binding
    is executed exactly once, with the arguments that the insertion
    returned whether or not it also returned an error; an error of the
    binding is returned wrapped with the page number, the page counter
    unchanged; otherwise the counter moves on and the fixed delay, if any,
    is slept. *)
Theorem Next_plain_client (env : collaborators) (p : paginator) (w : world) :
  isRateLimited env = false ->
  match GetPaginatorParamValue env (paramSet p) (params p) (currentPage p)
          (page p) with
  | Panic msg => Next env p w = (Panic msg, w)
  | Ret (inr e) =>
      Next env p w = (Ret (p, Some (EWrap (WPaginatorValues (page p)) e)), w)
  | Ret (inl pv) =>
      let args' := pageArgs env p pv in
      let p1 := with_fetched false (binding_Execute env args' w).1 p in
      match (binding_Execute env args' w).2 with
      | Some e =>
          (Next env p w).1 = Ret (p1, Some (EWrap (WPage (page p)) e))
          /\ newEvents w (Next env p w).2 = [EvExecute args']
      | None =>
          (Next env p w).1 = Ret (with_page (wrap64 (page p + 1)) p1, None)
          /\ newEvents w (Next env p w).2
             = EvExecute args'
               :: (if waitTime p =? 0 then [] else [EvSleep (waitTime p)])
      end
  end.
Proof.
  intros Hrl.
  destruct (GetPaginatorParamValue env (paramSet p) (params p) (currentPage p)
              (page p)) as [[pv | e] | msg] eqn:Hpv.
  - cbv zeta. rewrite (Next_plain_run env p w pv Hrl Hpv). cbv zeta.
    destruct (binding_Execute env (pageArgs env p pv) w) as [ret [e |]];
      cbn [fst snd].
    { split; [done |]. by apply newEvents_app. }
    split; [done |]. apply newEvents_app.
    destruct (waitTime p =? 0); cbn; done.
  - unfold Next. rewrite W_bind_run. unfold liftR at 1. by rewrite Hpv.
  - unfold Next. rewrite W_bind_run. unfold liftR at 1. by rewrite Hpv.
Qed.

(** X26. [Next] and the paginator: whatever happens, the params, the param
    set, the limit argument, the delay, the user arguments and the return type
    stay as they are; the page counter moves on by one, wrapping at 64 bits,
    exactly when no error is returned. *)
Theorem Next_frame (env : collaborators) (p p' : paginator) (w : world)
    (err : option error) :
  (Next env p w).1 = Ret (p', err) ->
  params p' = params p /\ paramSet p' = paramSet p /\ limitArg p' = limitArg p
  /\ waitTime p' = waitTime p /\ args p' = args p
  /\ returnType p' = returnType p
  /\ page p' = match err with
               | Some _ => page p
               | None => wrap64 (page p + 1)
               end.
Proof.
  unfold Next. rewrite W_bind_run. unfold liftR at 1.
  destruct (GetPaginatorParamValue env (paramSet p) (params p) (currentPage p) (page p))
    as [[pv | e0] | msg]; [| by intros [= <- <-] | intros [=]].
  destruct (InsertPaginatorParamValues env (paramSet p) (params p) (args p) pv)
    as [args' ierr].
  rewrite W_bind_run.
  destruct (executeOnce env p args' w) as [[[[[ret ig] ok] e] | msg] w1];
    [| intros [=]].
  destruct e as [e |].
  - destruct ig; cbn [negb]; [| by intros [= <- <-]].
    rewrite W_bind_run.
    destruct (executeOnce env (with_fetched ok ret p) args' w1)
      as [[[[[ret2 ig2] ok2] err2] | msg] w2]; [| intros [=]].
    destruct err2 as [e2 |]; [by intros [= <- <-] |].
    destruct (advance_run (with_fetched ok2 ret2 (with_fetched ok ret p)) w2)
      as (w4 & evs & Hadv & _).
    rewrite Hadv. by intros [= <- <-].
  - destruct (advance_run (with_fetched ok ret p) w1) as (w4 & evs & Hadv & _).
    rewrite Hadv. by intros [= <- <-].
Qed.


Lemma retryLatest_silent (env : collaborators) (wt : Z) (n : string) :
  (forall n w, LatestRateLimit env n w = None) ->
  forall tries w,
    retryLatest env wt n tries None w
    = (Ret None,
       mkWorld (clock w + Z.of_nat tries * Z.max wt 0)
         (trace w ++ concat (replicate tries
                               [EvLog; EvSleep wt; EvLatestRateLimit n]))).
Proof.
  intros Hnone. induction tries as [| tries IH]; intros w.
  { cbn. rewrite app_nil_r, Z.add_0_r. by destruct w. }
  cbn [retryLatest]. rewrite W_bind_run. cbn [log emit]. cbv iota beta.
  rewrite W_bind_run. cbn [sleep]. cbv iota beta.
  rewrite W_bind_run. unfold latestRateLimit at 1. rewrite Hnone. cbv iota beta.
  rewrite IH. cbn [clock trace emit replicate concat].
  rewrite <- !app_assoc. cbn [app]. do 2 f_equal. lia.
Qed.

Lemma consultOracle_silent (env : collaborators) (wt : Z) (n : string) (w : world) :
  (forall n w, LatestRateLimit env n w = None) ->
  consultOracle env wt n w
  = (Ret None, mkWorld (clock w + 3 * Z.max wt 0) (trace w ++ oracleRetries n wt)).
Proof.
  intros Hnone. unfold consultOracle, oracleRetries.
  rewrite W_bind_run. unfold latestRateLimit at 1. rewrite Hnone. cbv iota beta.
  rewrite retryLatest_silent by done. cbn [emit clock trace].
  by rewrite <- app_assoc.
Qed.

Lemma check_without_rate_limit (env : collaborators) (wt : Z) (n : string)
    (la : option (option Q)) (pg : Z) (cur : value) (ps : list BindingParam)
    (ags : list value) (w : world) :
  isRateLimited env = true ->
  (forall n w, LatestRateLimit env n w = None) ->
  pg <> 1 ->
  paginatorCheckRateLimit env wt n la pg cur ps ags w
  = (Ret (false, true, Some (ENoRateLimit pg)),
     mkWorld (clock w + 3 * Z.max wt 0)
       (trace w ++ oracleRetries n wt ++ [EvLog])).
Proof.
  intros Hrl Hnone Hpg. unfold paginatorCheckRateLimit. rewrite Hrl.
  rewrite W_bind_run, consultOracle_silent by done. cbv iota beta.
  rewrite (proj2 (Z.eqb_neq _ _) Hpg).
  rewrite W_bind_run. unfold log, emit. cbn [clock trace]. cbv iota beta.
  by rewrite <- app_assoc.
Qed.

Lemma Next_without_rate_limit_run (env : collaborators) (p : paginator)
    (w : world) (pv : gmap string value) :
  isRateLimited env = true ->
  (forall n w, LatestRateLimit env n w = None) ->
  page p <> 1 ->
  GetPaginatorParamValue env (paramSet p) (params p) (currentPage p) (page p)
  = Ret (inl pv) ->
  Next env p w
  = (Ret (with_fetched true (zeroValue (returnType p)) p,
          Some (EWrap (WPage (page p)) (ENoRateLimit (page p)))),
     mkWorld (clock w + 3 * Z.max (waitTime p) 0)
       (trace w ++ oracleRetries (binding_Name env) (waitTime p) ++ [EvLog])).
Proof.
  intros Hrl Hnone Hpg Hpv. unfold Next. rewrite W_bind_run. unfold liftR at 1.
  rewrite Hpv. cbv iota beta.
  destruct (InsertPaginatorParamValues env (paramSet p) (params p) (args p) pv)
    as [args' ierr].
  rewrite W_bind_run. unfold executeOnce.
  rewrite W_bind_run, check_without_rate_limit by done.
  reflexivity.
Qed.

(** X27. Past page 1, with a rate-limited client whose oracle never has a
    limit to report, and a paginator value that can be computed for the
    page, [Next] asks the oracle four times, logging and sleeping the delay
    before each of the three retries, logs once more and returns the error
    of the check wrapped with the page number: the binding is not
    executed, the clock is not read and the page counter stays, but the
    current page is replaced by the zero value. *)
Theorem Next_without_rate_limit (env : collaborators) (p : paginator) (w : world)
    (pv : gmap string value) :
  isRateLimited env = true ->
  (forall n w, LatestRateLimit env n w = None) ->
  page p <> 1 ->
  GetPaginatorParamValue env (paramSet p) (params p) (currentPage p) (page p)
  = Ret (inl pv) ->
  (Next env p w).1
  = Ret (with_fetched true (zeroValue (returnType p)) p,
         Some (EWrap (WPage (page p)) (ENoRateLimit (page p))))
  /\ newEvents w (Next env p w).2
     = oracleRetries (binding_Name env) (waitTime p) ++ [EvLog].
Proof.
  intros Hrl Hnone Hpg Hpv.
  rewrite (Next_without_rate_limit_run env p w pv Hrl Hnone Hpg Hpv).
  split; [reflexivity |]. by apply newEvents_app.
Qed.

(** X28. The rate-limit check with a request limit that the oracle returns
    at once and whose reset time is after the clock as read for the
    comparison.  When nothing remains of the limit, the check logs and then
    sleeps for the time from the second reading of the clock to the reset
    time, so that it returns no earlier than the reset time; when
    something remains it neither logs nor sleeps.  In both cases it reports
    no error and no first request to ignore. *)
Theorem request_limit_waits_for_reset (env : collaborators) (wt : Z) (n : string)
    (la : option (option Q)) (pg : Z) (cur : value) (ps : list BindingParam)
    (ags : list value) (w : world) (r : RateLimit) :
  isRateLimited env = true ->
  LatestRateLimit env n w = Some r ->
  Type_rl r = RequestRateLimit ->
  let w0 := emit (EvLatestRateLimit n) w in
  let t0 := clock w0 + elapsed env 0 w0 in
  let t1 := t0 + elapsed env 1 (mkWorld t0 (trace w0)) in
  t0 < Reset r ->
  exists w',
    paginatorCheckRateLimit env wt n la pg cur ps ags w
    = (Ret (false, true, None), w')
    /\ newEvents w w'
       = EvLatestRateLimit n
         :: (if Remaining r =? 0 then [EvLog; EvSleep (Reset r - t1)] else [])
    /\ (Remaining r = 0 -> Reset r <= clock w').
Proof.
  intros Hrl Hr Hty w0 t0 t1 Hlive. unfold paginatorCheckRateLimit, consultOracle.
  rewrite Hrl. rewrite !W_bind_run. unfold latestRateLimit at 1. rewrite Hr.
  cbv iota beta. cbn [retryLatest]. unfold mret at 1, W_ret at 1. cbv iota beta.
  rewrite W_bind_run. unfold now at 1. cbv zeta iota beta.
  fold w0. fold t0. rewrite (proj2 (Z.ltb_lt _ _) Hlive).
  rewrite W_bind_run. unfold now at 1. cbv zeta iota beta. cbn [clock trace].
  fold t1. rewrite Hty. rewrite W_bind_run.
  destruct (Remaining r =? 0) eqn:Hrem.
  - rewrite W_bind_run. cbn [log sleep emit clock trace fst snd].
    cbv iota beta. eexists. split; [reflexivity |]. cbn [clock trace].
    split; [| intros _; lia].
    apply newEvents_app. subst w0. cbn. by rewrite <- !app_assoc.
  - cbv iota beta. eexists. split; [reflexivity |]. cbn [clock trace].
    split.
    + apply newEvents_app. by subst w0.
    + intros H0. apply Z.eqb_neq in Hrem. done.
Qed.

Lemma PagesLoop_fetches (env : collaborators) (e : rtype) (pages : list (list value))
    (p p' : paginator) (w w' : world) (pageNo : Z) :
  fetches env e p w pages p' w' ->
  forall acc fuel c,
    returnType p = TSlice e ->
    Continue env p = Ret c -> (pages <> [] -> c = true) ->
    1 <= page p -> page p + Z.of_nat (length pages) = pageNo + 1 ->
    pageNo < 2 ^ 63 - 1 ->
    (length pages + 1 <= fuel)%nat ->
    PagesLoop env fuel pageNo p (VSlice e acc) w
    = (Ret (Some (p', VSlice e (acc ++ concat pages), None)), w').
Proof.
  induction 1 as [p w | p w p1 w1 xs pages p' w' HN Hcur Hne Hf IH];
    intros acc fuel c Hr Hcont Hc Hlo Hpg Hhi Hfuel.
  - destruct fuel as [| fuel]; [cbn in Hfuel; lia |].
    cbn [PagesLoop]. rewrite W_bind_run. unfold liftR at 1. rewrite Hcont.
    cbv iota beta. cbn [length] in Hpg.
    assert ((page p <=? pageNo) = false) as -> by (apply Z.leb_gt; lia).
    rewrite andb_false_r. cbn [concat]. by rewrite app_nil_r.
  - destruct fuel as [| fuel]; [cbn in Hfuel; lia |].
    cbn [length] in Hpg, Hfuel.
    cbn [PagesLoop]. rewrite W_bind_run. unfold liftR at 1. rewrite Hcont.
    cbv iota beta. rewrite (Hc ltac:(done)).
    assert ((page p <=? pageNo) = true) as -> by (apply Z.leb_le; lia).
    cbn [andb]. rewrite W_bind_run, HN. cbv iota beta.
    destruct (Next_success _ _ _ _ _ HN) as [Hpg1 Hrt].
    rewrite W_bind_run. unfold liftR at 1.
    rewrite (merge_slices env e p1 acc xs) by (rewrite ?Hrt; auto).
    cbv iota beta.
    rewrite (IH (acc ++ xs) fuel true); try done.
    + cbn [concat]. by rewrite app_assoc.
    + by rewrite Hrt.
    + eapply Continue_nonempty; eauto. by rewrite Hrt.
    + rewrite Hpg1, wrap64_succ; lia.
    + rewrite Hpg1, wrap64_succ; lia.
    + lia.
Qed.

(** X29. [Pages(n)] on a fresh typed paginator whose return type is a slice:
    when the first [n] calls of [Next] fetch non-empty pages, it returns their
    concatenation in fetch order with no error, and leaves the paginator where
    the [n]th fetch left it, without a further fetch. *)
Theorem Pages_fetches_first_pages (env : collaborators) (e : rtype)
    (p p' : paginator) (w w' : world) (pages : list (list value)) (fuel : nat) :
  returnType p = TSlice e -> page p = 1 -> currentPage p = VSlice e [] ->
  Z.of_nat (length pages) < 2 ^ 62 ->
  fetches env e p w pages p' w' ->
  (length pages + 1 <= fuel)%nat ->
  Pages env fuel (Z.of_nat (length pages)) p w
  = (Ret (Some (p', VSlice e (concat pages), None)), w').
Proof.
  intros Hr Hp Hc Hlen Hf Hfuel. unfold Pages. rewrite Hr.
  change (zeroValue (TSlice e)) with (VSlice e []).
  rewrite (PagesLoop_fetches env e pages p p' w w' _ Hf [] fuel true); try done.
  - by eapply Continue_typed_page_one.
  - lia.
  - lia.
  - lia.
Qed.

(** The argument of [Pages] is compared with the page counter: on a
    paginator that is already past page [pageNo], nothing is fetched and
    the zero value is returned. *)
Lemma Pages_behind_counter (env : collaborators) (p : paginator) (w : world)
    (pageNo : Z) (fuel : nat) (c : bool) :
  Continue env p = Ret c -> pageNo < page p ->
  Pages env (S fuel) pageNo p w
  = (Ret (Some (p, zeroValue (returnType p), None)), w).
Proof.
  intros Hc Hpg. unfold Pages. cbn [PagesLoop]. rewrite W_bind_run.
  unfold liftR at 1. rewrite Hc. cbv iota beta.
  assert ((page p <=? pageNo) = false) as -> by (apply Z.leb_gt; lia).
  by rewrite andb_false_r.
Qed.

Lemma UntilLoop_true (env : collaborators) :
  forall fuel p pages w,
    UntilLoop env fuel (fun _ _ => true) p pages w = AllLoop env fuel p pages w.
Proof.
  induction fuel as [| fuel IH]; intros p pages w; [done |].
  cbn [UntilLoop AllLoop]. rewrite !W_bind_run.
  destruct (liftR (Continue env p) w) as [[c | msg] w0]; [| done].
  rewrite andb_true_r. destruct c; [| done].
  rewrite !W_bind_run.
  destruct (Next env p w0) as [[[p' [e |]] | msg] w1]; try done.
  rewrite !W_bind_run.
  destruct (liftR (merge env p' pages) w1) as [[[pages' [e |]] | msg] w2]; try done.
Qed.


(** The page number goes after the argument for id. *)
Lemma InsertPaginatorParamValues_inserts_witness :
  InsertPaginatorParamValues envPlain pageParamSet idPageParams [VInt 7]
    {["page" := VInt 1]}
  = ([VInt 7; VInt 1], None).
Proof.
  apply (InsertPaginatorParamValues_inserts envPlain pageParamSet "page" (VInt 1)
           [mkParam "id" false true (VInt 0) (Some TInt) false] []
           (mkParam "page" false false (VInt 1) (Some TInt) false) [VInt 7]);
    [reflexivity | reflexivity | | cbn; lia].
  constructor; [discriminate | constructor].
Defined.

(** No argument for the required id. *)
Lemma InsertPaginatorParamValues_required_missing_witness :
  InsertPaginatorParamValues envPlain pageParamSet idPageParams []
    {["page" := VInt 1]}
  = ([], Some (EInsertRequired "id" 0)).
Proof.
  apply (InsertPaginatorParamValues_required_missing envPlain pageParamSet "page"
           (VInt 1) [] [mkParam "page" false false (VInt 1) (Some TInt) false]
           (mkParam "id" false true (VInt 0) (Some TInt) false) []);
    [reflexivity | constructor | discriminate | reflexivity | reflexivity].
Defined.

(** Without an argument for the required id the insertion fails, and
    [Next] executes the binding all the same and succeeds. *)
Lemma Next_plain_client_witness :
  (InsertPaginatorParamValues envPlain pageParamSet idPageParams []
     {["page" := VInt 1]}).2 = Some (EInsertRequired "id" 0)
  /\ (Next envPlain plainPag world0).1
     = Ret (with_page 2 (with_fetched false (VSlice TInt [VInt 1]) plainPag), None)
  /\ newEvents world0 (Next envPlain plainPag world0).2 = [EvExecute []].
Proof.
  split; [reflexivity |].
  exact (Next_plain_client envPlain plainPag world0 eq_refl).
Defined.

(** The first fetch over [envPages]. *)
Lemma Next_frame_witness :
  (Next envPages (typedPag envPages) world0).1
  = Ret (pagAt 2 [VInt 1; VInt 2], None)
  /\ args (pagAt 2 [VInt 1; VInt 2]) = args (typedPag envPages)
  /\ page (pagAt 2 [VInt 1; VInt 2]) = wrap64 (page (typedPag envPages) + 1).
Proof.
  split; [vm_compute; reflexivity |].
  pose proof (Next_frame envPages (typedPag envPages) (pagAt 2 [VInt 1; VInt 2])
                world0 None eq_refl) as H.
  split; [exact (proj1 (proj2 (proj2 (proj2 (proj2 H)))))
         | exact (proj2 (proj2 (proj2 (proj2 (proj2 (proj2 H))))))].
Defined.

(** Page 2 with a silent oracle. *)
Lemma Next_without_rate_limit_witness :
  (Next envSilent (pagAt 2 [VInt 1]) world0).1
  = Ret (with_fetched true (VSlice TInt []) (pagAt 2 [VInt 1]),
         Some (EWrap (WPage 2) (ENoRateLimit 2)))
  /\ newEvents world0 (Next envSilent (pagAt 2 [VInt 1]) world0).2
     = oracleRetries "items" 0 ++ [EvLog].
Proof.
  apply (Next_without_rate_limit envSilent (pagAt 2 [VInt 1]) world0
           {["page" := VInt 2]});
    [reflexivity | reflexivity | discriminate | reflexivity].
Defined.

(** At instant 10, with nothing remaining until instant 100, the clock
    reads 30 for the comparison and 35 for the duration of the sleep. *)
Lemma request_limit_waits_for_reset_witness :
  exists w',
    paginatorCheckRateLimit envSlow 0 "items" (Some None) 1 (VSlice TInt [])
      pageLimitParams [] world10
    = (Ret (false, true, None), w')
    /\ newEvents world10 w' = [EvLatestRateLimit "items"; EvLog; EvSleep 65]
    /\ (0 = 0 -> 100 <= clock w').
Proof.
  apply (request_limit_waits_for_reset envSlow 0 "items" (Some None) 1
           (VSlice TInt []) pageLimitParams [] world10
           (mkRateLimit 100 0 5 RequestRateLimit));
    reflexivity.
Defined.

(** [Pages(1)] over [envPages] returns the first page, [(1, 2)]. *)
Lemma Pages_fetches_first_pages_witness :
  fetches envPages TInt (typedPag envPages) world0 [[VInt 1; VInt 2]]
    (pagAt 2 [VInt 1; VInt 2]) (worldAt 1)
  /\ Pages envPages 2 1 (typedPag envPages) world0
     = (Ret (Some (pagAt 2 [VInt 1; VInt 2], VSlice TInt [VInt 1; VInt 2], None)),
        worldAt 1).
Proof.
  assert (Hf : fetches envPages TInt (typedPag envPages) world0 [[VInt 1; VInt 2]]
                 (pagAt 2 [VInt 1; VInt 2]) (worldAt 1)).
  { apply (fetches_cons envPages TInt _ _ (pagAt 2 [VInt 1; VInt 2]) (worldAt 1));
      [vm_compute; reflexivity | reflexivity | discriminate |].
    apply fetches_nil. }
  split; [exact Hf |].
  apply (Pages_fetches_first_pages envPages TInt (typedPag envPages)
           (pagAt 2 [VInt 1; VInt 2]) world0 (worldAt 1) [[VInt 1; VInt 2]] 2);
    [reflexivity | reflexivity | reflexivity | vm_compute; reflexivity
    | exact Hf | cbn; lia].
Defined.

